(** * CLOCK-Pro cache (dgryski/go-clockpro): model and verified properties

    Shallow embedding of [clockpro.go] (the [container/list] version):
    the metadata list, the key index, the three clock hands with their
    parallel integer indices, and the eviction procedures [evict],
    [hand_cold], [hand_hot], [hand_test].

    Modelling conventions.
    - A Go pointer is [option]: [None] is [nil]; calling a method on, or
      reading a field through, a nil pointer is the result [Panic].
    - A [*list.Element] is a record holding its identity [eid] (a fresh
      number per allocation) and its [Value], the address of the
      [metaEntry] it carries.  An element belongs to the list exactly when
      it occurs in [meta]; an element that [Remove] took out of the list
      answers [nil] to [Next] and [Prev], as in [container/list].
    - The [metaEntry] objects live in [heap], indexed by address, so that
      an entry shared by a removed element and its re-inserted successor is
      one object, as in the source.
    - Go's [int] is modelled by [Z]: every quantity stays between [-1] and
      the list length plus one, far from the 64-bit limits.
    - Recursion among the hands and the [for] loops is bounded by a fuel
      argument; [OutOfFuel] means the bound was reached, and a call that
      yields [OutOfFuel] for every fuel does not return in the source.
    - The calls of [TRACE] and [VerifyIdxs] inside the operations do
      nothing when [DEBUG] is false, which is its value in the source, and
      are left out of the operations.  [VerifyIdxs] and [Dump] are modelled
      on their own, with [DEBUG] as a parameter.
    - The earlier [container/ring] version of the cache is modelled in the
      module [Ring], with the ring elements in a store indexed by address
      and the methods of [container/ring] written out on that store. *)

From Stdlib Require Import ZArith Lia Ascii.
From stdpp Require Import base option list gmap strings functions.

Local Open Scope Z_scope.

(** ** Results of fallible computations *)

Inductive result (A : Type) : Type :=
  | Ok (a : A)
  | Panic
  | OutOfFuel.
Arguments Ok {A} a.
Arguments Panic {A}.
Arguments OutOfFuel {A}.

Global Instance result_ret : MRet result := λ A a, Ok a.
Global Instance result_bind : MBind result := λ A B f m,
  match m with
  | Ok a => f a
  | Panic => Panic
  | OutOfFuel => OutOfFuel
  end.

(** Dereferencing a possibly nil pointer. *)
Definition deref {A : Type} (p : option A) : result A :=
  match p with
  | Some a => Ok a
  | None => Panic
  end.

(** ** Page types *)

Inductive pageType : Type := ptTest | ptCold | ptHot.

Global Instance pageType_eq_dec : EqDecision pageType.
Proof. solve_decision. Defined.

(** The integer of a page type: [ptTest], [ptCold], [ptHot] are declared
    with [iota]. *)
Definition pageType_code (t : pageType) : Z :=
  match t with
  | ptTest => 0
  | ptCold => 1
  | ptHot => 2
  end.

(** [String], on the integer that a [pageType] is in the source. *)
Definition pageType_String (p : Z) : string :=
  if decide (p = pageType_code ptTest) then "Test"
  else if decide (p = pageType_code ptCold) then "Cold"
  else if decide (p = pageType_code ptHot) then "Hot"
  else "unknown".

(** ** The linked list of [container/list] *)

Record Element : Type := mkElement { eid : nat; Value : nat }.

Global Instance Element_eq_dec : EqDecision Element.
Proof. solve_decision. Defined.

Definition Front (l : list Element) : option Element := head l.
Definition Back (l : list Element) : option Element := list.last l.
Definition Len (l : list Element) : Z := Z.of_nat (length l).

(** [e.Next()]: the successor of [e], nil for the last element and for an
    element that is not in the list. *)
Fixpoint Next (l : list Element) (e : Element) : option Element :=
  match l with
  | [] => None
  | x :: r => if decide (x = e) then head r else Next r e
  end.

(** [e.Prev()]: the predecessor of [e], nil for the first element and for
    an element that is not in the list. *)
Fixpoint Prev (l : list Element) (e : Element) : option Element :=
  match l with
  | x :: r =>
      if decide (x = e) then None
      else match head r with
           | Some y => if decide (y = e) then Some x else Prev r e
           | None => None
           end
  | [] => None
  end.

Fixpoint insert_before (new mark : Element) (l : list Element) : list Element :=
  match l with
  | [] => []
  | x :: r =>
      if decide (x = mark) then new :: x :: r else x :: insert_before new mark r
  end.

(** [l.InsertBefore(v, mark)]: nil, and the list unchanged, when [mark] is
    not an element of [l]. *)
Definition InsertBefore (l : list Element) (id v : nat) (mark : Element)
  : option Element * list Element :=
  if decide (mark ∈ l)
  then (Some (mkElement id v), insert_before (mkElement id v) mark l)
  else (None, l).

(** [l.Remove(e)]: the list is unchanged when [e] is not one of its
    elements. *)
Definition Remove (l : list Element) (e : Element) : list Element :=
  filter (λ x, x ≠ e) l.

(** The loop of [meta_del] that counts the elements in front of [elt]; it
    runs to the end of the list when [elt] is not found. *)
Fixpoint index_of (elt : option Element) (l : list Element) : Z :=
  match l with
  | [] => 0
  | x :: r => if decide (Some x = elt) then 0 else 1 + index_of elt r
  end.

(** The idiom [idx++; pos = pos.Next(); if pos == nil { pos = Front(); idx = 0 }]. *)
Definition advance (l : list Element) (pos : option Element) (idx : Z)
  : result (option Element * Z) :=
  e ← deref pos;
  match Next l e with
  | Some n => Ok (Some n, idx + 1)
  | None => Ok (Front l, 0)
  end.

(** The idiom [pos = pos.Prev(); if pos == nil { pos = Back() }]. *)
Definition retreat (l : list Element) (pos : option Element)
  : result (option Element) :=
  e ← deref pos;
  match Prev l e with
  | Some p => Ok (Some p)
  | None => Ok (Back l)
  end.

Section ClockPro.

(** The type of the cached values; a value of interface type is [option V],
    [None] being the nil interface. *)
Context {V : Type}.

Record metaEntry : Type := mkMetaEntry {
  ptype : pageType;
  key : string;
  val : option V;
  ref : bool
}.

Record Cache : Type := mkCache {
  mem_max : Z;
  mem_cold : Z;
  meta : list Element;
  metaKeys : gmap string (option Element);
  hand_pos_hot : option Element;
  hand_pos_cold : option Element;
  hand_pos_test : option Element;
  hand_idx_hot : Z;
  hand_idx_cold : Z;
  hand_idx_test : Z;
  count_hot : Z;
  count_cold : Z;
  count_test : Z;
  heap : nat → metaEntry;
  next_elem : nat;
  next_entry : nat
}.

(** Field updates. *)
Definition set_mem_cold (x : Z) (c : Cache) : Cache :=
  {| mem_max := mem_max c; mem_cold := x; meta := meta c; metaKeys := metaKeys c;
     hand_pos_hot := hand_pos_hot c; hand_pos_cold := hand_pos_cold c;
     hand_pos_test := hand_pos_test c; hand_idx_hot := hand_idx_hot c;
     hand_idx_cold := hand_idx_cold c; hand_idx_test := hand_idx_test c;
     count_hot := count_hot c; count_cold := count_cold c; count_test := count_test c;
     heap := heap c; next_elem := next_elem c; next_entry := next_entry c |}.
Definition set_meta (x : list Element) (c : Cache) : Cache :=
  {| mem_max := mem_max c; mem_cold := mem_cold c; meta := x; metaKeys := metaKeys c;
     hand_pos_hot := hand_pos_hot c; hand_pos_cold := hand_pos_cold c;
     hand_pos_test := hand_pos_test c; hand_idx_hot := hand_idx_hot c;
     hand_idx_cold := hand_idx_cold c; hand_idx_test := hand_idx_test c;
     count_hot := count_hot c; count_cold := count_cold c; count_test := count_test c;
     heap := heap c; next_elem := next_elem c; next_entry := next_entry c |}.
Definition set_metaKeys (x : gmap string (option Element)) (c : Cache) : Cache :=
  {| mem_max := mem_max c; mem_cold := mem_cold c; meta := meta c; metaKeys := x;
     hand_pos_hot := hand_pos_hot c; hand_pos_cold := hand_pos_cold c;
     hand_pos_test := hand_pos_test c; hand_idx_hot := hand_idx_hot c;
     hand_idx_cold := hand_idx_cold c; hand_idx_test := hand_idx_test c;
     count_hot := count_hot c; count_cold := count_cold c; count_test := count_test c;
     heap := heap c; next_elem := next_elem c; next_entry := next_entry c |}.
Definition set_hand_pos_hot (x : option Element) (c : Cache) : Cache :=
  {| mem_max := mem_max c; mem_cold := mem_cold c; meta := meta c;
     metaKeys := metaKeys c; hand_pos_hot := x; hand_pos_cold := hand_pos_cold c;
     hand_pos_test := hand_pos_test c; hand_idx_hot := hand_idx_hot c;
     hand_idx_cold := hand_idx_cold c; hand_idx_test := hand_idx_test c;
     count_hot := count_hot c; count_cold := count_cold c; count_test := count_test c;
     heap := heap c; next_elem := next_elem c; next_entry := next_entry c |}.
Definition set_hand_pos_cold (x : option Element) (c : Cache) : Cache :=
  {| mem_max := mem_max c; mem_cold := mem_cold c; meta := meta c;
     metaKeys := metaKeys c; hand_pos_hot := hand_pos_hot c; hand_pos_cold := x;
     hand_pos_test := hand_pos_test c; hand_idx_hot := hand_idx_hot c;
     hand_idx_cold := hand_idx_cold c; hand_idx_test := hand_idx_test c;
     count_hot := count_hot c; count_cold := count_cold c; count_test := count_test c;
     heap := heap c; next_elem := next_elem c; next_entry := next_entry c |}.
Definition set_hand_pos_test (x : option Element) (c : Cache) : Cache :=
  {| mem_max := mem_max c; mem_cold := mem_cold c; meta := meta c;
     metaKeys := metaKeys c; hand_pos_hot := hand_pos_hot c;
     hand_pos_cold := hand_pos_cold c; hand_pos_test := x;
     hand_idx_hot := hand_idx_hot c; hand_idx_cold := hand_idx_cold c;
     hand_idx_test := hand_idx_test c; count_hot := count_hot c;
     count_cold := count_cold c; count_test := count_test c; heap := heap c;
     next_elem := next_elem c; next_entry := next_entry c |}.
Definition set_hand_idx_hot (x : Z) (c : Cache) : Cache :=
  {| mem_max := mem_max c; mem_cold := mem_cold c; meta := meta c;
     metaKeys := metaKeys c; hand_pos_hot := hand_pos_hot c;
     hand_pos_cold := hand_pos_cold c; hand_pos_test := hand_pos_test c;
     hand_idx_hot := x; hand_idx_cold := hand_idx_cold c;
     hand_idx_test := hand_idx_test c; count_hot := count_hot c;
     count_cold := count_cold c; count_test := count_test c; heap := heap c;
     next_elem := next_elem c; next_entry := next_entry c |}.
Definition set_hand_idx_cold (x : Z) (c : Cache) : Cache :=
  {| mem_max := mem_max c; mem_cold := mem_cold c; meta := meta c;
     metaKeys := metaKeys c; hand_pos_hot := hand_pos_hot c;
     hand_pos_cold := hand_pos_cold c; hand_pos_test := hand_pos_test c;
     hand_idx_hot := hand_idx_hot c; hand_idx_cold := x;
     hand_idx_test := hand_idx_test c; count_hot := count_hot c;
     count_cold := count_cold c; count_test := count_test c; heap := heap c;
     next_elem := next_elem c; next_entry := next_entry c |}.
Definition set_hand_idx_test (x : Z) (c : Cache) : Cache :=
  {| mem_max := mem_max c; mem_cold := mem_cold c; meta := meta c;
     metaKeys := metaKeys c; hand_pos_hot := hand_pos_hot c;
     hand_pos_cold := hand_pos_cold c; hand_pos_test := hand_pos_test c;
     hand_idx_hot := hand_idx_hot c; hand_idx_cold := hand_idx_cold c;
     hand_idx_test := x; count_hot := count_hot c; count_cold := count_cold c;
     count_test := count_test c; heap := heap c; next_elem := next_elem c;
     next_entry := next_entry c |}.
Definition set_count_hot (x : Z) (c : Cache) : Cache :=
  {| mem_max := mem_max c; mem_cold := mem_cold c; meta := meta c;
     metaKeys := metaKeys c; hand_pos_hot := hand_pos_hot c;
     hand_pos_cold := hand_pos_cold c; hand_pos_test := hand_pos_test c;
     hand_idx_hot := hand_idx_hot c; hand_idx_cold := hand_idx_cold c;
     hand_idx_test := hand_idx_test c; count_hot := x; count_cold := count_cold c;
     count_test := count_test c; heap := heap c; next_elem := next_elem c;
     next_entry := next_entry c |}.
Definition set_count_cold (x : Z) (c : Cache) : Cache :=
  {| mem_max := mem_max c; mem_cold := mem_cold c; meta := meta c;
     metaKeys := metaKeys c; hand_pos_hot := hand_pos_hot c;
     hand_pos_cold := hand_pos_cold c; hand_pos_test := hand_pos_test c;
     hand_idx_hot := hand_idx_hot c; hand_idx_cold := hand_idx_cold c;
     hand_idx_test := hand_idx_test c; count_hot := count_hot c; count_cold := x;
     count_test := count_test c; heap := heap c; next_elem := next_elem c;
     next_entry := next_entry c |}.
Definition set_count_test (x : Z) (c : Cache) : Cache :=
  {| mem_max := mem_max c; mem_cold := mem_cold c; meta := meta c;
     metaKeys := metaKeys c; hand_pos_hot := hand_pos_hot c;
     hand_pos_cold := hand_pos_cold c; hand_pos_test := hand_pos_test c;
     hand_idx_hot := hand_idx_hot c; hand_idx_cold := hand_idx_cold c;
     hand_idx_test := hand_idx_test c; count_hot := count_hot c;
     count_cold := count_cold c; count_test := x; heap := heap c;
     next_elem := next_elem c; next_entry := next_entry c |}.
Definition set_heap (x : nat → metaEntry) (c : Cache) : Cache :=
  {| mem_max := mem_max c; mem_cold := mem_cold c; meta := meta c;
     metaKeys := metaKeys c; hand_pos_hot := hand_pos_hot c;
     hand_pos_cold := hand_pos_cold c; hand_pos_test := hand_pos_test c;
     hand_idx_hot := hand_idx_hot c; hand_idx_cold := hand_idx_cold c;
     hand_idx_test := hand_idx_test c; count_hot := count_hot c;
     count_cold := count_cold c; count_test := count_test c; heap := x;
     next_elem := next_elem c; next_entry := next_entry c |}.
Definition set_next_elem (x : nat) (c : Cache) : Cache :=
  {| mem_max := mem_max c; mem_cold := mem_cold c; meta := meta c;
     metaKeys := metaKeys c; hand_pos_hot := hand_pos_hot c;
     hand_pos_cold := hand_pos_cold c; hand_pos_test := hand_pos_test c;
     hand_idx_hot := hand_idx_hot c; hand_idx_cold := hand_idx_cold c;
     hand_idx_test := hand_idx_test c; count_hot := count_hot c;
     count_cold := count_cold c; count_test := count_test c; heap := heap c;
     next_elem := x; next_entry := next_entry c |}.
Definition set_next_entry (x : nat) (c : Cache) : Cache :=
  {| mem_max := mem_max c; mem_cold := mem_cold c; meta := meta c;
     metaKeys := metaKeys c; hand_pos_hot := hand_pos_hot c;
     hand_pos_cold := hand_pos_cold c; hand_pos_test := hand_pos_test c;
     hand_idx_hot := hand_idx_hot c; hand_idx_cold := hand_idx_cold c;
     hand_idx_test := hand_idx_test c; count_hot := count_hot c;
     count_cold := count_cold c; count_test := count_test c; heap := heap c;
     next_elem := next_elem c; next_entry := x |}.

Definition set_ptype (t : pageType) (m : metaEntry) : metaEntry :=
  {| ptype := t; key := key m; val := val m; ref := ref m |}.
Definition set_val (v : option V) (m : metaEntry) : metaEntry :=
  {| ptype := ptype m; key := key m; val := v; ref := ref m |}.
Definition set_ref (b : bool) (m : metaEntry) : metaEntry :=
  {| ptype := ptype m; key := key m; val := val m; ref := b |}.

(** [*p = f( *p )] for the entry at address [p]. *)
Definition update_entry (p : nat) (f : metaEntry → metaEntry) (c : Cache) : Cache :=
  set_heap (<[p := f (heap c p)]> (heap c)) c.

(** [&metaEntry{...}]: the new entry is stored at the next free address. *)
Definition alloc_entry (m : metaEntry) (c : Cache) : Cache :=
  set_next_entry (S (next_entry c)) (set_heap (<[next_entry c := m]> (heap c)) c).

(** ** Construction and lookup *)

Definition New (size : Z) : Cache :=
  {| mem_max := size; mem_cold := size; meta := []; metaKeys := ∅;
     hand_pos_hot := None; hand_pos_cold := None; hand_pos_test := None;
     hand_idx_hot := 0; hand_idx_cold := 0; hand_idx_test := 0;
     count_hot := 0; count_cold := 0; count_test := 0;
     heap := λ _, mkMetaEntry ptTest "" None false;
     next_elem := 0; next_entry := 0 |}.

(** [c.metaKeys[key]]: nil when the key is absent. *)
Definition index_lookup (c : Cache) (k : string) : option Element :=
  default None (metaKeys c !! k).

Definition Cache_Get (c : Cache) (k : string) : Cache * option V :=
  match index_lookup c k with
  | None => (c, None)
  | Some v =>
      match val (heap c (Value v)) with
      | None => (c, None)
      | Some x => (update_entry (Value v) (set_ref true) c, Some x)
      end
  end.

(** ** Deletion from the list *)

(** One of the three blocks [if elt == hand { hand = hand.Prev(); ... }]. *)
Definition del_hand (l : list Element) (elt hand : option Element)
  : result (option Element) :=
  if decide (elt = hand) then retreat l hand else Ok hand.

(** One of the three blocks [if idx_hand >= idx { idx_hand--; ... }]. *)
Definition del_idx (idx max_pos hand_idx : Z) : Z :=
  if decide (idx ≤ hand_idx)
  then (if decide (hand_idx - 1 < 0) then max_pos else hand_idx - 1)
  else hand_idx.

Definition meta_del (c : Cache) (k : string) : result Cache :=
  match metaKeys c !! k with
  | None => Panic
  | Some elt =>
      let c := set_metaKeys (delete k (metaKeys c)) c in
      let idx := index_of elt (meta c) in
      hot ← del_hand (meta c) elt (hand_pos_hot c);
      cold ← del_hand (meta c) elt (hand_pos_cold c);
      test ← del_hand (meta c) elt (hand_pos_test c);
      let c := set_hand_pos_test test (set_hand_pos_cold cold (set_hand_pos_hot hot c)) in
      e ← deref elt;
      let c := set_meta (Remove (meta c) e) c in
      let max_pos := Len (meta c) - 1 in
      let c := set_hand_idx_hot (del_idx idx max_pos (hand_idx_hot c)) c in
      let c := set_hand_idx_cold (del_idx idx max_pos (hand_idx_cold c)) c in
      let c := set_hand_idx_test (del_idx idx max_pos (hand_idx_test c)) c in
      Ok c
  end.

(** ** The three hands *)

Definition cold_promote (p : nat) (c : Cache) : Cache :=
  set_count_hot (count_hot c + 1)
    (set_count_cold (count_cold c - 1)
       (update_entry p (λ m, set_ref false (set_ptype ptHot m)) c)).

Definition cold_demote (p : nat) (c : Cache) : Cache :=
  set_count_test (count_test c + 1)
    (set_count_cold (count_cold c - 1)
       (update_entry p (λ m, set_val None (set_ptype ptTest m)) c)).

Definition hot_demote (p : nat) (c : Cache) : Cache :=
  set_count_cold (count_cold c + 1)
    (set_count_hot (count_hot c - 1)
       (update_entry p (set_ptype ptCold) c)).

Definition advance_cold (c : Cache) : result Cache :=
  '(pos, idx) ← advance (meta c) (hand_pos_cold c) (hand_idx_cold c);
  Ok (set_hand_idx_cold idx (set_hand_pos_cold pos c)).

Definition advance_hot (c : Cache) : result Cache :=
  '(pos, idx) ← advance (meta c) (hand_pos_hot c) (hand_idx_hot c);
  Ok (set_hand_idx_hot idx (set_hand_pos_hot pos c)).

Definition advance_test (c : Cache) : result Cache :=
  '(pos, idx) ← advance (meta c) (hand_pos_test c) (hand_idx_test c);
  Ok (set_hand_idx_test idx (set_hand_pos_test pos c)).

(** The removal step of [hand_test], for the entry [m] under the hand. *)
Definition test_remove (m : metaEntry) (c : Cache) : result Cache :=
  h ← deref (hand_pos_test c);
  let '(prev, pidx) :=
    match Prev (meta c) h with
    | Some p => (Some p, hand_idx_test c - 1)
    | None => (Back (meta c), Len (meta c))
    end in
  c ← meta_del c (key m);
  let c := set_hand_idx_test pidx (set_hand_pos_test prev c) in
  let c := set_count_test (count_test c - 1) c in
  Ok (if decide (1 < mem_cold c) then set_mem_cold (mem_cold c - 1) c else c).

Fixpoint hand_cold (fuel : nat) (c : Cache) {struct fuel} : result Cache :=
  match fuel with
  | O => OutOfFuel
  | S n =>
      h ← deref (hand_pos_cold c);
      let m := heap c (Value h) in
      c ← (if decide (ptype m = ptCold) then
             if ref m then Ok (cold_promote (Value h) c)
             else hand_cold_test_loop n (cold_demote (Value h) c)
           else Ok c);
      c ← advance_cold c;
      hand_cold_hot_loop n c
  end

(** [for c.mem_max < c.count_test { c.hand_test() }] *)
with hand_cold_test_loop (fuel : nat) (c : Cache) {struct fuel} : result Cache :=
  if decide (mem_max c < count_test c) then
    match fuel with
    | O => OutOfFuel
    | S n => c ← hand_test n c; hand_cold_test_loop n c
    end
  else Ok c

(** [for c.mem_max-c.mem_cold < c.count_hot { c.hand_hot() }] *)
with hand_cold_hot_loop (fuel : nat) (c : Cache) {struct fuel} : result Cache :=
  if decide (mem_max c - mem_cold c < count_hot c) then
    match fuel with
    | O => OutOfFuel
    | S n => c ← hand_hot n c; hand_cold_hot_loop n c
    end
  else Ok c

with hand_hot (fuel : nat) (c : Cache) {struct fuel} : result Cache :=
  match fuel with
  | O => OutOfFuel
  | S n =>
      c ← (if decide (hand_pos_hot c = hand_pos_test c) then hand_test n c else Ok c);
      h ← deref (hand_pos_hot c);
      let m := heap c (Value h) in
      let c :=
        if decide (ptype m = ptHot) then
          if ref m then update_entry (Value h) (set_ref false) c
          else hot_demote (Value h) c
        else c in
      advance_hot c
  end

with hand_test (fuel : nat) (c : Cache) {struct fuel} : result Cache :=
  match fuel with
  | O => OutOfFuel
  | S n =>
      c ← (if decide (hand_pos_test c = hand_pos_cold c) then hand_cold n c else Ok c);
      h ← deref (hand_pos_test c);
      let m := heap c (Value h) in
      c ← (if decide (ptype m = ptTest) then test_remove m c else Ok c);
      advance_test c
  end.

(** [for c.mem_max <= c.count_hot+c.count_cold { c.hand_cold() }] *)
Fixpoint evict (fuel : nat) (c : Cache) {struct fuel} : result Cache :=
  if decide (mem_max c ≤ count_hot c + count_cold c) then
    match fuel with
    | O => OutOfFuel
    | S n => c ← hand_cold n c; evict n c
    end
  else Ok c.

(** ** Insertion into the list *)

(** The list and the index once the new element is in: [l] is the new
    list and [elt] what [PushFront] or [InsertBefore] returned. *)
Definition linked (c : Cache) (k : string) (elt : option Element)
    (l : list Element) : Cache :=
  set_metaKeys (<[k := elt]> (metaKeys c))
    (set_next_elem (S (next_elem c)) (set_meta l c)).

(** The three statements [hand = hand.Prev()] that follow [InsertBefore]. *)
Definition link_hands_back (hot : Element) (c : Cache) : result Cache :=
  c ← (if decide (hand_idx_hot c ≤ hand_idx_cold c) then
         h ← deref (hand_pos_cold c);
         Ok (set_hand_pos_cold (Prev (meta c) h) c)
       else Ok c);
  c ← (if decide (hand_idx_hot c ≤ hand_idx_test c) then
         h ← deref (hand_pos_test c);
         Ok (set_hand_pos_test (Prev (meta c) h) c)
       else Ok c);
  Ok (set_hand_pos_hot (Prev (meta c) hot) c).

(** The end of [meta_add], common to both branches: the hands step forward. *)
Definition link_hands_forward (c : Cache) : result Cache :=
  c ← (if decide (hand_idx_hot c < hand_idx_cold c) then advance_cold c else Ok c);
  c ← (if decide (hand_idx_hot c ≤ hand_idx_test c) then advance_test c else Ok c);
  advance_hot c.

(** The body of [meta_add] after the call of [evict]; [mentry] is the
    address of the entry. *)
Definition meta_add_link (c : Cache) (mentry : nat) : result Cache :=
  let k := key (heap c mentry) in
  c ← match hand_pos_hot c with
      | None =>
          let elt := mkElement (next_elem c) mentry in
          let c := linked c k (Some elt) (elt :: meta c) in
          Ok (set_hand_pos_test (Some elt)
                (set_hand_pos_cold (Some elt) (set_hand_pos_hot (Some elt) c)))
      | Some hot =>
          let '(elt, l) := InsertBefore (meta c) (next_elem c) mentry hot in
          link_hands_back hot (linked c k elt l)
      end;
  link_hands_forward c.

Definition meta_add (fuel : nat) (c : Cache) (mentry : nat) : result Cache :=
  c ← evict fuel c;
  meta_add_link c mentry.

(** ** Set *)

(** The first statements of the promotion branch of [Set], up to
    [c.count_test--]; [p] is the address of the entry found by the index. *)
Definition promote_entry (p : nat) (value : option V) (c : Cache) : Cache :=
  let c := if decide (mem_cold c < mem_max c) then set_mem_cold (mem_cold c + 1) c else c in
  let c := update_entry p (λ m, set_ptype ptHot (set_val value (set_ref false m))) c in
  set_count_test (count_test c - 1) c.

Definition Cache_Set (fuel : nat) (c : Cache) (k : string) (value : option V)
  : result Cache :=
  match index_lookup c k with
  | Some v =>
      let p := Value v in
      match val (heap c p) with
      | None =>
          let c := promote_entry p value c in
          c ← meta_del c (key (heap c p));
          c ← meta_add fuel c p;
          Ok (set_count_hot (count_hot c + 1) c)
      | Some _ =>
          Ok (update_entry p (λ m, set_ref true (set_val value m)) c)
      end
  | None =>
      let p := next_entry c in
      let c := alloc_entry (mkMetaEntry ptCold k value false) c in
      c ← meta_add fuel c p;
      Ok (set_count_cold (count_cold c + 1) c)
  end.

End ClockPro.

(** ** The one-line dump *)

(** The letter that [Dump] writes for an entry. *)
Definition type_letter {V : Type} (m : @metaEntry V) : ascii :=
  match ptype m with
  | ptHot => if ref m then "H"%char else "h"%char
  | ptCold => if ref m then "C"%char else "c"%char
  | ptTest => "n"%char
  end.

(** The bytes that [Dump] appends for one element: a digit for each hand
    that is on it, then the letter of its entry. *)
Definition dump_element {V : Type} (c : @Cache V) (e : Element) : list ascii :=
  (if decide (hand_pos_hot c = Some e) then ["2"%char] else []) ++
  (if decide (hand_pos_test c = Some e) then ["0"%char] else []) ++
  (if decide (hand_pos_cold c = Some e) then ["1"%char] else []) ++
  [type_letter (heap c (Value e))].

(** [Dump], with [DEBUG] as a parameter: the line it prints, if any. *)
Definition Dump {V : Type} (DEBUG : bool) (c : @Cache V) : option (list ascii) :=
  if negb DEBUG then None
  else Some (concat (map (dump_element c) (meta c))).

(** The number of times the byte [x] occurs in [b]. *)
Definition occurrences (x : ascii) (b : list ascii) : Z :=
  Z.of_nat (length (filter (λ y, y = x) b)).

(** ** The self-check of the indices *)

(** The loop of [VerifyIdxs]: it walks the list with a counter and notes,
    for each of the three hands, the position of the element it is on. *)
Fixpoint verify_scan (hot cold test : option Element) (l : list Element)
    (idx : Z) (found : Z * Z * Z) : Z * Z * Z :=
  match l with
  | [] => found
  | e :: r =>
      let '(hotidx, coldidx, testidx) := found in
      verify_scan hot cold test r (idx + 1)
        (if decide (Some e = hot) then idx else hotidx,
         if decide (Some e = cold) then idx else coldidx,
         if decide (Some e = test) then idx else testidx)
  end.

(** [VerifyIdxs], with the package variable [DEBUG] as a parameter ([false]
    in the source): it fails with "index mismatch" when one of the indices
    is not the position found. *)
Definition VerifyIdxs {V : Type} (DEBUG : bool) (c : @Cache V) : result unit :=
  if negb DEBUG then Ok tt
  else if decide (Len (meta c) = 0) then Ok tt
  else
    let '(hotidx, coldidx, testidx) :=
      verify_scan (hand_pos_hot c) (hand_pos_cold c) (hand_pos_test c)
        (meta c) 0 (-1, -1, -1) in
    if decide (hotidx ≠ hand_idx_hot c ∨ coldidx ≠ hand_idx_cold c ∨
               testidx ≠ hand_idx_test c)
    then Panic else Ok tt.

(** ** Auxiliary notions *)

(** The successor of [e] around the clock, as the hands compute it. *)
Definition ring_next (l : list Element) (e : Element) : option Element :=
  match Next l e with
  | Some n => Some n
  | None => Front l
  end.

(** A hand after an operation: where it was, nil, or on an element of [l]. *)
Definition hand_moved (l : list Element) (old new : option Element) : Prop :=
  new = old ∨ new = None ∨ ∃ e, new = Some e ∧ e ∈ l.

(** Two caches that differ at most in the positions and indices of the hands. *)
Definition same_but_hands {V : Type} (c c' : @Cache V) : Prop :=
  mem_max c' = mem_max c ∧ mem_cold c' = mem_cold c ∧
  meta c' = meta c ∧ metaKeys c' = metaKeys c ∧
  count_hot c' = count_hot c ∧ count_cold c' = count_cold c ∧
  count_test c' = count_test c ∧
  heap c' = heap c ∧ next_elem c' = next_elem c ∧ next_entry c' = next_entry c.

(** The predecessor of [e] around the clock, as [meta_del] and [hand_test]
    compute it. *)
Definition ring_prev (l : list Element) (e : Element) : option Element :=
  match Prev l e with
  | Some p => Some p
  | None => Back l
  end.

(** The position that [VerifyIdxs] finds for a hand: [-1] for a hand that
    is on no element of the list. *)
Definition position (l : list Element) (pos : option Element) : Z :=
  match pos with
  | Some e => if decide (e ∈ l) then index_of (Some e) l else -1
  | None => -1
  end.

(** What the loop of [VerifyIdxs] has found for one hand after walking
    [l] from the counter [idx], [d] being what it had noted before. *)
Definition found_at (pos : option Element) (l : list Element) (idx d : Z) : Z :=
  match pos with
  | Some e => if decide (e ∈ l) then idx + index_of (Some e) l else d
  | None => d
  end.

(** One for a hand that is on an element of [l], zero otherwise. *)
Definition on_list (l : list Element) (pos : option Element) : Z :=
  match pos with
  | Some e => if decide (e ∈ l) then 1 else 0
  | None => 0
  end.

(** ** Invariants *)

(** A property of caches that every elementary step of the three hands
    keeps, each step taken in the situation in which the hands perform it. *)
Definition step_invariant {V : Type} (Φ : @Cache V → Prop) : Prop :=
  (∀ c h, Φ c → hand_pos_cold c = Some h →
     ptype (heap c (Value h)) = ptCold → ref (heap c (Value h)) = true →
     Φ (cold_promote (Value h) c)) ∧
  (∀ c h, Φ c → hand_pos_cold c = Some h →
     ptype (heap c (Value h)) = ptCold → ref (heap c (Value h)) = false →
     Φ (cold_demote (Value h) c)) ∧
  (∀ c c', Φ c → advance_cold c = Ok c' → Φ c') ∧
  (∀ c h, Φ c → hand_pos_hot c = Some h →
     ptype (heap c (Value h)) = ptHot → ref (heap c (Value h)) = true →
     Φ (update_entry (Value h) (set_ref false) c)) ∧
  (∀ c h, Φ c → hand_pos_hot c = Some h →
     ptype (heap c (Value h)) = ptHot → ref (heap c (Value h)) = false →
     Φ (hot_demote (Value h) c)) ∧
  (∀ c c', Φ c → advance_hot c = Ok c' → Φ c') ∧
  (∀ c h c', Φ c → hand_pos_test c = Some h →
     ptype (heap c (Value h)) = ptTest →
     test_remove (heap c (Value h)) c = Ok c' → Φ c') ∧
  (∀ c c', Φ c → advance_test c = Ok c' → Φ c').

(** Sizing: the capacity is [M] and the cold target lies in [1, M]. *)
Definition sizing {V : Type} (M : Z) (c : @Cache V) : Prop :=
  mem_max c = M ∧ 1 ≤ mem_cold c ≤ M.

(** The key index and the list agree: the list has no element twice, the
    index maps exactly the key of each element of the list to that
    element, and the identities and addresses in use are below the
    allocation counters. *)
Record index_ok {V : Type} (c : @Cache V) : Prop := mk_index_ok {
  meta_NoDup : NoDup (meta c);
  index_sound : ∀ k oe, metaKeys c !! k = Some oe →
      ∃ e, oe = Some e ∧ e ∈ meta c ∧ key (heap c (Value e)) = k;
  index_complete : ∀ e, e ∈ meta c →
      metaKeys c !! key (heap c (Value e)) = Some (Some e);
  elems_fresh : ∀ e, e ∈ meta c → (eid e < next_elem c)%nat;
  entries_fresh : ∀ e, e ∈ meta c → (Value e < next_entry c)%nat
}.

(** The list is [d] elements longer than the three counters say. *)
Definition length_offset {V : Type} (d : Z) (c : @Cache V) : Prop :=
  Len (meta c) = count_hot c + count_cold c + count_test c + d.

(** What [evict] keeps while the entry at [p], with key [k], waits to be
    linked: the index stays sound, the offset of the length stays [d], and
    [k] stays out of the index. *)
Definition pending {V : Type} (d : Z) (k : string) (p : nat) (c : @Cache V) : Prop :=
  index_ok c ∧ length_offset d c ∧
  metaKeys c !! k = None ∧ key (heap c p) = k ∧ (p < next_entry c)%nat.

(** The structural invariant of the public interface. *)
Definition ring_ok {V : Type} (c : @Cache V) : Prop :=
  index_ok c ∧ length_offset 0 c.

(** An entry of type Test holds no value. *)
Definition test_absent {V : Type} (c : @Cache V) : Prop :=
  ∀ q, ptype (heap c q) = ptTest → val (heap c q) = None.

(** A hand that points at an element of the list and whose index is the
    position of that element. *)
Definition hand_at (l : list Element) (pos : option Element) (idx : Z) : Prop :=
  ∃ e, pos = Some e ∧ e ∈ l ∧ index_of (Some e) l = idx.

(** The three hands point into the list, with the right indices. *)
Definition hands_indexed {V : Type} (c : @Cache V) : Prop :=
  NoDup (meta c) ∧
  hand_at (meta c) (hand_pos_hot c) (hand_idx_hot c) ∧
  hand_at (meta c) (hand_pos_cold c) (hand_idx_cold c) ∧
  hand_at (meta c) (hand_pos_test c) (hand_idx_test c).

(** The number of elements of [l] whose entry, in the heap [h], has the
    type [t]. *)
Definition population {V : Type} (h : nat → @metaEntry V) (l : list Element)
    (t : pageType) : Z :=
  Z.of_nat (length (filter (λ e, ptype (h (Value e)) = t) l)).

(** The counter that the source keeps for the entries of type [t]. *)
Definition count_of {V : Type} (t : pageType) (c : @Cache V) : Z :=
  match t with
  | ptHot => count_hot c
  | ptCold => count_cold c
  | ptTest => count_test c
  end.

(** Each counter is the number of elements of the list of its type. *)
Definition census {V : Type} (c : @Cache V) : Prop :=
  ∀ t, count_of t c = population (heap c) (meta c) t.

(** An entry is of type Test exactly when it holds no value. *)
Definition typed_values {V : Type} (c : @Cache V) : Prop :=
  ∀ q, ptype (heap c q) = ptTest ↔ val (heap c q) = None.

(** A hand that is nil or on an element of the list. *)
Definition hand_live (l : list Element) (pos : option Element) : Prop :=
  ∀ e, pos = Some e → e ∈ l.

Definition hands_live {V : Type} (c : @Cache V) : Prop :=
  hand_live (meta c) (hand_pos_hot c) ∧ hand_live (meta c) (hand_pos_cold c) ∧
  hand_live (meta c) (hand_pos_test c).

(** A hand in the middle of an eviction: nil, on an element of the list,
    or left behind on the last element that [meta_del] removed, whose entry
    is of type Test, the list being empty since. *)
Definition hand_ok {V : Type} (c : @Cache V) (pos : option Element) : Prop :=
  ∀ e, pos = Some e →
    e ∈ meta c ∨ (meta c = [] ∧ ptype (heap c (Value e)) = ptTest).

Definition hands_ok {V : Type} (c : @Cache V) : Prop :=
  hand_ok c (hand_pos_hot c) ∧ hand_ok c (hand_pos_cold c) ∧
  hand_ok c (hand_pos_test c).

(** What [evict] keeps, besides [pending], while the entry [m0] at the
    address [p] waits to be linked: the counters are the populations, the
    hands are in order, and the waiting entry is not touched. *)
Definition settled {V : Type} (p : nat) (m0 : @metaEntry V) (c : @Cache V) : Prop :=
  census c ∧ hands_ok c ∧ heap c p = m0.

Definition evicting {V : Type} (k : string) (p : nat) (m0 : @metaEntry V)
    (c : @Cache V) : Prop :=
  pending 0 k p c ∧ settled p m0 c.

(** The element [e0] has left the list and its identity is not free. *)
Definition detached {V : Type} (e0 : Element) (c : @Cache V) : Prop :=
  (eid e0 < next_elem c)%nat ∧ e0 ∉ meta c.

(** The invariant of the public interface when every stored value is a
    proper value. *)
Definition consistent {V : Type} (c : @Cache V) : Prop :=
  ring_ok c ∧ census c ∧ hands_live c ∧ typed_values c ∧
  (meta c = [] ∨ (1 ≤ count_hot c + count_cold c)).

(** What the hands may do to a cache [c]: in [c'] the list has elements
    of the list of [c] only, the index has no key that the index of [c] had
    not, every entry has the key it had, a value is kept or dropped but
    never replaced, and the capacity and the allocation counters are the
    same. *)
Definition fades {V : Type} (c c' : @Cache V) : Prop :=
  (∀ e, e ∈ meta c' → e ∈ meta c) ∧
  (∀ k, metaKeys c !! k = None → metaKeys c' !! k = None) ∧
  (∀ q, key (heap c' q) = key (heap c q) ∧
        (val (heap c' q) = val (heap c q) ∨ val (heap c' q) = None)) ∧
  mem_max c' = mem_max c ∧ next_elem c' = next_elem c ∧
  next_entry c' = next_entry c.

(** The entry of every element of the list holds no value or the value
    that [g] gives for its key. *)
Definition values_from {V : Type} (g : string → option V) (c : @Cache V) : Prop :=
  ∀ e, e ∈ meta c →
    val (heap c (Value e)) = None ∨
    val (heap c (Value e)) = g (key (heap c (Value e))).

(** ** Histories of public calls *)

Section Histories.
Context {V : Type}.

(** The caches that a client can hold: built by [New size] and then
    changed by calls of [Get] and by calls of [Set] that return.  The
    predicate [allowed] restricts the values passed to [Set]. *)
Inductive reachable_by (allowed : option V → Prop) (size : Z) : @Cache V → Prop :=
  | reach_New : reachable_by allowed size (New size)
  | reach_Get c k :
      reachable_by allowed size c →
      reachable_by allowed size (Cache_Get c k).1
  | reach_Set c fuel k v c' :
      reachable_by allowed size c →
      allowed v →
      Cache_Set fuel c k v = Ok c' →
      reachable_by allowed size c'.

Definition reachable : Z → @Cache V → Prop := reachable_by (λ _, True).

(** Histories in which every stored value is a proper (non-nil) value. *)
Definition reachable_nonnil : Z → @Cache V → Prop := reachable_by is_Some.

End Histories.

(** ** Running a list of public calls *)

Inductive op {V : Type} : Type :=
  | OpGet (k : string)
  | OpSet (k : string) (v : option V).

Fixpoint run {V : Type} (fuel : nat) (c : @Cache V) (ops : list (@op V))
  : result (@Cache V) :=
  match ops with
  | [] => Ok c
  | OpGet k :: r => run fuel (Cache_Get c k).1 r
  | OpSet k v :: r => c' ← Cache_Set fuel c k v; run fuel c' r
  end.

Definition op_allowed {V : Type} (allowed : option V → Prop) (o : @op V) : Prop :=
  match o with
  | OpGet _ => True
  | OpSet _ v => allowed v
  end.

(** The cache of a run that is known to return. *)
Definition from_result {V : Type} (r : result (@Cache V)) : @Cache V :=
  match r with
  | Ok c => c
  | _ => New 0
  end.

(** The value that the calls [ops] stored last for each key, [g] giving
    the values stored before. *)
Fixpoint last_set {V : Type} (g : string → option V) (ops : list (@op V))
  : string → option V :=
  match ops with
  | [] => g
  | OpGet _ :: r => last_set g r
  | OpSet k v :: r => last_set (<[k := v]> g) r
  end.

(** The calls that store the pairs [kvs], in order. *)
Definition fill {V : Type} (kvs : list (string * option V)) : list (@op V) :=
  map (λ kv, OpSet kv.1 kv.2) kvs.

(** ** Example caches, with integers as values *)

(** Capacity two; [b] has been evicted to the test state by the third
    insertion. *)
Definition cache_abc : @Cache Z :=
  from_result (run 20 (New 2)
    [OpSet "a" (Some 1); OpSet "b" (Some 2); OpSet "c" (Some 3)]).

(** Capacity two; the key [a] was stored with the nil value. *)
Definition cache_nil : @Cache Z :=
  from_result (run 20 (New 2) [OpSet "a" None]).

(** Capacity one; the only entry, [a], has been read once. *)
Definition cache_one : @Cache Z :=
  from_result (run 20 (New 1) [OpSet "a" (Some 1); OpGet "a"]).

(** [cache_one] inside [Set "b" 2], when the new entry is allocated and
    [meta_add] is about to call [evict]. *)
Definition cache_one_b : @Cache Z :=
  alloc_entry (mkMetaEntry ptCold "b" (Some 2) false) cache_one.

(** What the first [hand_cold] of that [evict] makes of it: [a] is hot and
    unreferenced, and all three hands are on it. *)
Definition cache_stuck : @Cache Z :=
  cold_promote 0 cache_one_b.

(** Capacity three, one entry [a]; all three hands are on it. *)
Definition cache_a : @Cache Z :=
  from_result (run 20 (New 3) [OpSet "a" (Some 1)]).

(** [cache_a] inside [Set "b" 2], when [meta_add] is called. *)
Definition cache_a_b : @Cache Z :=
  alloc_entry (mkMetaEntry ptCold "b" (Some 2) false) cache_a.

(** Capacity two, full: [a] and [b] are stored and nothing was evicted. *)
Definition cache_ab : @Cache Z :=
  from_result (run 20 (New 2) [OpSet "a" (Some 1); OpSet "b" (Some 2)]).

(** [cache_ab] after [evict] has made room: the entry under the cold hand,
    [b], is in the test state. *)
Definition cache_ab_evicted : @Cache Z :=
  from_result (evict 20 cache_ab).

(** [cache_abc] after [b], which was in the test state, was stored again. *)
Definition cache_abcb : @Cache Z :=
  from_result (run 20 cache_abc [OpSet "b" (Some 5)]).

(** * The [container/ring] version

    The same cache on a ring instead of a list ([clockpro.go] before the
    move to [container/list]).  The ring elements live in a store of their
    own, indexed by address; the fields [next] and [prev] of an element are
    nil until its first method call initialises it, as in
    [container/ring]. *)

Module Ring.

Record RingElem : Type := mkRingElem {
  rnext : option nat;
  rprev : option nat;
  rValue : nat
}.

Definition set_rnext (x : option nat) (e : RingElem) : RingElem :=
  {| rnext := x; rprev := rprev e; rValue := rValue e |}.
Definition set_rprev (x : option nat) (e : RingElem) : RingElem :=
  {| rnext := rnext e; rprev := x; rValue := rValue e |}.

(** The store of ring elements is a function from addresses, of type
    [nat → RingElem]. *)

(** [r.init()] *)
Definition init (s : nat → RingElem) (r : nat) : nat → RingElem :=
  <[r := set_rprev (Some r) (set_rnext (Some r) (s r))]> s.

(** [r.Next()] *)
Definition Next (s : nat → RingElem) (r : nat)
  : (nat → RingElem) * option nat :=
  match rnext (s r) with
  | None => (init s r, Some r)
  | Some n => (s, Some n)
  end.

(** [r.Prev()] *)
Definition Prev (s : nat → RingElem) (r : nat)
  : (nat → RingElem) * option nat :=
  match rnext (s r) with
  | None => (init s r, Some r)
  | Some _ => (s, rprev (s r))
  end.

(** The loops [r = r.prev] and [r = r.next] of [Move]. *)
Fixpoint walk (s : nat → RingElem) (field : RingElem → option nat) (n : nat)
    (r : option nat) : result (option nat) :=
  match n with
  | O => Ok r
  | S m => x ← deref r; walk s field m (field (s x))
  end.

(** [r.Move(n)] *)
Definition Move (s : nat → RingElem) (r : nat) (n : Z)
  : result ((nat → RingElem) * option nat) :=
  match rnext (s r) with
  | None => Ok (init s r, Some r)
  | Some _ =>
      if decide (n < 0) then
        p ← walk s rprev (Z.to_nat (- n)) (Some r); Ok (s, p)
      else if decide (0 < n) then
        p ← walk s rnext (Z.to_nat n) (Some r); Ok (s, p)
      else Ok (s, Some r)
  end.

(** [r.Link(q)] *)
Definition Link (s : nat → RingElem) (r : nat) (q : option nat)
  : result ((nat → RingElem) * option nat) :=
  let '(s, n) := Next s r in
  match q with
  | Some q =>
      let '(s, p) := Prev s q in
      let s := <[r := set_rnext (Some q) (s r)]> s in
      let s := <[q := set_rprev (Some r) (s q)]> s in
      n' ← deref n;
      let s := <[n' := set_rprev p (s n')]> s in
      p' ← deref p;
      let s := <[p' := set_rnext n (s p')]> s in
      Ok (s, n)
  | None => Ok (s, n)
  end.

(** [r.Unlink(n)] *)
Definition Unlink (s : nat → RingElem) (r : nat) (n : Z)
  : result ((nat → RingElem) * option nat) :=
  if decide (n ≤ 0) then Ok (s, None)
  else '(s, m) ← Move s r (n + 1); Link s r m.

Section RingCache.
Context {V : Type}.

Record Cache : Type := mkCache {
  mem_max : Z;
  mem_cold : Z;
  meta : option nat;
  metaKeys : gmap string (option nat);
  hand_pos_hot : option nat;
  hand_pos_cold : option nat;
  hand_pos_test : option nat;
  count_hot : Z;
  count_cold : Z;
  count_test : Z;
  rings : nat → RingElem;
  heap : nat → @metaEntry V;
  next_ring : nat;
  next_entry : nat
}.

(** Field updates. *)
Definition set_mem_cold (x : Z) (c : Cache) : Cache :=
  {| mem_max := mem_max c; mem_cold := x; meta := meta c; metaKeys := metaKeys c;
     hand_pos_hot := hand_pos_hot c; hand_pos_cold := hand_pos_cold c;
     hand_pos_test := hand_pos_test c; count_hot := count_hot c;
     count_cold := count_cold c; count_test := count_test c; rings := rings c;
     heap := heap c; next_ring := next_ring c; next_entry := next_entry c |}.
Definition set_meta (x : option nat) (c : Cache) : Cache :=
  {| mem_max := mem_max c; mem_cold := mem_cold c; meta := x; metaKeys := metaKeys c;
     hand_pos_hot := hand_pos_hot c; hand_pos_cold := hand_pos_cold c;
     hand_pos_test := hand_pos_test c; count_hot := count_hot c;
     count_cold := count_cold c; count_test := count_test c; rings := rings c;
     heap := heap c; next_ring := next_ring c; next_entry := next_entry c |}.
Definition set_metaKeys (x : gmap string (option nat)) (c : Cache) : Cache :=
  {| mem_max := mem_max c; mem_cold := mem_cold c; meta := meta c; metaKeys := x;
     hand_pos_hot := hand_pos_hot c; hand_pos_cold := hand_pos_cold c;
     hand_pos_test := hand_pos_test c; count_hot := count_hot c;
     count_cold := count_cold c; count_test := count_test c; rings := rings c;
     heap := heap c; next_ring := next_ring c; next_entry := next_entry c |}.
Definition set_hand_pos_hot (x : option nat) (c : Cache) : Cache :=
  {| mem_max := mem_max c; mem_cold := mem_cold c; meta := meta c;
     metaKeys := metaKeys c; hand_pos_hot := x; hand_pos_cold := hand_pos_cold c;
     hand_pos_test := hand_pos_test c; count_hot := count_hot c;
     count_cold := count_cold c; count_test := count_test c; rings := rings c;
     heap := heap c; next_ring := next_ring c; next_entry := next_entry c |}.
Definition set_hand_pos_cold (x : option nat) (c : Cache) : Cache :=
  {| mem_max := mem_max c; mem_cold := mem_cold c; meta := meta c;
     metaKeys := metaKeys c; hand_pos_hot := hand_pos_hot c; hand_pos_cold := x;
     hand_pos_test := hand_pos_test c; count_hot := count_hot c;
     count_cold := count_cold c; count_test := count_test c; rings := rings c;
     heap := heap c; next_ring := next_ring c; next_entry := next_entry c |}.
Definition set_hand_pos_test (x : option nat) (c : Cache) : Cache :=
  {| mem_max := mem_max c; mem_cold := mem_cold c; meta := meta c;
     metaKeys := metaKeys c; hand_pos_hot := hand_pos_hot c;
     hand_pos_cold := hand_pos_cold c; hand_pos_test := x;
     count_hot := count_hot c; count_cold := count_cold c;
     count_test := count_test c; rings := rings c; heap := heap c;
     next_ring := next_ring c; next_entry := next_entry c |}.
Definition set_count_hot (x : Z) (c : Cache) : Cache :=
  {| mem_max := mem_max c; mem_cold := mem_cold c; meta := meta c;
     metaKeys := metaKeys c; hand_pos_hot := hand_pos_hot c;
     hand_pos_cold := hand_pos_cold c; hand_pos_test := hand_pos_test c;
     count_hot := x; count_cold := count_cold c; count_test := count_test c;
     rings := rings c; heap := heap c; next_ring := next_ring c;
     next_entry := next_entry c |}.
Definition set_count_cold (x : Z) (c : Cache) : Cache :=
  {| mem_max := mem_max c; mem_cold := mem_cold c; meta := meta c;
     metaKeys := metaKeys c; hand_pos_hot := hand_pos_hot c;
     hand_pos_cold := hand_pos_cold c; hand_pos_test := hand_pos_test c;
     count_hot := count_hot c; count_cold := x; count_test := count_test c;
     rings := rings c; heap := heap c; next_ring := next_ring c;
     next_entry := next_entry c |}.
Definition set_count_test (x : Z) (c : Cache) : Cache :=
  {| mem_max := mem_max c; mem_cold := mem_cold c; meta := meta c;
     metaKeys := metaKeys c; hand_pos_hot := hand_pos_hot c;
     hand_pos_cold := hand_pos_cold c; hand_pos_test := hand_pos_test c;
     count_hot := count_hot c; count_cold := count_cold c; count_test := x;
     rings := rings c; heap := heap c; next_ring := next_ring c;
     next_entry := next_entry c |}.
Definition set_rings (x : nat → RingElem) (c : Cache) : Cache :=
  {| mem_max := mem_max c; mem_cold := mem_cold c; meta := meta c;
     metaKeys := metaKeys c; hand_pos_hot := hand_pos_hot c;
     hand_pos_cold := hand_pos_cold c; hand_pos_test := hand_pos_test c;
     count_hot := count_hot c; count_cold := count_cold c;
     count_test := count_test c; rings := x; heap := heap c;
     next_ring := next_ring c; next_entry := next_entry c |}.
Definition set_heap (x : nat → @metaEntry V) (c : Cache) : Cache :=
  {| mem_max := mem_max c; mem_cold := mem_cold c; meta := meta c;
     metaKeys := metaKeys c; hand_pos_hot := hand_pos_hot c;
     hand_pos_cold := hand_pos_cold c; hand_pos_test := hand_pos_test c;
     count_hot := count_hot c; count_cold := count_cold c;
     count_test := count_test c; rings := rings c; heap := x;
     next_ring := next_ring c; next_entry := next_entry c |}.
Definition set_next_ring (x : nat) (c : Cache) : Cache :=
  {| mem_max := mem_max c; mem_cold := mem_cold c; meta := meta c;
     metaKeys := metaKeys c; hand_pos_hot := hand_pos_hot c;
     hand_pos_cold := hand_pos_cold c; hand_pos_test := hand_pos_test c;
     count_hot := count_hot c; count_cold := count_cold c;
     count_test := count_test c; rings := rings c; heap := heap c;
     next_ring := x; next_entry := next_entry c |}.
Definition set_next_entry (x : nat) (c : Cache) : Cache :=
  {| mem_max := mem_max c; mem_cold := mem_cold c; meta := meta c;
     metaKeys := metaKeys c; hand_pos_hot := hand_pos_hot c;
     hand_pos_cold := hand_pos_cold c; hand_pos_test := hand_pos_test c;
     count_hot := count_hot c; count_cold := count_cold c;
     count_test := count_test c; rings := rings c; heap := heap c;
     next_ring := next_ring c; next_entry := x |}.

Definition update_entry (p : nat) (f : @metaEntry V → @metaEntry V) (c : Cache)
  : Cache :=
  set_heap (<[p := f (heap c p)]> (heap c)) c.

Definition alloc_entry (m : @metaEntry V) (c : Cache) : Cache :=
  set_next_entry (S (next_entry c)) (set_heap (<[next_entry c := m]> (heap c)) c).

(** [&ring.Ring{Value: mentry}]: a new element, not initialised. *)
Definition alloc_ring (mentry : nat) (c : Cache) : Cache :=
  set_next_ring (S (next_ring c))
    (set_rings (<[next_ring c := mkRingElem None None mentry]> (rings c)) c).

Definition New (size : Z) : Cache :=
  {| mem_max := size; mem_cold := size; meta := None; metaKeys := ∅;
     hand_pos_hot := None; hand_pos_cold := None; hand_pos_test := None;
     count_hot := 0; count_cold := 0; count_test := 0;
     rings := λ _, mkRingElem None None 0;
     heap := λ _, mkMetaEntry ptTest "" None false;
     next_ring := 0; next_entry := 0 |}.

Definition index_lookup (c : Cache) (k : string) : option nat :=
  default None (metaKeys c !! k).

Definition Cache_Get (c : Cache) (k : string) : Cache * option V :=
  match index_lookup c k with
  | None => (c, None)
  | Some v =>
      let p := rValue (rings c v) in
      match val (heap c p) with
      | None => (c, None)
      | Some x => (update_entry p (set_ref true) c, Some x)
      end
  end.

(** [hand.Prev()] and [hand.Next()] on a hand of the cache. *)
Definition hand_Prev (c : Cache) (hand : option nat) : result (Cache * option nat) :=
  h ← deref hand;
  let '(s, p) := Prev (rings c) h in Ok (set_rings s c, p).

Definition hand_Next (c : Cache) (hand : option nat) : result (Cache * option nat) :=
  h ← deref hand;
  let '(s, n) := Next (rings c) h in Ok (set_rings s c, n).

Definition meta_del (c : Cache) (k : string) : result Cache :=
  match metaKeys c !! k with
  | None => Panic
  | Some elt =>
      let c := set_metaKeys (delete k (metaKeys c)) c in
      c ← (if decide (elt = hand_pos_hot c) then
             '(c, p) ← hand_Prev c (hand_pos_hot c); Ok (set_hand_pos_hot p c)
           else Ok c);
      c ← (if decide (elt = hand_pos_cold c) then
             '(c, p) ← hand_Prev c (hand_pos_cold c); Ok (set_hand_pos_cold p c)
           else Ok c);
      c ← (if decide (elt = hand_pos_test c) then
             '(c, p) ← hand_Prev c (hand_pos_test c); Ok (set_hand_pos_test p c)
           else Ok c);
      '(c, p) ← hand_Prev c elt;
      p ← deref p;
      '(s, _) ← Unlink (rings c) p 1;
      Ok (set_rings s c)
  end.

Definition cold_promote (p : nat) (c : Cache) : Cache :=
  set_count_hot (count_hot c + 1)
    (set_count_cold (count_cold c - 1)
       (update_entry p (λ m, set_ref false (set_ptype ptHot m)) c)).

Definition cold_demote (p : nat) (c : Cache) : Cache :=
  set_count_test (count_test c + 1)
    (set_count_cold (count_cold c - 1)
       (update_entry p (λ m, set_val None (set_ptype ptTest m)) c)).

Definition hot_demote (p : nat) (c : Cache) : Cache :=
  set_count_cold (count_cold c + 1)
    (set_count_hot (count_hot c - 1)
       (update_entry p (set_ptype ptCold) c)).

(** The removal step of [hand_test], for the entry [m] under the hand. *)
Definition test_remove (m : @metaEntry V) (c : Cache) : result Cache :=
  '(c, prev) ← hand_Prev c (hand_pos_test c);
  c ← meta_del c (key m);
  let c := set_hand_pos_test prev c in
  let c := set_count_test (count_test c - 1) c in
  Ok (if decide (1 < mem_cold c) then set_mem_cold (mem_cold c - 1) c else c).

Fixpoint hand_cold (fuel : nat) (c : Cache) {struct fuel} : result Cache :=
  match fuel with
  | O => OutOfFuel
  | S n =>
      h ← deref (hand_pos_cold c);
      let p := rValue (rings c h) in
      let m := heap c p in
      c ← (if decide (ptype m = ptCold) then
             if ref m then Ok (cold_promote p c)
             else hand_cold_test_loop n (cold_demote p c)
           else Ok c);
      '(c, nx) ← hand_Next c (hand_pos_cold c);
      hand_cold_hot_loop n (set_hand_pos_cold nx c)
  end

with hand_cold_test_loop (fuel : nat) (c : Cache) {struct fuel} : result Cache :=
  if decide (mem_max c < count_test c) then
    match fuel with
    | O => OutOfFuel
    | S n => c ← hand_test n c; hand_cold_test_loop n c
    end
  else Ok c

with hand_cold_hot_loop (fuel : nat) (c : Cache) {struct fuel} : result Cache :=
  if decide (mem_max c - mem_cold c < count_hot c) then
    match fuel with
    | O => OutOfFuel
    | S n => c ← hand_hot n c; hand_cold_hot_loop n c
    end
  else Ok c

with hand_hot (fuel : nat) (c : Cache) {struct fuel} : result Cache :=
  match fuel with
  | O => OutOfFuel
  | S n =>
      c ← (if decide (hand_pos_hot c = hand_pos_test c) then hand_test n c else Ok c);
      h ← deref (hand_pos_hot c);
      let p := rValue (rings c h) in
      let m := heap c p in
      let c :=
        if decide (ptype m = ptHot) then
          if ref m then update_entry p (set_ref false) c
          else hot_demote p c
        else c in
      '(c, nx) ← hand_Next c (hand_pos_hot c);
      Ok (set_hand_pos_hot nx c)
  end

with hand_test (fuel : nat) (c : Cache) {struct fuel} : result Cache :=
  match fuel with
  | O => OutOfFuel
  | S n =>
      c ← (if decide (hand_pos_test c = hand_pos_cold c) then hand_cold n c else Ok c);
      h ← deref (hand_pos_test c);
      let m := heap c (rValue (rings c h)) in
      c ← (if decide (ptype m = ptTest) then test_remove m c else Ok c);
      '(c, nx) ← hand_Next c (hand_pos_test c);
      Ok (set_hand_pos_test nx c)
  end.

Fixpoint evict (fuel : nat) (c : Cache) {struct fuel} : result Cache :=
  if decide (mem_max c ≤ count_hot c + count_cold c) then
    match fuel with
    | O => OutOfFuel
    | S n => c ← hand_cold n c; evict n c
    end
  else Ok c.

(** The body of [meta_add] after the call of [evict]. *)
Definition meta_add_link (c : Cache) (mentry : nat) : result Cache :=
  let k := key (heap c mentry) in
  match meta c with
  | None =>
      let elt := next_ring c in
      let c := alloc_ring mentry c in
      let c := set_meta (Some elt) c in
      let c := set_metaKeys (<[k := Some elt]> (metaKeys c)) c in
      Ok (set_hand_pos_test (Some elt)
            (set_hand_pos_cold (Some elt) (set_hand_pos_hot (Some elt) c)))
  | Some _ =>
      let elt := next_ring c in
      let c := alloc_ring mentry c in
      let c := set_metaKeys (<[k := Some elt]> (metaKeys c)) c in
      '(s, _) ← Link (rings c) elt (hand_pos_hot c);
      let c := set_rings s c in
      if decide (hand_pos_cold c = hand_pos_hot c) then
        '(c, p) ← hand_Prev c (hand_pos_cold c);
        Ok (set_hand_pos_cold p c)
      else Ok c
  end.

Definition meta_add (fuel : nat) (c : Cache) (mentry : nat) : result Cache :=
  c ← evict fuel c;
  meta_add_link c mentry.

Definition promote_entry (p : nat) (value : option V) (c : Cache) : Cache :=
  let c := if decide (mem_cold c < mem_max c) then set_mem_cold (mem_cold c + 1) c else c in
  let c := update_entry p (λ m, set_ptype ptHot (set_val value (set_ref false m))) c in
  set_count_test (count_test c - 1) c.

Definition Cache_Set (fuel : nat) (c : Cache) (k : string) (value : option V)
  : result Cache :=
  match index_lookup c k with
  | Some v =>
      let p := rValue (rings c v) in
      match val (heap c p) with
      | None =>
          let c := promote_entry p value c in
          c ← meta_del c (key (heap c p));
          c ← meta_add fuel c p;
          Ok (set_count_hot (count_hot c + 1) c)
      | Some _ =>
          Ok (update_entry p (λ m, set_ref true (set_val value m)) c)
      end
  | None =>
      let p := next_entry c in
      let c := alloc_entry (mkMetaEntry ptCold k value false) c in
      c ← meta_add fuel c p;
      Ok (set_count_cold (count_cold c + 1) c)
  end.

(** All three hands stand on [h], an element linked to itself whose entry
    is hot, and [hand_cold] finds too many hot entries. *)
Definition hands_locked (c : Cache) (h : nat) : Prop :=
  hand_pos_hot c = Some h ∧ hand_pos_cold c = Some h ∧
  hand_pos_test c = Some h ∧ rnext (rings c h) = Some h ∧
  ptype (heap c (rValue (rings c h))) = ptHot ∧
  mem_max c - mem_cold c < count_hot c.

(** A sequence of calls of [Get] and [Set]. *)
Fixpoint run (fuel : nat) (c : Cache) (ops : list (@op V)) : result Cache :=
  match ops with
  | [] => Ok c
  | OpGet k :: r => run fuel (Cache_Get c k).1 r
  | OpSet k v :: r => c' ← Cache_Set fuel c k v; run fuel c' r
  end.

(** The ring is well linked: an element is either not initialised or its
    [next] and [prev] lead to elements that lead back to it. *)
Definition linked (s : nat → RingElem) (q : nat) : Prop :=
  match rnext (s q), rprev (s q) with
  | Some n, Some m => rprev (s n) = Some q ∧ rnext (s m) = Some q
  | None, None => True
  | _, _ => False
  end.

Definition well_linked (s : nat → RingElem) : Prop := ∀ q, linked s q.

(** A pointer to an element that has been allocated. *)
Definition allocated (bound : nat) (r : option nat) : Prop :=
  ∃ e, r = Some e ∧ (e < bound)%nat.

(** A hand is nil or on an allocated element. *)
Definition hand_fine (bound : nat) (r : option nat) : Prop :=
  ∀ h, r = Some h → (h < bound)%nat.

(** The ring of a cache is in order: well linked, nothing beyond the
    allocated elements is initialised, the index and the hands refer to
    allocated elements, and the hot hand is set once [meta] is. *)
Definition ring_ok (c : Cache) : Prop :=
  well_linked (rings c) ∧
  (∀ q, (next_ring c ≤ q)%nat → rnext (rings c q) = None) ∧
  (∀ k v, metaKeys c !! k = Some v → allocated (next_ring c) v) ∧
  hand_fine (next_ring c) (hand_pos_hot c) ∧
  hand_fine (next_ring c) (hand_pos_cold c) ∧
  hand_fine (next_ring c) (hand_pos_test c) ∧
  (meta c ≠ None → hand_pos_hot c ≠ None).

(** Every allocated ring element carries an allocated entry. *)
Definition entries_allocated (c : Cache) : Prop :=
  ∀ e, (e < next_ring c)%nat → (rValue (rings c e) < next_entry c)%nat.

(** [c'] has the allocations, the entries and the ring [Value]s of [c]. *)
Definition same_entries (c c' : Cache) : Prop :=
  next_ring c' = next_ring c ∧ next_entry c' = next_entry c ∧
  heap c' = heap c ∧ ∀ x, rValue (rings c' x) = rValue (rings c x).

(** No allocated ring element carries the entry at [b], which is [m], and
    [ne] entries are allocated. *)
Definition entry_kept (b ne : nat) (m : @metaEntry V) (c : Cache) : Prop :=
  (∀ e, (e < next_ring c)%nat → (rValue (rings c e) < b)%nat) ∧
  next_entry c = ne ∧ heap c b = m.

End RingCache.

(** The cache of a run that is known to return. *)
Definition from_result {V : Type} (r : result (@Cache V)) : @Cache V :=
  match r with
  | Ok c => c
  | _ => New 0
  end.

(** Capacity three, one key. *)
Definition cache_a : @Cache Z :=
  from_result (Cache_Set 20 (New 3) "a" (Some 1)).

(** Capacity three, two keys. *)
Definition cache_ab : @Cache Z :=
  from_result (Cache_Set 20 cache_a "b" (Some 2)).

(** Capacity two, full. *)
Definition cache_full : @Cache Z :=
  from_result (run 20 (New 2) [OpSet "a" (Some 1); OpSet "b" (Some 2)]).

(** [cache_ab] inside [Set "c" 3], when the new entry is allocated. *)
Definition cache_ab_c : @Cache Z :=
  alloc_entry (mkMetaEntry ptCold "c" (Some 3) false) cache_ab.

End Ring.

(** * Proofs *)

Section Proofs.
Context {V : Type}.
Implicit Types (c : @Cache V) (m : @metaEntry V) (l : list Element) (e : Element).

(** ** The result monad *)

Lemma bind_Ok {A B : Type} (m : result A) (f : A → result B) (b : B) :
  m ≫= f = Ok b → ∃ a, m = Ok a ∧ f a = Ok b.
Proof. destruct m as [a| |]; simpl; [eauto | discriminate..]. Qed.

Lemma deref_Ok {A : Type} (p : option A) (a : A) : deref p = Ok a → p = Some a.
Proof. destruct p; simpl; congruence. Qed.

(** Splits a hypothesis [x ← m; k = Ok r] into its two halves. *)
Tactic Notation "inv_bind" hyp(H) "as" simple_intropattern(a) ident(H1) :=
  apply bind_Ok in H as (a & H1 & H).

Ltac inv_Ok H := let H' := fresh H in injection H as H'; try subst.

(** ** Unfolding equations of the hands *)

Lemma hand_cold_S n c :
  hand_cold (S n) c =
    h ← deref (hand_pos_cold c);
    c1 ← (if decide (ptype (heap c (Value h)) = ptCold) then
            if ref (heap c (Value h)) then Ok (cold_promote (Value h) c)
            else hand_cold_test_loop n (cold_demote (Value h) c)
          else Ok c);
    c2 ← advance_cold c1;
    hand_cold_hot_loop n c2.
Proof. reflexivity. Qed.

Lemma hand_cold_test_loop_eq n c :
  hand_cold_test_loop n c =
    if decide (mem_max c < count_test c) then
      match n with
      | O => OutOfFuel
      | S n => c1 ← hand_test n c; hand_cold_test_loop n c1
      end
    else Ok c.
Proof. destruct n; reflexivity. Qed.

Lemma hand_cold_hot_loop_eq n c :
  hand_cold_hot_loop n c =
    if decide (mem_max c - mem_cold c < count_hot c) then
      match n with
      | O => OutOfFuel
      | S n => c1 ← hand_hot n c; hand_cold_hot_loop n c1
      end
    else Ok c.
Proof. destruct n; reflexivity. Qed.

Lemma hand_hot_S n c :
  hand_hot (S n) c =
    c1 ← (if decide (hand_pos_hot c = hand_pos_test c) then hand_test n c else Ok c);
    h ← deref (hand_pos_hot c1);
    advance_hot
      (if decide (ptype (heap c1 (Value h)) = ptHot) then
         if ref (heap c1 (Value h)) then update_entry (Value h) (set_ref false) c1
         else hot_demote (Value h) c1
       else c1).
Proof. reflexivity. Qed.

Lemma hand_test_S n c :
  hand_test (S n) c =
    c1 ← (if decide (hand_pos_test c = hand_pos_cold c) then hand_cold n c else Ok c);
    h ← deref (hand_pos_test c1);
    c2 ← (if decide (ptype (heap c1 (Value h)) = ptTest)
          then test_remove (heap c1 (Value h)) c1 else Ok c1);
    advance_test c2.
Proof. reflexivity. Qed.

Lemma evict_eq n c :
  evict n c =
    if decide (mem_max c ≤ count_hot c + count_cold c) then
      match n with
      | O => OutOfFuel
      | S n => c1 ← hand_cold n c; evict n c1
      end
    else Ok c.
Proof. destruct n; reflexivity. Qed.

(** ** The list operations *)

Lemma Front_elem_of l e : Front l = Some e → e ∈ l.
Proof. destruct l; simpl; [done|]. intros [= ->]. apply list_elem_of_here. Qed.

Lemma Back_elem_of l e : Back l = Some e → e ∈ l.
Proof. apply last_Some_elem_of. Qed.

Lemma Next_elem_of l e n : Next l e = Some n → n ∈ l.
Proof.
  induction l as [|x r IH]; simpl; [done|].
  case_decide; intros Hn.
  - apply list_elem_of_further. by apply Front_elem_of.
  - apply list_elem_of_further. by apply IH.
Qed.

Lemma Prev_cons x r e :
  Prev (x :: r) e =
    if decide (x = e) then None
    else match head r with
         | Some y => if decide (y = e) then Some x else Prev r e
         | None => None
         end.
Proof. reflexivity. Qed.

Lemma Prev_elem_of l e p : Prev l e = Some p → p ∈ l.
Proof.
  induction l as [|x r IH]; [done|]. rewrite Prev_cons.
  case_decide; [done|]. destruct (head r) as [y|]; [|done].
  case_decide; intros Hp.
  - inv_Ok Hp. apply list_elem_of_here.
  - apply list_elem_of_further. by apply IH.
Qed.

Lemma Next_not_elem_of l e : e ∉ l → Next l e = None.
Proof.
  induction l as [|x r IH]; simpl; [done|]. intros H.
  apply not_elem_of_cons in H as [H1 H2]. case_decide; [congruence|]. by apply IH.
Qed.

Lemma Prev_not_elem_of l e : e ∉ l → Prev l e = None.
Proof.
  induction l as [|x r IH]; [done|]. rewrite Prev_cons. intros H.
  apply not_elem_of_cons in H as [H1 H2]. case_decide; [done|].
  destruct r as [|y r']; [done|]. cbn [head].
  case_decide; [|by apply IH].
  subst y. exfalso. apply H2, list_elem_of_here.
Qed.

(** The predecessor of an element is another element. *)
Lemma Prev_ne l e p : NoDup l → Prev l e = Some p → p ≠ e.
Proof.
  induction l as [|x r IH]; [done|]. rewrite Prev_cons. intros Hnd H.
  apply list.NoDup_cons in Hnd as [Hx Hnd].
  case_decide; [done|]. destruct (head r) as [y|] eqn:Hy; [|done].
  case_decide.
  - inv_Ok H. congruence.
  - by apply IH.
Qed.

(** An element without predecessor is the front of the list. *)
Lemma Prev_None_Front l e : e ∈ l → Prev l e = None → Front l = Some e.
Proof.
  induction l as [|x r IH]; [by intros ?%elem_of_nil|]. rewrite Prev_cons.
  intros Hin H. case_decide; [by subst|].
  apply elem_of_cons in Hin as [->|Hin]; [done|].
  destruct r as [|y r']; [by apply elem_of_nil in Hin|]. cbn [head] in H.
  case_decide; [done|]. specialize (IH Hin H). simpl in IH. congruence.
Qed.

(** In a list of at least two distinct elements the back is not the front. *)
Lemma Back_Front_single l e : NoDup l → Front l = Some e → Back l = Some e → l = [e].
Proof.
  destruct l as [|x r]; simpl; [done|]. intros Hnd [= ->] Hb.
  destruct r as [|y r']; [done|]. exfalso.
  apply list.NoDup_cons in Hnd as [Hx _]. apply Hx.
  unfold Back in Hb. rewrite last_cons_cons in Hb. by apply last_Some_elem_of.
Qed.

Lemma elem_of_Remove l e x : x ∈ Remove l e ↔ x ∈ l ∧ x ≠ e.
Proof. unfold Remove. rewrite list_elem_of_filter. tauto. Qed.

Lemma NoDup_Remove l e : NoDup l → NoDup (Remove l e).
Proof. apply list.NoDup_filter. Qed.

Lemma length_Remove l e :
  NoDup l → e ∈ l → S (length (Remove l e)) = length l.
Proof.
  unfold Remove. induction l as [|x r IH]; [by intros _ ?%elem_of_nil|].
  intros Hnd Hin. apply list.NoDup_cons in Hnd as [Hx Hnd].
  destruct (decide (x = e)) as [->|Hne].
  - rewrite filter_cons_False by (intros ?; done). simpl. f_equal.
    clear IH Hin Hnd. induction r as [|y r IH]; [done|].
    apply not_elem_of_cons in Hx as [Hy Hx].
    rewrite filter_cons_True by congruence. simpl. f_equal. by apply IH.
  - rewrite filter_cons_True by done. simpl. f_equal. apply IH; [done|].
    apply elem_of_cons in Hin as [->|Hin]; done.
Qed.

Lemma Remove_single e : Remove [e] e = [].
Proof. unfold Remove. by rewrite filter_cons_False, filter_nil by (intros ?; done). Qed.

Lemma insert_before_perm new mark l :
  mark ∈ l → insert_before new mark l ≡ₚ new :: l.
Proof.
  induction l as [|x r IH]; simpl; [by intros ?%elem_of_nil|].
  intros Hin. case_decide; [done|].
  apply elem_of_cons in Hin as [->|Hin]; [done|].
  rewrite IH by done. apply Permutation_swap.
Qed.

Lemma Prev_insert_before new mark l :
  mark ∈ l → new ≠ mark → Prev (insert_before new mark l) mark = Some new.
Proof.
  intros Hin Hne. induction l as [|x r IH]; [by apply elem_of_nil in Hin|].
  cbn [insert_before]. destruct (decide (x = mark)) as [->|Hx].
  - rewrite Prev_cons. rewrite decide_False by done. cbn [head].
    by rewrite decide_True.
  - apply elem_of_cons in Hin as [->|Hin]; [done|].
    specialize (IH Hin). rewrite Prev_cons. rewrite decide_False by done.
    destruct r as [|y r']; [by apply elem_of_nil in Hin|].
    cbn [insert_before] in *. destruct (decide (y = mark)) as [->|Hy]; cbn [head].
    + by rewrite decide_False by done.
    + by rewrite decide_False by done.
Qed.

Lemma Next_insert_before new mark l :
  mark ∈ l → new ∉ l → Next (insert_before new mark l) new = Some mark.
Proof.
  intros Hin Hnew. induction l as [|x r IH]; [by apply elem_of_nil in Hin|].
  apply not_elem_of_cons in Hnew as [Hx Hnew].
  simpl. destruct (decide (x = mark)) as [->|Hm].
  - simpl. by rewrite decide_True.
  - apply elem_of_cons in Hin as [->|Hin]; [done|].
    simpl. rewrite decide_False by done. by apply IH.
Qed.

(** ** Positions in the list *)

Lemma index_of_nonneg elt l : 0 ≤ index_of elt l.
Proof. induction l as [|x r IH]; simpl; [done|]. case_decide; lia. Qed.

(** Two elements of the list at the same position are the same element. *)
Lemma index_of_inj l x y :
  x ∈ l → y ∈ l → index_of (Some x) l = index_of (Some y) l → x = y.
Proof.
  induction l as [|z r IH]; [by intros ?%elem_of_nil|].
  intros Hx Hy. simpl.
  destruct (decide (Some z = Some x)) as [Hzx|Hzx];
    destruct (decide (Some z = Some y)) as [Hzy|Hzy].
  - congruence.
  - pose proof (index_of_nonneg (Some y) r). lia.
  - pose proof (index_of_nonneg (Some x) r). lia.
  - intros Heq. apply IH; [| |lia].
    + apply elem_of_cons in Hx as [->|Hx]; [congruence|done].
    + apply elem_of_cons in Hy as [->|Hy]; [congruence|done].
Qed.

(** An element that is not at the front has a predecessor. *)
Lemma Prev_is_Some l x :
  x ∈ l → 0 < index_of (Some x) l → ∃ y, Prev l x = Some y.
Proof.
  induction l as [|z r IH]; [by intros ?%elem_of_nil|].
  intros Hx Hpos. rewrite Prev_cons. simpl in Hpos.
  destruct (decide (Some z = Some x)) as [Heq|Hne]; [lia|].
  rewrite decide_False by congruence.
  apply elem_of_cons in Hx as [->|Hx]; [congruence|].
  destruct r as [|y r']; [by apply elem_of_nil in Hx|]. cbn [head].
  destruct (decide (y = x)) as [->|Hyx]; [by eexists|].
  apply IH; [done|]. simpl. rewrite decide_False by congruence.
  pose proof (index_of_nonneg (Some x) r'). lia.
Qed.

(** The successor of the predecessor of an element is that element. *)
Lemma Next_Prev l x y : NoDup l → Prev l x = Some y → Next l y = Some x.
Proof.
  induction l as [|z r IH]; [done|]. rewrite Prev_cons. intros Hnd.
  apply list.NoDup_cons in Hnd as [Hz Hnd].
  case_decide as Hzx; [done|].
  destruct r as [|w r']; [done|]. cbn [head].
  destruct (decide (w = x)) as [->|Hwx].
  - intros [= <-]. simpl. by rewrite decide_True.
  - intros Hp. simpl. rewrite decide_False.
    + by apply IH.
    + intros ->. apply Hz. by eapply Prev_elem_of.
Qed.

(** Positions after an insertion before [mark]: the new element takes the
    position of [mark]; elements before it keep theirs, the others move
    one up. *)
Lemma index_of_insert_before_new new mark l :
  mark ∈ l → new ∉ l →
  index_of (Some new) (insert_before new mark l) = index_of (Some mark) l.
Proof.
  induction l as [|z r IH]; [by intros ?%elem_of_nil|].
  intros Hm Hn. apply not_elem_of_cons in Hn as [Hnz Hn]. simpl.
  destruct (decide (z = mark)) as [->|Hzm].
  - rewrite decide_True by done. simpl. by rewrite decide_True.
  - rewrite (decide_False (P := Some z = Some mark)) by congruence.
    simpl. rewrite decide_False by congruence.
    apply elem_of_cons in Hm as [->|Hm]; [done|]. by rewrite IH.
Qed.

Lemma index_of_insert_before new mark l x :
  mark ∈ l → new ∉ l → x ∈ l →
  index_of (Some x) (insert_before new mark l) =
    if decide (index_of (Some mark) l ≤ index_of (Some x) l)
    then index_of (Some x) l + 1 else index_of (Some x) l.
Proof.
  induction l as [|z r IH]; [by intros ?%elem_of_nil|].
  intros Hm Hn Hx. cbn [insert_before].
  assert (new ≠ x) as Hnx by (intros ->; done).
  apply not_elem_of_cons in Hn as [Hnz Hn].
  destruct (decide (z = mark)) as [->|Hzm].
  - replace (index_of (Some mark) (mark :: r)) with 0
      by (simpl; by rewrite decide_True).
    rewrite decide_True by apply index_of_nonneg.
    change (index_of (Some x) (new :: mark :: r))
      with (if decide (Some new = Some x) then 0
            else 1 + index_of (Some x) (mark :: r)).
    rewrite decide_False by congruence. lia.
  - cbn [index_of].
    rewrite (decide_False (P := Some z = Some mark)) by congruence.
    apply elem_of_cons in Hm as [->|Hm]; [done|].
    destruct (decide (Some z = Some x)) as [Hzx|Hzx].
    + rewrite decide_False; [done|]. pose proof (index_of_nonneg (Some mark) r). lia.
    + apply elem_of_cons in Hx as [->|Hx]; [done|].
      rewrite IH by done. repeat case_decide; lia.
Qed.

(** ** What the primitive steps change *)

Lemma advance_Ok l pos idx pos' idx' :
  advance l pos idx = Ok (pos', idx') →
  ∃ e, pos = Some e ∧
    ((∃ n, Next l e = Some n ∧ pos' = Some n ∧ idx' = idx + 1) ∨
     (Next l e = None ∧ pos' = Front l ∧ idx' = 0)).
Proof.
  unfold advance. intros H. inv_bind H as e He. apply deref_Ok in He.
  exists e. split; [done|].
  destruct (Next l e) as [n|] eqn:Hn; inv_Ok H; eauto.
Qed.

Lemma advance_cold_Ok c c' :
  advance_cold c = Ok c' →
  ∃ pos idx, advance (meta c) (hand_pos_cold c) (hand_idx_cold c) = Ok (pos, idx) ∧
    c' = set_hand_idx_cold idx (set_hand_pos_cold pos c).
Proof.
  unfold advance_cold. intros H. inv_bind H as [pos idx] Ha. inv_Ok H. eauto.
Qed.

Lemma advance_hot_Ok c c' :
  advance_hot c = Ok c' →
  ∃ pos idx, advance (meta c) (hand_pos_hot c) (hand_idx_hot c) = Ok (pos, idx) ∧
    c' = set_hand_idx_hot idx (set_hand_pos_hot pos c).
Proof.
  unfold advance_hot. intros H. inv_bind H as [pos idx] Ha. inv_Ok H. eauto.
Qed.

Lemma advance_test_Ok c c' :
  advance_test c = Ok c' →
  ∃ pos idx, advance (meta c) (hand_pos_test c) (hand_idx_test c) = Ok (pos, idx) ∧
    c' = set_hand_idx_test idx (set_hand_pos_test pos c).
Proof.
  unfold advance_test. intros H. inv_bind H as [pos idx] Ha. inv_Ok H. eauto.
Qed.

Lemma advance_cold_same c c' : advance_cold c = Ok c' → same_but_hands c c'.
Proof. by intros (pos & idx & _ & ->)%advance_cold_Ok. Qed.

Lemma advance_hot_same c c' : advance_hot c = Ok c' → same_but_hands c c'.
Proof. by intros (pos & idx & _ & ->)%advance_hot_Ok. Qed.

Lemma advance_test_same c c' : advance_test c = Ok c' → same_but_hands c c'.
Proof. by intros (pos & idx & _ & ->)%advance_test_Ok. Qed.

(** The cache after [meta_del] removed the element [e] found under [k]. *)
Definition deleted (c : @Cache V) (k : string) (e : Element)
    (hot cold test : option Element) : @Cache V :=
  let idx := index_of (Some e) (meta c) in
  let max_pos := Len (Remove (meta c) e) - 1 in
  {| mem_max := mem_max c; mem_cold := mem_cold c;
     meta := Remove (meta c) e; metaKeys := delete k (metaKeys c);
     hand_pos_hot := hot; hand_pos_cold := cold; hand_pos_test := test;
     hand_idx_hot := del_idx idx max_pos (hand_idx_hot c);
     hand_idx_cold := del_idx idx max_pos (hand_idx_cold c);
     hand_idx_test := del_idx idx max_pos (hand_idx_test c);
     count_hot := count_hot c; count_cold := count_cold c; count_test := count_test c;
     heap := heap c; next_elem := next_elem c; next_entry := next_entry c |}.

Lemma meta_del_Ok c k c' :
  meta_del c k = Ok c' →
  ∃ e hot cold test,
    metaKeys c !! k = Some (Some e) ∧
    del_hand (meta c) (Some e) (hand_pos_hot c) = Ok hot ∧
    del_hand (meta c) (Some e) (hand_pos_cold c) = Ok cold ∧
    del_hand (meta c) (Some e) (hand_pos_test c) = Ok test ∧
    c' = deleted c k e hot cold test.
Proof.
  unfold meta_del. intros H.
  destruct (metaKeys c !! k) as [elt|] eqn:Hk; [|discriminate].
  simpl in H. inv_bind H as hot Hhot. inv_bind H as cold Hcold.
  inv_bind H as test Htest. inv_bind H as e He. apply deref_Ok in He. subst elt.
  inv_Ok H. exists e, hot, cold, test. done.
Qed.

Lemma test_remove_Ok m c c' :
  test_remove m c = Ok c' →
  ∃ h c1, hand_pos_test c = Some h ∧ meta_del c (key m) = Ok c1 ∧
    meta c' = meta c1 ∧ metaKeys c' = metaKeys c1 ∧ heap c' = heap c1 ∧
    hand_pos_hot c' = hand_pos_hot c1 ∧ hand_pos_cold c' = hand_pos_cold c1 ∧
    hand_pos_test c' =
      match Prev (meta c) h with Some p => Some p | None => Back (meta c) end ∧
    count_hot c' = count_hot c1 ∧ count_cold c' = count_cold c1 ∧
    count_test c' = count_test c1 - 1 ∧
    mem_max c' = mem_max c1 ∧
    mem_cold c' = (if decide (1 < mem_cold c1) then mem_cold c1 - 1 else mem_cold c1) ∧
    next_elem c' = next_elem c1 ∧ next_entry c' = next_entry c1.
Proof.
  unfold test_remove. intros H. inv_bind H as h Hh. apply deref_Ok in Hh.
  destruct (Prev (meta c) h) as [p|] eqn:Hp.
  - inv_bind H as c1 H1. inv_Ok H. exists h, c1.
    repeat split; try done; simpl; case_decide; simpl; by rewrite ?Hp.
  - inv_bind H as c1 H1. inv_Ok H. exists h, c1.
    repeat split; try done; simpl; case_decide; simpl; by rewrite ?Hp.
Qed.

Lemma advance_live l pos idx pos' idx' :
  advance l pos idx = Ok (pos', idx') → pos' = None ∨ ∃ e, pos' = Some e ∧ e ∈ l.
Proof.
  intros (e & -> & [(n & Hn & -> & _) | (Hn & -> & _)])%advance_Ok.
  - right. exists n. split; [done|]. by eapply Next_elem_of.
  - destruct (Front l) as [f|] eqn:Hf; [|by left].
    right. exists f. split; [done|]. by apply Front_elem_of.
Qed.

Lemma advance_ring_next l e idx pos' idx' :
  advance l (Some e) idx = Ok (pos', idx') → pos' = ring_next l e.
Proof.
  intros (e' & [= <-] & [(n & Hn & -> & _) | (Hn & -> & _)])%advance_Ok;
    unfold ring_next; by rewrite Hn.
Qed.

Lemma ring_next_live l e x : ring_next l e = Some x → x ∈ l.
Proof.
  unfold ring_next. destruct (Next l e) as [n|] eqn:Hn.
  - intros [= <-]. by eapply Next_elem_of.
  - apply Front_elem_of.
Qed.

Lemma Prev_moved l old e : hand_moved l old (Prev l e).
Proof.
  destruct (Prev l e) as [x|] eqn:Hx; [|by right; left].
  right; right. exists x. split; [done|]. by eapply Prev_elem_of.
Qed.

Lemma advance_moved l old pos idx pos' idx' :
  advance l pos idx = Ok (pos', idx') → hand_moved l old pos'.
Proof. intros [->|?]%advance_live; [by right; left | by right; right]. Qed.

Lemma hand_moved_refl l h : hand_moved l h h.
Proof. by left. Qed.

Lemma link_hands_back_Ok hot c c' :
  link_hands_back hot c = Ok c' →
  same_but_hands c c' ∧
  hand_idx_hot c' = hand_idx_hot c ∧ hand_idx_cold c' = hand_idx_cold c ∧
  hand_idx_test c' = hand_idx_test c ∧
  hand_pos_hot c' = Prev (meta c) hot ∧
  hand_pos_cold c' =
    (if decide (hand_idx_hot c ≤ hand_idx_cold c)
     then hand_pos_cold c ≫= Prev (meta c) else hand_pos_cold c) ∧
  hand_pos_test c' =
    (if decide (hand_idx_hot c ≤ hand_idx_test c)
     then hand_pos_test c ≫= Prev (meta c) else hand_pos_test c).
Proof.
  unfold link_hands_back, same_but_hands. intros H.
  inv_bind H as c1 H1. inv_bind H as c2 H2. inv_Ok H.
  destruct (decide (hand_idx_hot c ≤ hand_idx_cold c)) as [Hc|Hc].
  - inv_bind H1 as h1 Hh1. apply deref_Ok in Hh1. inv_Ok H1. simpl in *.
    destruct (decide (hand_idx_hot c ≤ hand_idx_test c)) as [Ht|Ht].
    + inv_bind H2 as h2 Hh2. apply deref_Ok in Hh2. inv_Ok H2. simpl in *.
      by rewrite Hh1, Hh2.
    + inv_Ok H2. simpl. by rewrite Hh1.
  - inv_Ok H1.
    destruct (decide (hand_idx_hot c1 ≤ hand_idx_test c1)) as [Ht|Ht].
    + inv_bind H2 as h2 Hh2. apply deref_Ok in Hh2. inv_Ok H2. simpl in *.
      by rewrite Hh2.
    + by inv_Ok H2.
Qed.

Lemma link_hands_forward_Ok c c' :
  link_hands_forward c = Ok c' →
  same_but_hands c c' ∧
  (∃ e, hand_pos_hot c = Some e ∧ hand_pos_hot c' = ring_next (meta c) e) ∧
  hand_moved (meta c) (hand_pos_cold c) (hand_pos_cold c') ∧
  hand_moved (meta c) (hand_pos_test c) (hand_pos_test c').
Proof.
  unfold link_hands_forward, same_but_hands. intros H.
  inv_bind H as c1 H1. inv_bind H as c2 H2.
  apply advance_hot_Ok in H as (pos & idx & Hadv & ->).
  assert (same_but_hands c c1 ∧ hand_pos_hot c1 = hand_pos_hot c ∧
          hand_pos_test c1 = hand_pos_test c ∧
          hand_moved (meta c) (hand_pos_cold c) (hand_pos_cold c1)) as (S1 & Hh1 & Ht1 & Hc1).
  { destruct (decide (hand_idx_hot c < hand_idx_cold c)).
    - apply advance_cold_Ok in H1 as (pos1 & idx1 & Ha1 & ->). simpl.
      repeat split. by eapply advance_moved.
    - inv_Ok H1. repeat split. apply hand_moved_refl. }
  assert (same_but_hands c1 c2 ∧ hand_pos_hot c2 = hand_pos_hot c1 ∧
          hand_pos_cold c2 = hand_pos_cold c1 ∧
          hand_moved (meta c1) (hand_pos_test c1) (hand_pos_test c2)) as (S2 & Hh2 & Hc2 & Ht2).
  { destruct (decide (hand_idx_hot c1 ≤ hand_idx_test c1)).
    - apply advance_test_Ok in H2 as (pos2 & idx2 & Ha2 & ->). simpl.
      repeat split. by eapply advance_moved.
    - inv_Ok H2. repeat split. apply hand_moved_refl. }
  unfold same_but_hands in S1, S2. simpl.
  destruct S1 as (?&?&Hm1&?&?&?&?&?&?&?), S2 as (?&?&Hm2&?&?&?&?&?&?&?).
  split; [repeat split; congruence|].
  rewrite Hm2, Hm1 in Hadv. rewrite Hh2, Hh1 in Hadv.
  split; [|split].
  - destruct (hand_pos_hot c) as [e|] eqn:He; [|by apply advance_Ok in Hadv as (? & ? & _)].
    exists e. split; [done|]. by eapply advance_ring_next.
  - by rewrite Hc2.
  - rewrite Hm1, Ht1 in Ht2. done.
Qed.

(** The effect of the insertion part of [meta_add]: a call that returns
    has linked a new element, in front of the list when the hot hand was
    nil and immediately before the hot hand otherwise. *)
Lemma meta_add_link_Ok c p c' :
  meta_add_link c p = Ok c' →
  mem_max c' = mem_max c ∧ mem_cold c' = mem_cold c ∧
  count_hot c' = count_hot c ∧ count_cold c' = count_cold c ∧
  count_test c' = count_test c ∧
  heap c' = heap c ∧ next_entry c' = next_entry c ∧
  next_elem c' = S (next_elem c) ∧
  metaKeys c' = <[key (heap c p) := Some (mkElement (next_elem c) p)]> (metaKeys c) ∧
  match hand_pos_hot c with
  | None => meta c' = mkElement (next_elem c) p :: meta c
  | Some h => h ∈ meta c ∧ meta c' = insert_before (mkElement (next_elem c) p) h (meta c)
  end ∧
  hand_moved (meta c') (hand_pos_cold c) (hand_pos_cold c') ∧
  hand_moved (meta c') (hand_pos_test c) (hand_pos_test c') ∧
  (∃ x, hand_pos_hot c' = Some x ∧ x ∈ meta c') ∧
  (mkElement (next_elem c) p ∉ meta c →
   hand_pos_hot c' = ring_next (meta c') (mkElement (next_elem c) p)).
Proof.
  unfold meta_add_link, InsertBefore. intros H.
  remember (mkElement (next_elem c) p) as elt eqn:Helt.
  inv_bind H as c1 H1.
  apply link_hands_forward_Ok in H as (S & (e & He & Hhot) & Hcold & Htest).
  destruct S as (?&?&Hm&?&?&?&?&?&?&?).
  assert (∃ x, hand_pos_hot c' = Some x ∧ x ∈ meta c') as Hlive.
  { rewrite Hhot, Hm. destruct (ring_next (meta c1) e) as [x|] eqn:Hx.
    - exists x. split; [done|]. by eapply ring_next_live.
    - exfalso. unfold ring_next in Hx.
      destruct (Next (meta c1) e) as [n|] eqn:Hn; [done|].
      destruct (meta c1) as [|y r] eqn:Hl; [|done].
      destruct (hand_pos_hot c) as [hot|].
      + destruct (decide (hot ∈ meta c)) as [Hin|Hnin].
        * apply link_hands_back_Ok in H1 as (S1 & _). destruct S1 as (_&_&Hm1&_).
          simpl in Hm1. rewrite Hl in Hm1.
          assert (elt ∈ []) as Hbad; [|by apply elem_of_nil in Hbad].
          rewrite Hm1, insert_before_perm by done. apply list_elem_of_here.
        * apply link_hands_back_Ok in H1 as (_ & _ & _ & _ & Hhot1 & _).
          simpl in Hhot1. rewrite Prev_not_elem_of in Hhot1 by done. congruence.
      + injection H1 as <-. done. }
  destruct (hand_pos_hot c) as [hot|] eqn:Hh.
  - destruct (decide (hot ∈ meta c)) as [Hin|Hnin].
    + apply link_hands_back_Ok in H1 as (S1 & _ & _ & _ & Hhot1 & Hcold1 & Htest1).
      destruct S1 as (?&?&Hm1&?&?&?&?&?&?&?). simpl in *.
      rewrite Hm, Hm1.
      repeat split; try congruence.
      * rewrite Hm1 in Hcold. destruct Hcold as [Hc|Hc]; [|by right].
        rewrite Hc, Hcold1.
        destruct (decide (hand_idx_hot c ≤ hand_idx_cold c)); [|apply hand_moved_refl].
        destruct (hand_pos_cold c) as [x|]; simpl; [apply Prev_moved | by left].
      * rewrite Hm1 in Htest. destruct Htest as [Hc|Hc]; [|by right].
        rewrite Hc, Htest1.
        destruct (decide (hand_idx_hot c ≤ hand_idx_test c)); [|apply hand_moved_refl].
        destruct (hand_pos_test c) as [x|]; simpl; [apply Prev_moved | by left].
      * by rewrite <- Hm1, <- Hm.
      * intros Hfresh.
        rewrite Hhot1, Prev_insert_before in He; [congruence|done|].
        intros ->. done.
    + apply link_hands_back_Ok in H1 as (S1 & _ & _ & _ & Hhot1 & _).
      simpl in Hhot1. rewrite Prev_not_elem_of in Hhot1 by done. congruence.
  - injection H1 as <-. simpl in *. injection He as <-.
    repeat split; try congruence.
    + destruct Hcold as [Hc|Hc]; [|rewrite Hm; by right].
      rewrite Hc. right; right. exists elt. split; [done|].
      rewrite Hm. apply list_elem_of_here.
    + destruct Htest as [Hc|Hc]; [|rewrite Hm; by right].
      rewrite Hc. right; right. exists elt. split; [done|].
      rewrite Hm. apply list_elem_of_here.
Qed.

(** ** A proof rule for properties kept by every step of the hands *)

Section hands_rule.
Variable Φ : @Cache V → Prop.
Hypothesis HΦ : step_invariant Φ.

Lemma hands_preserve n :
  (∀ c c', hand_cold n c = Ok c' → Φ c → Φ c') ∧
  (∀ c c', hand_cold_test_loop n c = Ok c' → Φ c → Φ c') ∧
  (∀ c c', hand_cold_hot_loop n c = Ok c' → Φ c → Φ c') ∧
  (∀ c c', hand_hot n c = Ok c' → Φ c → Φ c') ∧
  (∀ c c', hand_test n c = Ok c' → Φ c → Φ c').
Proof.
  destruct HΦ as (Φ_cold_promote & Φ_cold_demote & Φ_advance_cold & Φ_hot_clear &
                  Φ_hot_demote & Φ_advance_hot & Φ_test_remove & Φ_advance_test).
  induction n as [|n (IHc & IHtl & IHhl & IHh & IHt)].
  - repeat split; intros c c' H Hc; try discriminate H.
    + rewrite hand_cold_test_loop_eq in H. case_decide; [discriminate|]. by inv_Ok H.
    + rewrite hand_cold_hot_loop_eq in H. case_decide; [discriminate|]. by inv_Ok H.
  - repeat split; intros c c' H Hc.
    + rewrite hand_cold_S in H.
      inv_bind H as h Hh. apply deref_Ok in Hh.
      inv_bind H as c1 H1. inv_bind H as c2 H2.
      eapply IHhl; [exact H|]. eapply Φ_advance_cold; [|exact H2].
      case_decide as Hty; [|by inv_Ok H1].
      destruct (ref (heap c (Value h))) eqn:Hr.
      * inv_Ok H1. by apply Φ_cold_promote.
      * eapply IHtl; [exact H1|]. by apply Φ_cold_demote.
    + rewrite hand_cold_test_loop_eq in H. case_decide; [|by inv_Ok H].
      inv_bind H as c1 H1. apply (IHtl c1 c' H). exact (IHt c c1 H1 Hc).
    + rewrite hand_cold_hot_loop_eq in H. case_decide; [|by inv_Ok H].
      inv_bind H as c1 H1. apply (IHhl c1 c' H). exact (IHh c c1 H1 Hc).
    + rewrite hand_hot_S in H. inv_bind H as c1 H1.
      assert (Φ c1) as Hc1.
      { case_decide; [exact (IHt c c1 H1 Hc) | by inv_Ok H1]. }
      inv_bind H as h Hh. apply deref_Ok in Hh.
      eapply Φ_advance_hot; [|exact H].
      case_decide as Hty; [|done].
      destruct (ref (heap c1 (Value h))) eqn:Hr;
        [by apply Φ_hot_clear | by apply Φ_hot_demote].
    + rewrite hand_test_S in H. inv_bind H as c1 H1.
      assert (Φ c1) as Hc1.
      { case_decide; [exact (IHc c c1 H1 Hc) | by inv_Ok H1]. }
      inv_bind H as h Hh. apply deref_Ok in Hh.
      inv_bind H as c2 H2.
      eapply Φ_advance_test; [|exact H].
      case_decide as Hty; [exact (Φ_test_remove c1 h c2 Hc1 Hh Hty H2) | by inv_Ok H2].
Qed.

Lemma evict_preserve n c c' : evict n c = Ok c' → Φ c → Φ c'.
Proof.
  revert c. induction n as [|n IH]; intros c H Hc; rewrite evict_eq in H;
    (case_decide; [|by inv_Ok H]).
  - discriminate.
  - inv_bind H as c1 H1. eapply IH; [exact H|].
    exact (proj1 (hands_preserve n) c c1 H1 Hc).
Qed.
End hands_rule.

(** ** Sizing *)

Lemma sizing_steps M : step_invariant (@sizing V M).
Proof.
  unfold step_invariant, sizing. split_and!.
  - by intros c h H _ _ _.
  - by intros c h H _ _ _.
  - by intros c c' H (pos & idx & _ & ->)%advance_cold_Ok.
  - by intros c h H _ _ _.
  - by intros c h H _ _ _.
  - by intros c c' H (pos & idx & _ & ->)%advance_hot_Ok.
  - intros c h c' H _ _ (h' & c1 & _ & Hd & R)%test_remove_Ok.
    destruct R as (_&_&_&_&_&_&_&_&_&Hmax&Hcold&_).
    apply meta_del_Ok in Hd as (e & hot & cold & test & _ & _ & _ & _ & ->).
    simpl in *. rewrite Hmax, Hcold. case_decide; lia.
  - by intros c c' H (pos & idx & _ & ->)%advance_test_Ok.
Qed.

(** ** Insertion with the hands in place *)

(** Stepping back and then forward returns to the same element, one
    position further. *)
Lemma advance_Prev l x idx :
  NoDup l → x ∈ l → 0 < index_of (Some x) l →
  advance l (Prev l x) idx = Ok (Some x, idx + 1).
Proof.
  intros Hnd Hx Hpos. destruct (Prev_is_Some l x Hx Hpos) as [y Hy].
  rewrite Hy. unfold advance. simpl. by rewrite (Next_Prev l x y).
Qed.

Lemma link_hands_back_run hot c cold test :
  hand_pos_cold c = Some cold → hand_pos_test c = Some test →
  link_hands_back hot c =
    Ok (set_hand_pos_hot (Prev (meta c) hot)
          (set_hand_pos_test
             (if decide (hand_idx_hot c ≤ hand_idx_test c)
              then Prev (meta c) test else Some test)
             (set_hand_pos_cold
                (if decide (hand_idx_hot c ≤ hand_idx_cold c)
                 then Prev (meta c) cold else Some cold) c))).
Proof.
  intros Hc Ht. unfold link_hands_back. destruct c. simpl in *. subst.
  repeat case_decide; simpl; repeat case_decide; done.
Qed.

(** Computes the field updates and projections of an explicit record. *)
Ltac flatten_cache :=
  cbv beta iota delta
    [set_mem_cold set_meta set_metaKeys set_hand_pos_hot set_hand_pos_cold
     set_hand_pos_test set_hand_idx_hot set_hand_idx_cold set_hand_idx_test
     set_count_hot set_count_cold set_count_test set_heap set_next_elem
     set_next_entry linked
     mem_max mem_cold meta metaKeys hand_pos_hot hand_pos_cold hand_pos_test
     hand_idx_hot hand_idx_cold hand_idx_test count_hot count_cold count_test
     heap next_elem next_entry mbind result_bind deref].

Lemma meta_add_link_indexed c p :
  hands_indexed c → mkElement (next_elem c) p ∉ meta c →
  ∃ c' hot,
    meta_add_link c p = Ok c' ∧ hand_pos_hot c = Some hot ∧
    meta c' = insert_before (mkElement (next_elem c) p) hot (meta c) ∧
    Next (meta c') (mkElement (next_elem c) p) = Some hot ∧
    hand_pos_hot c' = hand_pos_hot c ∧
    hand_pos_test c' = hand_pos_test c ∧
    hand_pos_cold c' =
      (if decide (hand_pos_cold c = hand_pos_hot c)
       then Some (mkElement (next_elem c) p) else hand_pos_cold c) ∧
    hands_indexed c'.
Proof.
  intros (Hnd & (hot & Hhot & Hhin & Hhidx) & (cold & Hcold & Hcin & Hcidx) &
          (test & Htest & Htin & Htidx)) Hfresh.
  destruct c as [mm mc l ks ph pc pt ih ic it ch cc ct hp ne np].
  cbn [meta hand_pos_hot hand_pos_cold hand_pos_test hand_idx_hot hand_idx_cold
       hand_idx_test next_elem] in *.
  subst ph pc pt.
  remember (mkElement ne p) as new eqn:Hnew_eq.
  remember (insert_before new hot l) as l' eqn:Hl'.
  assert (NoDup l') as Hnd'.
  { rewrite Hl', insert_before_perm by done. by apply list.NoDup_cons. }
  assert (∀ x, x ∈ l → x ∈ l') as Hsub.
  { intros x Hx. rewrite Hl', insert_before_perm by done.
    by apply list_elem_of_further. }
  assert (new ∈ l') as Hnew.
  { rewrite Hl', insert_before_perm by done. apply list_elem_of_here. }
  pose proof (index_of_insert_before_new new hot l Hhin Hfresh) as Inew.
  pose proof (index_of_insert_before new hot l hot Hhin Hfresh Hhin) as Ihot.
  pose proof (index_of_insert_before new hot l cold Hhin Hfresh Hcin) as Icold.
  pose proof (index_of_insert_before new hot l test Hhin Hfresh Htin) as Itest.
  rewrite <- Hl' in Inew, Ihot, Icold, Itest.
  rewrite decide_True in Ihot by lia.
  pose proof (index_of_nonneg (Some hot) l) as Hh0.
  pose proof (index_of_nonneg (Some cold) l) as Hc0.
  pose proof (index_of_nonneg (Some test) l) as Ht0.
  rewrite Hhidx in *. rewrite Hcidx in *. rewrite Htidx in *.
  assert (Prev l' hot = Some new) as Hprev.
  { rewrite Hl'. apply Prev_insert_before; [done|]. intros ->. done. }
  assert (Next l' new = Some hot) as Hnext.
  { rewrite Hl'. by apply Next_insert_before. }
  assert (ih = ic → cold = hot) as Hsame.
  { intros Heq. apply (index_of_inj l); [done|done|congruence]. }
  assert (ih ≤ ic → 0 < index_of (Some cold) l') as Pc.
  { intros Hle. rewrite Icold, decide_True by done. lia. }
  assert (ih ≤ it → 0 < index_of (Some test) l') as Pt.
  { intros Hle. rewrite Itest, decide_True by done. lia. }
  assert (advance l' (Some new) ih = Ok (Some hot, ih + 1)) as Ahot.
  { unfold advance. simpl. by rewrite Hnext. }
  unfold meta_add_link, InsertBefore.
  cbn [hand_pos_hot meta next_elem heap].
  rewrite decide_True by done. rewrite <- Hnew_eq, <- Hl'.
  unfold link_hands_back, link_hands_forward, advance_cold, advance_test,
    advance_hot, linked.
  flatten_cache.
  destruct (decide (ih ≤ ic)) as [Hc1|Hc1];
    destruct (decide (ih ≤ it)) as [Ht1|Ht1];
    destruct (decide (ih < ic)) as [Hc2|Hc2]; try lia;
    flatten_cache;
    rewrite ?(advance_Prev l' cold) by auto; flatten_cache;
    rewrite ?decide_True by done; rewrite ?decide_False by done;
    rewrite ?(advance_Prev l' test) by auto; flatten_cache;
    rewrite ?Hprev; rewrite Ahot.
  all: eexists _, hot; split; [reflexivity|]; flatten_cache.
  all: split_and!; try done.
  all: try (unfold hands_indexed, hand_at; flatten_cache).
  all: try (assert (cold = hot) as -> by (apply Hsame; lia); rewrite ?Hprev).
  all: try match goal with
       | |- _ = (if decide _ then _ else _) =>
           first [ rewrite decide_True by done; done
                 | rewrite decide_False; [done | intros [= ->]; lia] ]
       end.
  all: split_and!; try done.
  all: eexists; split_and!; try reflexivity; auto.
  all: rewrite ?Inew, ?Ihot, ?Icold, ?Itest; rewrite ?decide_True by lia;
       rewrite ?decide_False by lia; try lia; try done.
Qed.

(** C8, as the code has it. On a list whose three hands are in place,
    [meta_add], after its call of [evict], links the new element
    immediately before the element of the hot hand. The hot hand and the
    test hand still point at the elements they pointed at; so does the cold
    hand, unless it was on the element of the hot hand, in which case it is
    moved to the new element. The indices follow the positions. *)
Theorem meta_add_keeps_hot_and_test fuel c p c1 :
  evict fuel c = Ok c1 →
  hands_indexed c1 →
  mkElement (next_elem c1) p ∉ meta c1 →
  ∃ c' hot,
    meta_add fuel c p = Ok c' ∧ hand_pos_hot c1 = Some hot ∧
    meta c' = insert_before (mkElement (next_elem c1) p) hot (meta c1) ∧
    Next (meta c') (mkElement (next_elem c1) p) = Some hot ∧
    hand_pos_hot c' = hand_pos_hot c1 ∧
    hand_pos_test c' = hand_pos_test c1 ∧
    hand_pos_cold c' =
      (if decide (hand_pos_cold c1 = hand_pos_hot c1)
       then Some (mkElement (next_elem c1) p) else hand_pos_cold c1) ∧
    hands_indexed c'.
Proof.
  intros He Hh Hfresh. unfold meta_add. rewrite He. cbn [mbind result_bind].
  by apply meta_add_link_indexed.
Qed.

(** ** The three branches of [Set] *)

Lemma Cache_Set_Ok fuel c k v c' :
  Cache_Set fuel c k v = Ok c' →
  (index_lookup c k = None ∧
   ∃ c2 c3,
     evict fuel (alloc_entry (mkMetaEntry ptCold k v false) c) = Ok c2 ∧
     meta_add_link c2 (next_entry c) = Ok c3 ∧
     c' = set_count_cold (count_cold c3 + 1) c3) ∨
  (∃ e, index_lookup c k = Some e ∧ val (heap c (Value e)) = None ∧
   ∃ c1 c2 c3,
     meta_del (promote_entry (Value e) v c) (key (heap c (Value e))) = Ok c1 ∧
     evict fuel c1 = Ok c2 ∧
     meta_add_link c2 (Value e) = Ok c3 ∧
     c' = set_count_hot (count_hot c3 + 1) c3) ∨
  (∃ e x, index_lookup c k = Some e ∧ val (heap c (Value e)) = Some x ∧
   c' = update_entry (Value e) (λ m, set_ref true (set_val v m)) c).
Proof.
  unfold Cache_Set, meta_add. intros H.
  destruct (index_lookup c k) as [e|] eqn:He.
  - destruct (val (heap c (Value e))) as [x|] eqn:Hx.
    + right; right. inv_Ok H. eauto.
    + right; left. exists e. split; [done|]. split; [done|].
      inv_bind H as c1 H1. inv_bind H as c3 H3. inv_bind H3 as c2 H2. inv_Ok H.
      exists c1, c2, c3. split; [|done].
      rewrite <- H1. f_equal. unfold promote_entry, update_entry. simpl.
      rewrite fn_lookup_insert. simpl. by case_decide.
  - left. split; [done|].
    inv_bind H as c3 H3. inv_bind H3 as c2 H2. inv_Ok H. eauto.
Qed.

(** ** Sizing is kept by the public calls *)

Lemma evict_sizing M n c c' : evict n c = Ok c' → sizing M c → sizing M c'.
Proof. apply evict_preserve, sizing_steps. Qed.

Lemma meta_del_sizing M c k c' : meta_del c k = Ok c' → sizing M c → sizing M c'.
Proof. by intros (e & hot & cold & test & _ & _ & _ & _ & ->)%meta_del_Ok. Qed.

Lemma meta_add_link_sizing M c p c' :
  meta_add_link c p = Ok c' → sizing M c → sizing M c'.
Proof.
  intros (Hmax & Hcold & _)%meta_add_link_Ok. unfold sizing. by rewrite Hmax, Hcold.
Qed.

Lemma promote_entry_sizing M p v c : sizing M c → sizing M (promote_entry p v c).
Proof.
  unfold sizing, promote_entry. intros [Hmax Hcold]. case_decide; simpl; lia.
Qed.

Lemma Cache_Set_sizing M fuel c k v c' :
  Cache_Set fuel c k v = Ok c' → sizing M c → sizing M c'.
Proof.
  intros H Hs. apply Cache_Set_Ok in H as [(_ & c2 & c3 & H2 & H3 & ->) |
    [(e & _ & _ & c1 & c2 & c3 & H1 & H2 & H3 & ->) | (e & x & _ & _ & ->)]].
  - eapply evict_sizing in H2; [|exact Hs]. by eapply meta_add_link_sizing in H3.
  - eapply meta_del_sizing in H1; [|by apply promote_entry_sizing].
    eapply evict_sizing in H2; [|exact H1]. by eapply meta_add_link_sizing in H3.
  - exact Hs.
Qed.

Lemma Cache_Get_sizing M c k : sizing M c → sizing M (Cache_Get c k).1.
Proof.
  unfold Cache_Get. intros Hs.
  destruct (index_lookup c k) as [e|]; [|done].
  by destruct (val (heap c (Value e))).
Qed.

Lemma reachable_sizing allowed size c :
  1 ≤ size → reachable_by allowed size c → sizing size c.
Proof.
  intros Hsize. induction 1 as [|c k _ IH|c fuel k v c' _ IH _ HS].
  - unfold sizing. simpl. lia.
  - by apply Cache_Get_sizing.
  - by eapply Cache_Set_sizing.
Qed.

(** ** The bounds on the counters *)

(** [evict] returns only once the resident count is below the capacity. *)
Lemma evict_exit n c c' :
  evict n c = Ok c' → count_hot c' + count_cold c' < mem_max c'.
Proof.
  revert c. induction n as [|n IH]; intros c H; rewrite evict_eq in H;
    (case_decide; [|inv_Ok H; lia]).
  - discriminate.
  - inv_bind H as c1 H1. by apply (IH c1).
Qed.

(** The hands never push the number of test entries beyond the larger of
    its starting value and the capacity; the loop that follows a demotion
    brings it back to the capacity. *)
Lemma hands_count_test n :
  (∀ c c', hand_cold n c = Ok c' →
     mem_max c' = mem_max c ∧ count_test c' ≤ Z.max (count_test c) (mem_max c)) ∧
  (∀ c c', hand_cold_test_loop n c = Ok c' →
     mem_max c' = mem_max c ∧ count_test c' ≤ Z.max (count_test c) (mem_max c) ∧
     count_test c' ≤ mem_max c) ∧
  (∀ c c', hand_cold_hot_loop n c = Ok c' →
     mem_max c' = mem_max c ∧ count_test c' ≤ Z.max (count_test c) (mem_max c)) ∧
  (∀ c c', hand_hot n c = Ok c' →
     mem_max c' = mem_max c ∧ count_test c' ≤ Z.max (count_test c) (mem_max c)) ∧
  (∀ c c', hand_test n c = Ok c' →
     mem_max c' = mem_max c ∧ count_test c' ≤ Z.max (count_test c) (mem_max c)).
Proof.
  induction n as [|n (IHc & IHtl & IHhl & IHh & IHt)].
  - split_and!; intros c c' H; try discriminate H.
    + rewrite hand_cold_test_loop_eq in H. case_decide; [discriminate|]. inv_Ok H. lia.
    + rewrite hand_cold_hot_loop_eq in H. case_decide; [discriminate|]. inv_Ok H. lia.
  - split_and!; intros c c' H.
    + rewrite hand_cold_S in H.
      inv_bind H as h Hh. inv_bind H as c1 H1. inv_bind H as c2 H2.
      apply advance_cold_Ok in H2 as (pos & idx & _ & ->).
      apply IHhl in H as [Hm Ht]. simpl in Hm, Ht.
      assert (mem_max c1 = mem_max c ∧
              count_test c1 ≤ Z.max (count_test c) (mem_max c)) as [Hm1 Ht1].
      { destruct (decide (ptype (heap c (Value h)) = ptCold)); [|inv_Ok H1; lia].
        destruct (ref (heap c (Value h))); [inv_Ok H1; simpl; lia|].
        apply IHtl in H1 as (? & _ & ?). simpl in *. lia. }
      lia.
    + rewrite hand_cold_test_loop_eq in H. case_decide; [|inv_Ok H; lia].
      inv_bind H as c1 H1. apply IHt in H1 as [Hm1 Ht1].
      apply IHtl in H as (Hm & Ht & He). lia.
    + rewrite hand_cold_hot_loop_eq in H. case_decide; [|inv_Ok H; lia].
      inv_bind H as c1 H1. apply IHh in H1 as [Hm1 Ht1].
      apply IHhl in H as (Hm & Ht). lia.
    + rewrite hand_hot_S in H. inv_bind H as c1 H1.
      assert (mem_max c1 = mem_max c ∧
              count_test c1 ≤ Z.max (count_test c) (mem_max c)) as [Hm1 Ht1].
      { destruct (decide (hand_pos_hot c = hand_pos_test c)); [by apply IHt|].
        inv_Ok H1. lia. }
      inv_bind H as h Hh.
      apply advance_hot_Ok in H as (pos & idx & _ & ->). simpl.
      destruct (decide (ptype (heap c1 (Value h)) = ptHot)); [|lia].
      destruct (ref (heap c1 (Value h))); simpl; lia.
    + rewrite hand_test_S in H. inv_bind H as c1 H1.
      assert (mem_max c1 = mem_max c ∧
              count_test c1 ≤ Z.max (count_test c) (mem_max c)) as [Hm1 Ht1].
      { destruct (decide (hand_pos_test c = hand_pos_cold c)); [by apply IHc|].
        inv_Ok H1. lia. }
      inv_bind H as h Hh. inv_bind H as c2 H2.
      apply advance_test_Ok in H as (pos & idx & _ & ->). simpl.
      destruct (decide (ptype (heap c1 (Value h)) = ptTest)); [|inv_Ok H2; lia].
      apply test_remove_Ok in H2 as (h' & c3 & _ & Hd & R).
      destruct R as (_&_&_&_&_&_&_&_&Ht&Hmax&_).
      apply meta_del_Ok in Hd as (xe & xhot & xcold & xtest & _ & _ & _ & _ & ->).
      simpl in *. lia.
Qed.

Lemma evict_count_test n c c' :
  evict n c = Ok c' →
  mem_max c' = mem_max c ∧ count_test c' ≤ Z.max (count_test c) (mem_max c).
Proof.
  revert c. induction n as [|n IH]; intros c H; rewrite evict_eq in H;
    (case_decide; [|inv_Ok H; lia]).
  - discriminate.
  - inv_bind H as c1 H1. apply (proj1 (hands_count_test n)) in H1 as [Hm1 Ht1].
    apply IH in H as [Hm Ht]. lia.
Qed.

(** The two bounds after a call of [Set] that returns. *)
Lemma Cache_Set_counts fuel c k v c' :
  Cache_Set fuel c k v = Ok c' →
  count_hot c + count_cold c ≤ mem_max c → count_test c ≤ mem_max c →
  mem_max c' = mem_max c ∧
  count_hot c' + count_cold c' ≤ mem_max c' ∧ count_test c' ≤ mem_max c'.
Proof.
  intros H Hres Htest. apply Cache_Set_Ok in H as [(_ & c2 & c3 & H2 & H3 & ->) |
    [(e & _ & _ & c1 & c2 & c3 & H1 & H2 & H3 & ->) | (e & x & _ & _ & ->)]].
  - pose proof (evict_exit _ _ _ H2) as Hex.
    apply evict_count_test in H2 as [Hm2 Ht2].
    apply meta_add_link_Ok in H3 as (Hm3 & _ & Hh3 & Hc3 & Ht3 & _).
    simpl in *. lia.
  - apply meta_del_Ok in H1 as (e' & hot & cold & test & _ & _ & _ & _ & ->).
    pose proof (evict_exit _ _ _ H2) as Hex.
    apply evict_count_test in H2 as [Hm2 Ht2].
    apply meta_add_link_Ok in H3 as (Hm3 & _ & Hh3 & Hc3 & Ht3 & _).
    unfold promote_entry in *. simpl in *.
    destruct (decide (mem_cold c < mem_max c)); simpl in *; lia.
  - simpl. lia.
Qed.

Lemma reachable_counts allowed size c :
  0 ≤ size → reachable_by allowed size c →
  mem_max c = size ∧
  count_hot c + count_cold c ≤ mem_max c ∧ count_test c ≤ mem_max c.
Proof.
  intros Hsize. induction 1 as [|c k _ IH|c fuel k v c' _ IH _ HS].
  - simpl. lia.
  - unfold Cache_Get. destruct (index_lookup c k) as [e|]; [|done].
    by destruct (val (heap c (Value e))).
  - destruct IH as (Hm & Hr & Ht).
    apply Cache_Set_counts in HS as (Hm' & ? & ?); [|done..]. split; [congruence|done].
Qed.

(** ** The key index and the length of the list *)

Lemma index_ok_weaken c c' :
  index_ok c →
  meta c' = meta c → metaKeys c' = metaKeys c →
  (∀ e, e ∈ meta c → key (heap c' (Value e)) = key (heap c (Value e))) →
  (next_elem c ≤ next_elem c')%nat → (next_entry c ≤ next_entry c')%nat →
  index_ok c'.
Proof.
  intros [Hnd Hs Hc He Hp] Hm Hk Hh Hne Hnp.
  split; rewrite ?Hm, ?Hk; try done.
  - intros k oe Hoe. destruct (Hs k oe Hoe) as (e & -> & Hin & Hkey).
    exists e. by rewrite Hh.
  - intros e Hin. rewrite Hh by done. by apply Hc.
  - intros e Hin. apply He in Hin. lia.
  - intros e Hin. apply Hp in Hin. lia.
Qed.

Lemma index_ok_ext c c' :
  index_ok c →
  meta c' = meta c → metaKeys c' = metaKeys c →
  (∀ q, key (heap c' q) = key (heap c q)) →
  next_elem c' = next_elem c → next_entry c' = next_entry c →
  index_ok c'.
Proof.
  intros Hok Hm Hk Hh Hne Hnp.
  apply (index_ok_weaken c); try done; [by rewrite Hne | by rewrite Hnp].
Qed.

Lemma key_insert (h : nat → @metaEntry V) p m q :
  key m = key (h p) → key (<[p := m]> h q) = key (h q).
Proof.
  intros Hm. destruct (decide (p = q)) as [->|Hne].
  - by rewrite fn_lookup_insert.
  - by rewrite fn_lookup_insert_ne.
Qed.

(** Two elements of the list with the same entry are the same element. *)
Lemma index_ok_Value_inj c e1 e2 :
  index_ok c → e1 ∈ meta c → e2 ∈ meta c → Value e1 = Value e2 → e1 = e2.
Proof.
  intros [_ _ Hc _ _] H1 H2 Hv.
  pose proof (Hc e1 H1) as Hk1. pose proof (Hc e2 H2) as Hk2.
  rewrite Hv in Hk1. congruence.
Qed.

(** An index that is sound answers nil only for absent keys. *)
Lemma index_lookup_None c k :
  index_ok c → index_lookup c k = None → metaKeys c !! k = None.
Proof.
  intros [_ Hs _ _ _]. unfold index_lookup.
  destruct (metaKeys c !! k) as [oe|] eqn:Hk; [|done].
  destruct (Hs k oe Hk) as (e & -> & _). done.
Qed.

Lemma index_lookup_Some c k e :
  index_ok c → index_lookup c k = Some e →
  metaKeys c !! k = Some (Some e) ∧ e ∈ meta c ∧ key (heap c (Value e)) = k.
Proof.
  intros [_ Hs _ _ _]. unfold index_lookup.
  destruct (metaKeys c !! k) as [oe|] eqn:Hk; [|done].
  simpl. intros ->. destruct (Hs k _ Hk) as (e' & [= <-] & Hin & Hkey). done.
Qed.

(** [meta_del] removes exactly the element that the index holds for the key. *)
Lemma meta_del_index_ok c k c' :
  index_ok c → meta_del c k = Ok c' →
  ∃ e, metaKeys c !! k = Some (Some e) ∧ e ∈ meta c ∧
       meta c' = Remove (meta c) e ∧ metaKeys c' = delete k (metaKeys c) ∧
       Len (meta c') = Len (meta c) - 1 ∧
       index_ok c'.
Proof.
  intros Hok (e & hot & cold & test & Hk & _ & _ & _ & ->)%meta_del_Ok.
  destruct (index_sound c Hok k _ Hk) as (e' & [= <-] & Hin & Hkey).
  exists e. split_and!; try done.
  - simpl. unfold Len. pose proof (length_Remove _ _ (meta_NoDup c Hok) Hin). lia.
  - destruct Hok as [Hnd Hs Hc He Hp]. split; simpl.
    + by apply NoDup_Remove.
    + intros k' oe Hoe. apply lookup_delete_Some in Hoe as [Hne Hoe].
      destruct (Hs k' oe Hoe) as (x & -> & Hx & Hkx). exists x. split_and!; try done.
      apply elem_of_Remove. split; [done|]. intros ->. congruence.
    + intros x [Hx Hne]%elem_of_Remove. rewrite lookup_delete_ne; [by apply Hc|].
      intros Heq. apply Hne. pose proof (Hc x Hx) as Hkx. rewrite <- Heq in Hkx.
      congruence.
    + intros x [Hx _]%elem_of_Remove. by apply He.
    + intros x [Hx _]%elem_of_Remove. by apply Hp.
Qed.

(** [meta_add_link] adds exactly one element, for a key that was absent. *)
Lemma meta_add_link_index_ok c p c' :
  index_ok c → metaKeys c !! key (heap c p) = None → (p < next_entry c)%nat →
  meta_add_link c p = Ok c' →
  mkElement (next_elem c) p ∈ meta c' ∧
  (∀ x, x ∈ meta c' ↔ x = mkElement (next_elem c) p ∨ x ∈ meta c) ∧
  Len (meta c') = Len (meta c) + 1 ∧
  index_ok c'.
Proof.
  intros Hok Hk Hp H. pose proof H as H0.
  apply meta_add_link_Ok in H as (_&_&_&_&_& Hheap & Hnp & Hne & Hkeys & Hmeta & _).
  set (elt := mkElement (next_elem c) p) in *.
  assert (elt ∉ meta c) as Hfresh.
  { intros Hin. apply (elems_fresh c Hok) in Hin. simpl in Hin. lia. }
  assert (meta c' ≡ₚ elt :: meta c) as Hperm.
  { destruct (hand_pos_hot c) as [h|]; [|by rewrite Hmeta].
    destruct Hmeta as [Hin ->]. by apply insert_before_perm. }
  assert (∀ x, x ∈ meta c' ↔ x = elt ∨ x ∈ meta c) as Hel.
  { intros x. rewrite Hperm. apply elem_of_cons. }
  split_and!; try done.
  - apply Hel. by left.
  - unfold Len. rewrite Hperm. simpl. lia.
  - destruct Hok as [Hnd Hs Hc He Hpf]. split.
    + rewrite Hperm. apply list.NoDup_cons. done.
    + intros k oe. rewrite Hkeys, Hheap. intros Hoe.
      apply lookup_insert_Some in Hoe as [[<- <-]|[Hne' Hoe]].
      * exists elt. split_and!; try done. apply Hel. by left.
      * destruct (Hs k oe Hoe) as (x & -> & Hx & Hkx). exists x. split_and!; try done.
        apply Hel. by right.
    + intros x [->|Hx]%Hel; rewrite Hkeys, Hheap.
      * apply lookup_insert_eq.
      * rewrite lookup_insert_ne; [by apply Hc|].
        intros Heq. pose proof (Hc x Hx) as Hkx. rewrite <- Heq in Hkx. congruence.
    + intros x [->|Hx]%Hel; rewrite Hne; [simpl; lia|].
      apply He in Hx. lia.
    + intros x [->|Hx]%Hel; rewrite Hnp; [done|]. by apply Hpf.
Qed.

Lemma pending_same d k p c c' :
  same_but_hands c c' → pending d k p c → pending d k p c'.
Proof.
  intros (Hmax & Hcold & Hm & Hk & Hch & Hcc & Hct & Hh & Hne & Hnp).
  unfold pending, length_offset. intros (Hok & Hlen & Hkk & Hkp & Hp).
  rewrite Hm, Hk, Hch, Hcc, Hct, Hh, Hnp. split_and!; try done.
  eapply index_ok_ext; [exact Hok|done..| |done|done]. intros q. by rewrite Hh.
Qed.

Lemma pending_steps d k p : step_invariant (@pending V d k p).
Proof.
  unfold step_invariant, pending, length_offset. split_and!.
  - intros c h (Hok & Hlen & Hk & Hkp & Hp) _ _ _. split_and!; try done.
    + eapply index_ok_ext; [exact Hok|done..| |done|done].
      intros q. simpl. by apply key_insert.
    + simpl. lia.
    + simpl. by rewrite key_insert.
  - intros c h (Hok & Hlen & Hk & Hkp & Hp) _ _ _. split_and!; try done.
    + eapply index_ok_ext; [exact Hok|done..| |done|done].
      intros q. simpl. by apply key_insert.
    + simpl. lia.
    + simpl. by rewrite key_insert.
  - intros c c' H Ha. eapply pending_same; [|exact H]. by apply advance_cold_same.
  - intros c h (Hok & Hlen & Hk & Hkp & Hp) _ _ _. split_and!; try done.
    + eapply index_ok_ext; [exact Hok|done..| |done|done].
      intros q. simpl. by apply key_insert.
    + simpl. by rewrite key_insert.
  - intros c h (Hok & Hlen & Hk & Hkp & Hp) _ _ _. split_and!; try done.
    + eapply index_ok_ext; [exact Hok|done..| |done|done].
      intros q. simpl. by apply key_insert.
    + simpl. lia.
    + simpl. by rewrite key_insert.
  - intros c c' H Ha. eapply pending_same; [|exact H]. by apply advance_hot_same.
  - intros c h c' (Hok & Hlen & Hk & Hkp & Hp) _ _ (h' & c1 & _ & Hd & R)%test_remove_Ok.
    destruct R as (Hm & Hks & Hh & _ & _ & _ & Hch & Hcc & Hct & _ & _ & Hne & Hnp).
    pose proof Hd as Hd0.
    apply meta_del_Ok in Hd0 as (xe & xhot & xcold & xtest & _ & _ & _ & _ & Hc1).
    apply (meta_del_index_ok _ _ _ Hok) in Hd as (e & _ & _ & _ & Hkd & Hl & Hok1).
    split_and!.
    + eapply index_ok_ext; [exact Hok1|done| done| |done|done].
      intros q. by rewrite Hh.
    + rewrite Hm, Hl, Hch, Hcc, Hct. rewrite Hc1. simpl. lia.
    + rewrite Hks, Hkd. by apply lookup_delete_None; right.
    + rewrite Hh, Hc1. done.
    + rewrite Hnp, Hc1. done.
  - intros c c' H Ha. eapply pending_same; [|exact H]. by apply advance_test_same.
Qed.

(** The structural invariant is kept by the public calls. *)
Lemma Cache_Set_ring_ok fuel c k v c' :
  Cache_Set fuel c k v = Ok c' → ring_ok c → ring_ok c'.
Proof.
  intros H [Hok Hlen]. unfold length_offset in Hlen.
  apply Cache_Set_Ok in H as [(Hk & c2 & c3 & H2 & H3 & ->) |
    [(e & Hk & _ & c1 & c2 & c3 & H1 & H2 & H3 & ->) | (e & x & _ & _ & ->)]].
  - apply (index_lookup_None _ _ Hok) in Hk.
    assert (pending 0 k (next_entry c) (alloc_entry (mkMetaEntry ptCold k v false) c)) as Hp.
    { unfold pending, length_offset. simpl. split_and!; try done.
      - apply (index_ok_weaken c); simpl; [exact Hok|done|done| |lia|lia].
        intros e He. apply (entries_fresh c Hok) in He.
        rewrite fn_lookup_insert_ne; [done|lia].
      - by rewrite fn_lookup_insert.
      - lia. }
    apply (evict_preserve _ (pending_steps 0 k (next_entry c))) in H2; [|exact Hp].
    destruct H2 as (Hok2 & Hlen2 & Hk2 & Hkp2 & Hp2).
    pose proof H3 as H3'.
    apply meta_add_link_Ok in H3' as (_&_&Hch&Hcc&Hct&Hh&Hnp&Hne&_).
    apply meta_add_link_index_ok in H3 as (_ & _ & Hl3 & Hok3);
      [|done|by rewrite Hkp2|done].
    split.
    + by apply (index_ok_ext c3).
    + unfold length_offset in *. simpl. lia.
  - apply (index_lookup_Some _ _ _ Hok) in Hk as (Hk & Hin & Hkey).
    rewrite Hkey in H1.
    assert (index_ok (promote_entry (Value e) v c)) as Hok0.
    { apply (index_ok_ext c); try done; unfold promote_entry;
        try (by case_decide).
      intros q. simpl. rewrite key_insert; by case_decide. }
    pose proof H1 as H1'.
    apply meta_del_Ok in H1' as (xe & xhot & xcold & xtest & _ & _ & _ & _ & Hc1).
    apply (meta_del_index_ok _ _ _ Hok0) in H1 as (e' & Hke' & _ & Hm1 & Hk1 & Hl1 & Hok1).
    assert (pending 0 k (Value e) c1) as Hp.
    { unfold pending, length_offset. split_and!; try done.
      - rewrite Hl1. rewrite Hc1. unfold promote_entry. simpl.
        case_decide; simpl; lia.
      - rewrite Hk1. apply lookup_delete_eq.
      - rewrite Hc1. unfold promote_entry. simpl.
        rewrite key_insert by (by case_decide). by case_decide.
      - rewrite Hc1. unfold promote_entry. simpl.
        apply (entries_fresh c Hok) in Hin. by case_decide. }
    apply (evict_preserve _ (pending_steps 0 k (Value e))) in H2; [|exact Hp].
    destruct H2 as (Hok2 & Hlen2 & Hk2 & Hkp2 & Hp2).
    pose proof H3 as H3'.
    apply meta_add_link_Ok in H3' as (_&_&Hch&Hcc&Hct&Hh&Hnp&Hne&_).
    apply meta_add_link_index_ok in H3 as (_ & _ & Hl3 & Hok3);
      [|done|by rewrite Hkp2|done].
    split.
    + by apply (index_ok_ext c3).
    + unfold length_offset in *. simpl. lia.
  - split.
    + apply (index_ok_ext c); try done. intros q. simpl. by apply key_insert.
    + done.
Qed.

Lemma Cache_Get_ring_ok c k : ring_ok c → ring_ok (Cache_Get c k).1.
Proof.
  unfold Cache_Get. intros [Hok Hlen].
  destruct (index_lookup c k) as [e|]; [|done].
  destruct (val (heap c (Value e))); [|done].
  split; [|done].
  apply (index_ok_ext c); try done. intros q. simpl. by apply key_insert.
Qed.

Lemma reachable_ring_ok allowed size c : reachable_by allowed size c → ring_ok c.
Proof.
  induction 1 as [|c k _ IH|c fuel k v c' _ IH _ HS].
  - split; [|done]. split; simpl; try done.
    + apply NoDup_nil_2.
    + intros e He. by apply elem_of_nil in He.
    + intros e He. by apply elem_of_nil in He.
    + intros e He. by apply elem_of_nil in He.
  - by apply Cache_Get_ring_ok.
  - by eapply Cache_Set_ring_ok.
Qed.


(** ** Get *)

(** C4. [Get] leaves the list, the hands with their indices, the counters,
    the sizing and the key index as they are; the only entry that can
    change is the one found for the key, and only by having its reference
    bit set when it holds a value. *)
Theorem Get_frame c k :
  meta (Cache_Get c k).1 = meta c ∧
  metaKeys (Cache_Get c k).1 = metaKeys c ∧
  hand_pos_hot (Cache_Get c k).1 = hand_pos_hot c ∧
  hand_pos_cold (Cache_Get c k).1 = hand_pos_cold c ∧
  hand_pos_test (Cache_Get c k).1 = hand_pos_test c ∧
  hand_idx_hot (Cache_Get c k).1 = hand_idx_hot c ∧
  hand_idx_cold (Cache_Get c k).1 = hand_idx_cold c ∧
  hand_idx_test (Cache_Get c k).1 = hand_idx_test c ∧
  count_hot (Cache_Get c k).1 = count_hot c ∧
  count_cold (Cache_Get c k).1 = count_cold c ∧
  count_test (Cache_Get c k).1 = count_test c ∧
  mem_max (Cache_Get c k).1 = mem_max c ∧
  mem_cold (Cache_Get c k).1 = mem_cold c ∧
  ∀ q, heap (Cache_Get c k).1 q = heap c q ∨
       ∃ e x, index_lookup c k = Some e ∧ q = Value e ∧
              val (heap c q) = Some x ∧
              heap (Cache_Get c k).1 q = set_ref true (heap c q).
Proof.
  unfold Cache_Get. destruct (index_lookup c k) as [e|] eqn:He.
  - destruct (val (heap c (Value e))) as [x|] eqn:Hx.
    + simpl. split_and!; try done. intros q.
      destruct (decide (Value e = q)) as [<-|Hne].
      * right. exists e, x. by rewrite fn_lookup_insert.
      * left. by rewrite fn_lookup_insert_ne.
    + simpl. split_and!; try done. by left.
  - simpl. split_and!; try done. by left.
Qed.

(** What [Get] answers, for every cache: a miss exactly when the index has
    no element for the key or the entry found holds no value; otherwise the
    value, with the reference bit of the entry set. *)
Lemma Get_result c k :
  ((Cache_Get c k).2 = None ↔
     index_lookup c k = None ∨
     ∃ e, index_lookup c k = Some e ∧ val (heap c (Value e)) = None) ∧
  (∀ e x, index_lookup c k = Some e → val (heap c (Value e)) = Some x →
     Cache_Get c k = (update_entry (Value e) (set_ref true) c, Some x) ∧
     ref (heap (Cache_Get c k).1 (Value e)) = true) ∧
  ((Cache_Get c k).2 = None → (Cache_Get c k).1 = c).
Proof.
  unfold Cache_Get. destruct (index_lookup c k) as [e|] eqn:He.
  - destruct (val (heap c (Value e))) as [x|] eqn:Hx; simpl.
    + split_and!.
      * split; [done|]. intros [?|(e' & [= <-] & ?)]; congruence.
      * intros e' x' [= <-] Hv. rewrite Hx in Hv. injection Hv as <-.
        split; [done|]. by rewrite fn_lookup_insert.
      * done.
    + split_and!.
      * split; [|done]. intros _. right. by exists e.
      * intros e' x' [= <-]. congruence.
      * done.
  - simpl. split_and!; [split; [by left|done] |done|done].
Qed.

(** [Get] changes no entry, except for a reference bit that it sets. *)
Lemma Cache_Get_heap c k q :
  heap (Cache_Get c k).1 q = heap c q ∨
  heap (Cache_Get c k).1 q = set_ref true (heap c q).
Proof.
  unfold Cache_Get. destruct (index_lookup c k) as [e|]; [|by left].
  destruct (val (heap c (Value e))); [|by left]. simpl.
  destruct (decide (Value e = q)) as [<-|Hne].
  - right. by rewrite fn_lookup_insert.
  - left. by rewrite fn_lookup_insert_ne.
Qed.

(** In every reachable cache an entry of type Test holds no value. *)
Lemma test_absent_steps : step_invariant (@test_absent V).
Proof.
  unfold step_invariant, test_absent. split_and!.
  - intros c h H _ _ _ q. simpl. destruct (decide (Value h = q)) as [<-|Hne].
    + by rewrite fn_lookup_insert.
    + rewrite fn_lookup_insert_ne by done. apply H.
  - intros c h H _ _ _ q. simpl. destruct (decide (Value h = q)) as [<-|Hne].
    + by rewrite fn_lookup_insert.
    + rewrite fn_lookup_insert_ne by done. apply H.
  - intros c c' H (pos & idx & _ & ->)%advance_cold_Ok. exact H.
  - intros c h H _ Hty _ q. simpl. destruct (decide (Value h = q)) as [<-|Hne].
    + rewrite fn_lookup_insert. simpl. congruence.
    + rewrite fn_lookup_insert_ne by done. apply H.
  - intros c h H _ _ _ q. simpl. destruct (decide (Value h = q)) as [<-|Hne].
    + by rewrite fn_lookup_insert.
    + rewrite fn_lookup_insert_ne by done. apply H.
  - intros c c' H (pos & idx & _ & ->)%advance_hot_Ok. exact H.
  - intros c h c' H _ _ (h' & c1 & _ & Hd & R)%test_remove_Ok.
    destruct R as (_ & _ & Hh & _).
    apply meta_del_Ok in Hd as (xe & xhot & xcold & xtest & _ & _ & _ & _ & ->).
    intros q. rewrite Hh. apply H.
  - intros c c' H (pos & idx & _ & ->)%advance_test_Ok. exact H.
Qed.

Lemma Cache_Set_test_absent fuel c k v c' :
  Cache_Set fuel c k v = Ok c' → test_absent c → test_absent c'.
Proof.
  intros H Ht. apply Cache_Set_Ok in H as [(Hk & c2 & c3 & H2 & H3 & ->) |
    [(e & Hk & _ & c1 & c2 & c3 & H1 & H2 & H3 & ->) | (e & x & _ & Hx & ->)]].
  - apply (evict_preserve _ test_absent_steps) in H2.
    + apply meta_add_link_Ok in H3 as (_&_&_&_&_&Hh&_).
      intros q. simpl. rewrite Hh. apply H2.
    + intros q. simpl. destruct (decide (next_entry c = q)) as [<-|Hne].
      * by rewrite fn_lookup_insert.
      * rewrite fn_lookup_insert_ne by done. apply Ht.
  - apply meta_del_Ok in H1 as (xe & xhot & xcold & xtest & _ & _ & _ & _ & ->).
    apply (evict_preserve _ test_absent_steps) in H2.
    + apply meta_add_link_Ok in H3 as (_&_&_&_&_&Hh&_).
      intros q. simpl. rewrite Hh. apply H2.
    + intros q. unfold promote_entry. simpl.
      destruct (decide (Value e = q)) as [<-|Hne].
      * by rewrite fn_lookup_insert.
      * rewrite fn_lookup_insert_ne by done. case_decide; apply Ht.
  - intros q. simpl. destruct (decide (Value e = q)) as [<-|Hne].
    + rewrite fn_lookup_insert. simpl. intros Hty. apply Ht in Hty. congruence.
    + rewrite fn_lookup_insert_ne by done. apply Ht.
Qed.

Lemma reachable_test_absent allowed size c :
  reachable_by allowed size c → test_absent c.
Proof.
  induction 1 as [|c k _ IH|c fuel k v c' _ IH _ HS].
  - by intros q.
  - intros q. destruct (Cache_Get_heap c k q) as [->| ->]; [apply IH|].
    simpl. apply IH.
  - by eapply Cache_Set_test_absent.
Qed.

(** C3, as the code has it. [Get] answers a miss exactly when the index
    has no element for the key or the entry found holds no value (which
    is the case of every entry of type Test of a reachable cache, and also
    of a resident entry whose stored value is nil); otherwise it sets the
    reference bit of the entry and answers the stored value. *)
Theorem Get_miss_iff_absent_or_valueless c k :
  ((Cache_Get c k).2 = None ↔
     index_lookup c k = None ∨
     ∃ e, index_lookup c k = Some e ∧ val (heap c (Value e)) = None) ∧
  (∀ e x, index_lookup c k = Some e → val (heap c (Value e)) = Some x →
     Cache_Get c k = (update_entry (Value e) (set_ref true) c, Some x) ∧
     ref (heap (Cache_Get c k).1 (Value e)) = true) ∧
  (∀ size e, reachable size c → index_lookup c k = Some e →
     ptype (heap c (Value e)) = ptTest → (Cache_Get c k).2 = None).
Proof.
  destruct (Get_result c k) as (Hiff & Hhit & _). split_and!; [done|done|].
  intros size e Hr He Hty. apply Hiff. right. exists e. split; [done|].
  by apply (reachable_test_absent _ _ _ Hr).
Qed.

(** ** Construction *)

(** C9, as the code has it. [New] checks nothing: for every size, also
    below one, it returns the cache with that capacity, an empty list and
    index, nil hands and all counters zero, and [Get] on it answers a miss
    for every key.  No size is refused. *)
Theorem New_unchecked size k :
  mem_max (@New V size) = size ∧ mem_cold (@New V size) = size ∧
  meta (@New V size) = [] ∧ metaKeys (@New V size) = ∅ ∧
  hand_pos_hot (@New V size) = None ∧ hand_pos_cold (@New V size) = None ∧
  hand_pos_test (@New V size) = None ∧
  hand_idx_hot (@New V size) = 0 ∧ hand_idx_cold (@New V size) = 0 ∧
  hand_idx_test (@New V size) = 0 ∧
  count_hot (@New V size) = 0 ∧ count_cold (@New V size) = 0 ∧
  count_test (@New V size) = 0 ∧
  Cache_Get (@New V size) k = (New size, None).
Proof. by split_and!. Qed.

(** On a cache made with a size below one, the first [Set] calls [evict],
    whose [hand_cold] reads through the nil cold hand. *)
Lemma Set_below_size_one size fuel k (v : option V) :
  size < 1 → (2 ≤ fuel)%nat → Cache_Set fuel (New size) k v = Panic.
Proof.
  intros Hsize Hfuel. destruct fuel as [|[|n]]; [lia|lia|].
  unfold Cache_Set, index_lookup. simpl. rewrite lookup_empty. simpl.
  unfold meta_add. rewrite evict_eq. simpl.
  by rewrite decide_True by lia.
Qed.

(** ** Storing the nil value *)

(** C10. In a cache with free capacity, [Set] of a fresh key with the nil
    value links an entry of type Cold that is counted in [count_cold];
    [Get] of that key answers a miss and changes nothing, so the reference
    bit stays clear. *)
Theorem Set_nil_then_Get_misses fuel c k c' :
  count_hot c + count_cold c < mem_max c →
  index_lookup c k = None →
  Cache_Set fuel c k None = Ok c' →
  Cache_Get c' k = (c', None) ∧
  count_cold c' = count_cold c + 1 ∧
  ∃ e, index_lookup c' k = Some e ∧ e ∈ meta c' ∧
       heap c' (Value e) = mkMetaEntry ptCold k None false.
Proof.
  intros Hfree Hk H.
  apply Cache_Set_Ok in H as [(_ & c2 & c3 & H2 & H3 & ->) |
    [(e & Hk' & _) | (e & x & Hk' & _)]]; [|congruence..].
  rewrite evict_eq in H2. rewrite decide_False in H2 by (simpl; lia).
  injection H2 as <-.
  apply meta_add_link_Ok in H3 as (_&_&_&Hcc&_&Hh&_&_&Hkeys&Hmeta&_).
  simpl in Hkeys, Hh, Hcc, Hmeta. rewrite fn_lookup_insert in Hkeys. simpl in Hkeys.
  set (elt := mkElement (next_elem c) (next_entry c)) in *.
  assert (index_lookup (set_count_cold (count_cold c3 + 1) c3) k = Some elt) as Hl.
  { unfold index_lookup. simpl. by rewrite Hkeys, lookup_insert_eq. }
  assert (heap c3 (Value elt) = mkMetaEntry ptCold k None false) as He.
  { rewrite Hh. simpl. by rewrite fn_lookup_insert. }
  split_and!.
  - unfold Cache_Get. rewrite Hl.
    change (heap (set_count_cold (count_cold c3 + 1) c3)) with (heap c3).
    by rewrite He.
  - simpl. lia.
  - exists elt. split_and!; try done.
    change (elt ∈ meta c3).
    destruct (hand_pos_hot c) as [h|].
    + destruct Hmeta as [Hin ->]. rewrite insert_before_perm by done.
      apply list_elem_of_here.
    + rewrite Hmeta. apply list_elem_of_here.
Qed.

(** ** Runs stay within the reachable caches *)

Lemma run_reachable allowed size fuel ops c c' :
  reachable_by allowed size c →
  Forall (op_allowed allowed) ops →
  run fuel c ops = Ok c' →
  reachable_by allowed size c'.
Proof.
  intros Hr Hops. revert c Hr.
  induction Hops as [|o ops Ho _ IH]; intros c Hr H; simpl in H.
  - by inv_Ok H.
  - destruct o as [k|k v].
    + apply (IH (Cache_Get c k).1); [by apply reach_Get | done].
    + inv_bind H as c1 H1. apply (IH c1); [|done]. by eapply reach_Set.
Qed.

(** ** Populations *)

Lemma population_cons (h : nat → @metaEntry V) e l t :
  population h (e :: l) t =
    (if decide (ptype (h (Value e)) = t) then 1 else 0) + population h l t.
Proof.
  unfold population. destruct (decide (ptype (h (Value e)) = t)) as [Ht|Ht].
  - rewrite filter_cons_True by done. simpl length. lia.
  - rewrite filter_cons_False by done. lia.
Qed.

Lemma population_nonneg (h : nat → @metaEntry V) l t : 0 ≤ population h l t.
Proof. unfold population. lia. Qed.

Lemma population_perm (h : nat → @metaEntry V) l l' t :
  l ≡ₚ l' → population h l t = population h l' t.
Proof.
  induction 1 as [|x l1 l2 _ IH|x y l1|l1 l2 l3 _ IH1 _ IH2];
    rewrite ?population_cons; try lia; congruence.
Qed.

Lemma population_ext (h h' : nat → @metaEntry V) l t :
  (∀ e, e ∈ l → ptype (h' (Value e)) = ptype (h (Value e))) →
  population h' l t = population h l t.
Proof.
  induction l as [|x r IH]; intros Hh; [done|].
  rewrite !population_cons, Hh by apply list_elem_of_here.
  rewrite IH; [done|]. intros e He. apply Hh. by apply list_elem_of_further.
Qed.

Lemma Remove_perm l e : NoDup l → e ∈ l → l ≡ₚ e :: Remove l e.
Proof.
  unfold Remove. induction l as [|x r IH]; [by intros _ ?%elem_of_nil|].
  intros Hnd Hin. apply list.NoDup_cons in Hnd as [Hx Hnd].
  destruct (decide (x = e)) as [->|Hne].
  - rewrite filter_cons_False by (intros ?; done). f_equiv.
    clear IH Hin Hnd. induction r as [|y r IH]; [done|].
    apply not_elem_of_cons in Hx as [Hy Hx].
    rewrite filter_cons_True by congruence. f_equiv. by apply IH.
  - rewrite filter_cons_True by done.
    apply elem_of_cons in Hin as [->|Hin]; [done|].
    rewrite (IH Hnd Hin) at 1. apply Permutation_swap.
Qed.

Lemma population_Remove (h : nat → @metaEntry V) l e t :
  NoDup l → e ∈ l →
  population h (Remove l e) t =
    population h l t - (if decide (ptype (h (Value e)) = t) then 1 else 0).
Proof.
  intros Hnd Hin.
  rewrite (population_perm h l (e :: Remove l e)) by by apply Remove_perm.
  rewrite population_cons. lia.
Qed.

(** Retyping the entry of one element moves it from one population to
    another. *)
Lemma population_update (h : nat → @metaEntry V) l e m' t :
  NoDup l → e ∈ l → (∀ x, x ∈ l → Value x = Value e → x = e) →
  population (<[Value e := m']> h) l t =
    population h l t - (if decide (ptype (h (Value e)) = t) then 1 else 0)
                     + (if decide (ptype m' = t) then 1 else 0).
Proof.
  intros Hnd Hin Hinj.
  rewrite (population_perm _ l (e :: Remove l e)) by by apply Remove_perm.
  rewrite population_cons, fn_lookup_insert.
  rewrite (population_ext h).
  - rewrite population_Remove by done. lia.
  - intros x [Hx Hne]%elem_of_Remove. rewrite fn_lookup_insert_ne; [done|].
    intros Heq. apply Hne. by apply Hinj.
Qed.

Lemma population_nil (h : nat → @metaEntry V) t : population h [] t = 0.
Proof. done. Qed.

(** The counters of a census, one by one. *)
Lemma census_counts c :
  census c ↔
  count_hot c = population (heap c) (meta c) ptHot ∧
  count_cold c = population (heap c) (meta c) ptCold ∧
  count_test c = population (heap c) (meta c) ptTest.
Proof.
  split.
  - intros H. split_and!; [apply (H ptHot) | apply (H ptCold) | apply (H ptTest)].
  - intros (Hh & Hc & Ht) []; done.
Qed.

(** ** The hands during an eviction *)

(** Where [meta_del] and [hand_test] leave a hand that was on the removed
    element [e]: on another element, or on [e] itself when [e] was the only
    element of the list. *)
Lemma retreat_live l e :
  NoDup l → e ∈ l →
  hand_live (Remove l e)
    (match Prev l e with Some p => Some p | None => Back l end) ∨
  (match Prev l e with Some p => Some p | None => Back l end) = Some e ∧
    Remove l e = [].
Proof.
  intros Hnd Hin. destruct (Prev l e) as [p|] eqn:Hp.
  - left. intros y [= <-]. apply elem_of_Remove.
    split; [by eapply Prev_elem_of | by eapply Prev_ne].
  - pose proof (Prev_None_Front l e Hin Hp) as Hf.
    destruct (Back l) as [b|] eqn:Hb; [|by left].
    destruct (decide (b = e)) as [->|Hne].
    + right. split; [done|]. rewrite (Back_Front_single l e) by done.
      apply Remove_single.
    + left. intros y [= <-]. apply elem_of_Remove.
      split; [by apply Back_elem_of | done].
Qed.

Lemma del_hand_Ok l e hand x :
  del_hand l (Some e) hand = Ok x →
  (hand ≠ Some e ∧ x = hand) ∨
  (hand = Some e ∧ x = match Prev l e with Some p => Some p | None => Back l end).
Proof.
  unfold del_hand, retreat. destruct (decide (Some e = hand)) as [<-|Hne].
  - simpl. destruct (Prev l e); intros [= <-]; by right.
  - intros [= <-]. left. split; [congruence|done].
Qed.

Lemma del_hand_live l e hand x :
  NoDup l → e ∈ l → hand_live l hand →
  del_hand l (Some e) hand = Ok x →
  hand_live (Remove l e) x ∨ (x = Some e ∧ Remove l e = []).
Proof.
  intros Hnd Hin Hl [[Hne ->]|[-> ->]]%del_hand_Ok.
  - left. intros y ->. apply elem_of_Remove. split; [by apply Hl | congruence].
  - by apply retreat_live.
Qed.

Lemma hand_ok_live c e0 pos :
  e0 ∈ meta c → hand_ok c pos → hand_live (meta c) pos.
Proof.
  intros H0 Hok e He. destruct (Hok e He) as [?|[Hnil _]]; [done|].
  rewrite Hnil in H0. by apply elem_of_nil in H0.
Qed.

Lemma hand_live_ok c pos : hand_live (meta c) pos → hand_ok c pos.
Proof. intros Hl e He. left. by apply Hl. Qed.

(** A hand on an entry that is not of type Test is on the list. *)
Lemma hand_ok_resident c h :
  hand_ok c (Some h) → ptype (heap c (Value h)) ≠ ptTest → h ∈ meta c.
Proof. intros Hok Hty. destruct (Hok h eq_refl) as [?|[_ ?]]; done. Qed.

Lemma hand_ok_moved c c' old new :
  meta c' = meta c → heap c' = heap c →
  hand_ok c old → hand_moved (meta c) old new → hand_ok c' new.
Proof.
  intros Hm Hh Hok [->|[->|(e & -> & He)]].
  - intros e He. rewrite Hm, Hh. by apply Hok.
  - by intros e.
  - intros e' [= <-]. left. by rewrite Hm.
Qed.

(** The entry that waits to be linked is not the entry of an element of
    the list. *)
Lemma pending_not_linked d k p c e :
  pending d k p c → e ∈ meta c → Value e ≠ p.
Proof.
  intros (Hok & _ & Hk & Hkp & _) He Hv.
  pose proof (index_complete c Hok e He) as Hc. rewrite Hv, Hkp in Hc. congruence.
Qed.

(** A step that retypes the entry of an element of the list. *)
Lemma settled_retype k p m0 c c' h m' :
  pending 0 k p c → settled p m0 c → h ∈ meta c →
  meta c' = meta c →
  hand_pos_hot c' = hand_pos_hot c → hand_pos_cold c' = hand_pos_cold c →
  hand_pos_test c' = hand_pos_test c →
  heap c' = <[Value h := m']> (heap c) →
  (∀ t, count_of t c' =
        count_of t c - (if decide (ptype (heap c (Value h)) = t) then 1 else 0)
                     + (if decide (ptype m' = t) then 1 else 0)) →
  settled p m0 c'.
Proof.
  intros Hp (Hcen & (Hhot & Hcold & Htest) & Hm0) Hin Hm Hh Hc Ht Hheap Hcount.
  pose proof Hp as (Hok & _).
  split_and!.
  - intros t. rewrite Hcount, Hheap, Hm, population_update, Hcen; try done.
    + apply (meta_NoDup c Hok).
    + intros x Hx Hv. by apply (index_ok_Value_inj c).
  - split_and!; rewrite ?Hh, ?Hc, ?Ht; apply hand_live_ok; rewrite Hm;
      by apply (hand_ok_live c h).
  - rewrite Hheap, fn_lookup_insert_ne; [done|]. by eapply pending_not_linked.
Qed.

(** A step that moves one hand. *)
Lemma settled_advance p m0 c c' :
  settled p m0 c → same_but_hands c c' →
  hand_moved (meta c) (hand_pos_hot c) (hand_pos_hot c') →
  hand_moved (meta c) (hand_pos_cold c) (hand_pos_cold c') →
  hand_moved (meta c) (hand_pos_test c) (hand_pos_test c') →
  settled p m0 c'.
Proof.
  intros (Hcen & (Hhot & Hcold & Htest) & Hm0) S Mh Mc Mt.
  destruct S as (_ & _ & Hm & _ & Hch & Hcc & Hct & Hh & _).
  split_and!.
  - intros t. rewrite Hm, Hh, <- Hcen. by destruct t.
  - split_and!.
    + exact (hand_ok_moved c c' _ _ Hm Hh Hhot Mh).
    + exact (hand_ok_moved c c' _ _ Hm Hh Hcold Mc).
    + exact (hand_ok_moved c c' _ _ Hm Hh Htest Mt).
  - by rewrite Hh.
Qed.

Lemma hand_ok_removed c c' h x :
  meta c' = Remove (meta c) h → heap c' = heap c →
  ptype (heap c (Value h)) = ptTest →
  hand_live (Remove (meta c) h) x ∨ (x = Some h ∧ Remove (meta c) h = []) →
  hand_ok c' x.
Proof.
  intros Hm Hh Hty [Hl|[-> Hnil]] e He.
  - left. rewrite Hm. by apply Hl.
  - injection He as <-. right. by rewrite Hm, Hh.
Qed.

(** The removal step of [hand_test] on a list that agrees with the index
    removes the element under the test hand. *)
Lemma test_remove_element c h c' :
  index_ok c → hand_ok c (Some h) → hand_pos_test c = Some h →
  test_remove (heap c (Value h)) c = Ok c' →
  h ∈ meta c ∧ meta c' = Remove (meta c) h ∧ heap c' = heap c ∧
  metaKeys c' = delete (key (heap c (Value h))) (metaKeys c) ∧
  count_hot c' = count_hot c ∧ count_cold c' = count_cold c ∧
  count_test c' = count_test c - 1 ∧
  next_elem c' = next_elem c ∧ next_entry c' = next_entry c ∧
  hand_pos_test c' =
    match Prev (meta c) h with Some p => Some p | None => Back (meta c) end ∧
  del_hand (meta c) (Some h) (hand_pos_hot c) = Ok (hand_pos_hot c') ∧
  del_hand (meta c) (Some h) (hand_pos_cold c) = Ok (hand_pos_cold c').
Proof.
  intros Hok Hhand Hh (h' & c1 & Hh' & Hd & R)%test_remove_Ok.
  rewrite Hh in Hh'. injection Hh' as <-.
  destruct R as (Hm & Hks & Hheap & Hhot & Hcold & Htest & Hch & Hcc & Hct & _ & _ & Hne & Hnp).
  apply meta_del_Ok in Hd as (e & hot & cold & test & Hk & Dh & Dc & Dt & ->).
  destruct (index_sound c Hok _ _ Hk) as (e' & [= <-] & He & Hke).
  assert (h ∈ meta c) as Hin.
  { destruct (Hhand h eq_refl) as [?|[Hnil _]]; [done|].
    rewrite Hnil in He. by apply elem_of_nil in He. }
  assert (e = h) as ->.
  { pose proof (index_complete c Hok h Hin) as Hc. congruence. }
  simpl in *. rewrite Hhot, Hcold. by split_and!.
Qed.

(** The counters stay the populations, the hands stay in order and the
    waiting entry stays as it is through every step of the hands. *)
Lemma evicting_steps k p m0 :
  ptype m0 ≠ ptTest → step_invariant (@evicting V k p m0).
Proof.
  intros Hm0.
  destruct (pending_steps 0 k p) as (P1 & P2 & P3 & P4 & P5 & P6 & P7 & P8).
  unfold step_invariant, evicting. split_and!.
  - intros c h [Hp Hs] Hh Hty Hr. split; [by eapply P1|].
    assert (h ∈ meta c) as Hin.
    { apply hand_ok_resident; [|congruence].
      destruct Hs as (_ & (_ & Hc & _) & _). by rewrite <- Hh. }
    eapply (settled_retype k p m0 c _ h); try done.
    intros t. simpl. rewrite Hty. destruct t; simpl; repeat case_decide; try done; lia.
  - intros c h [Hp Hs] Hh Hty Hr. split; [by eapply P2|].
    assert (h ∈ meta c) as Hin.
    { apply hand_ok_resident; [|congruence].
      destruct Hs as (_ & (_ & Hc & _) & _). by rewrite <- Hh. }
    eapply (settled_retype k p m0 c _ h); try done.
    intros t. simpl. rewrite Hty. destruct t; simpl; repeat case_decide; try done; lia.
  - intros c c' [Hp Hs] Ha. split; [by eapply P3|].
    pose proof (advance_cold_same _ _ Ha) as S.
    apply advance_cold_Ok in Ha as (pos & idx & Ha & ->).
    apply (settled_advance p m0 c); try done; simpl;
      [apply hand_moved_refl | by eapply advance_moved | apply hand_moved_refl].
  - intros c h [Hp Hs] Hh Hty Hr. split; [by eapply P4|].
    assert (h ∈ meta c) as Hin.
    { apply hand_ok_resident; [|congruence].
      destruct Hs as (_ & (Hc & _ & _) & _). by rewrite <- Hh. }
    eapply (settled_retype k p m0 c _ h); try done.
    intros t. simpl. rewrite Hty. destruct t; simpl; repeat case_decide; try done; lia.
  - intros c h [Hp Hs] Hh Hty Hr. split; [by eapply P5|].
    assert (h ∈ meta c) as Hin.
    { apply hand_ok_resident; [|congruence].
      destruct Hs as (_ & (Hc & _ & _) & _). by rewrite <- Hh. }
    eapply (settled_retype k p m0 c _ h); try done.
    intros t. simpl. rewrite Hty. destruct t; simpl; repeat case_decide; try done; lia.
  - intros c c' [Hp Hs] Ha. split; [by eapply P6|].
    pose proof (advance_hot_same _ _ Ha) as S.
    apply advance_hot_Ok in Ha as (pos & idx & Ha & ->).
    apply (settled_advance p m0 c); try done; simpl;
      [by eapply advance_moved | apply hand_moved_refl | apply hand_moved_refl].
  - intros c h c' [Hp Hs] Hh Hty Hrem. split; [by eapply P7|].
    pose proof Hp as (Hok & _).
    destruct Hs as (Hcen & (Hoh & Hoc & Hot) & Hp0).
    apply test_remove_element in Hrem
      as (Hin & Hm & Hheap & _ & Hch & Hcc & Hct & _ & _ & Htest & Dh & Dc);
      [|done|by rewrite <- Hh|done].
    pose proof (meta_NoDup c Hok) as Hnd.
    split_and!.
    + intros t. rewrite Hm, Hheap, population_Remove, <- Hcen, Hty by done.
      destruct t; simpl; repeat case_decide; try done; lia.
    + split_and!.
      * apply (hand_ok_removed c c' h); try done.
        eapply del_hand_live; [done|done| |exact Dh]. by apply (hand_ok_live c h).
      * apply (hand_ok_removed c c' h); try done.
        eapply del_hand_live; [done|done| |exact Dc]. by apply (hand_ok_live c h).
      * apply (hand_ok_removed c c' h); try done.
        rewrite Htest. by apply retreat_live.
    + by rewrite Hheap.
  - intros c c' [Hp Hs] Ha. split; [by eapply P8|].
    pose proof (advance_test_same _ _ Ha) as S.
    apply advance_test_Ok in Ha as (pos & idx & Ha & ->).
    apply (settled_advance p m0 c); try done; simpl;
      [apply hand_moved_refl | apply hand_moved_refl | by eapply advance_moved].
Qed.

(** ** Linking the waiting entry *)

Lemma hand_moved_live l old new :
  hand_live l old → hand_moved l old new → hand_live l new.
Proof.
  intros Hl [->|[->|(e & -> & He)]]; [done|by intros e|by intros e' [= <-]].
Qed.

(** On the branch of [meta_add] for the first element, the cold and test
    hands are put on the new element before they step forward. *)
Lemma meta_add_link_first c p c' :
  hand_pos_hot c = None → meta_add_link c p = Ok c' →
  meta c' = mkElement (next_elem c) p :: meta c ∧
  hand_moved (meta c') (Some (mkElement (next_elem c) p)) (hand_pos_cold c') ∧
  hand_moved (meta c') (Some (mkElement (next_elem c) p)) (hand_pos_test c').
Proof.
  unfold meta_add_link. intros Hh H. rewrite Hh in H.
  inv_bind H as c1 H1. injection H1 as <-.
  apply link_hands_forward_Ok in H as (S & _ & Hc & Ht).
  destruct S as (_ & _ & Hm & _). rewrite Hm. simpl in *. done.
Qed.

(** After [meta_add] every hand is nil or on an element of the list. *)
Lemma meta_add_link_live c p c' :
  meta_add_link c p = Ok c' → hands_ok c → hands_live c'.
Proof.
  intros H (Hoh & Hoc & Hot). pose proof H as H0.
  apply meta_add_link_Ok in H0
    as (_&_&_&_&_&_&_&_&_& Hmeta & Mc & Mt & (x & Hx & Hxin) & _).
  split_and!.
  - intros e He. congruence.
  - destruct (hand_pos_hot c) as [h|] eqn:Hh.
    + destruct Hmeta as [Hin Hm]. apply (hand_moved_live _ _ _ ) in Mc; [done|].
      intros e He. rewrite Hm, insert_before_perm by done.
      apply list_elem_of_further. by apply (hand_ok_live c h _ Hin Hoc).
    + apply (meta_add_link_first c p c' Hh) in H as (Hm & Mc' & _).
      apply (hand_moved_live _ _ _ ) in Mc'; [done|].
      intros e [= <-]. rewrite Hm. apply list_elem_of_here.
  - destruct (hand_pos_hot c) as [h|] eqn:Hh.
    + destruct Hmeta as [Hin Hm]. apply (hand_moved_live _ _ _ ) in Mt; [done|].
      intros e He. rewrite Hm, insert_before_perm by done.
      apply list_elem_of_further. by apply (hand_ok_live c h _ Hin Hot).
    + apply (meta_add_link_first c p c' Hh) in H as (Hm & _ & Mt').
      apply (hand_moved_live _ _ _ ) in Mt'; [done|].
      intros e [= <-]. rewrite Hm. apply list_elem_of_here.
Qed.

(** The new element adds one to the population of the type of its entry. *)
Lemma meta_add_link_census c p c' :
  index_ok c → metaKeys c !! key (heap c p) = None → (p < next_entry c)%nat →
  meta_add_link c p = Ok c' →
  ∀ t, population (heap c') (meta c') t =
       (if decide (ptype (heap c p) = t) then 1 else 0) +
       population (heap c) (meta c) t.
Proof.
  intros Hok Hk Hp H t. pose proof H as H0.
  apply meta_add_link_Ok in H0 as (_&_&_&_&_& Hheap & _).
  apply meta_add_link_index_ok in H as (_ & Hel & _ & Hok'); [|done..].
  rewrite Hheap.
  rewrite (population_perm _ (meta c') (mkElement (next_elem c) p :: meta c)).
  - by rewrite population_cons.
  - apply NoDup_Permutation.
    + apply (meta_NoDup c' Hok').
    + apply list.NoDup_cons. split; [|apply (meta_NoDup c Hok)].
      intros Hin. apply (elems_fresh c Hok) in Hin. simpl in Hin. lia.
    + intros x. rewrite Hel. by rewrite elem_of_cons.
Qed.

(** The end of both inserting branches of [Set]: [evict], then the
    insertion of the waiting entry [m0] with key [k] at address [p]. *)
Lemma evict_link k p m0 fuel c1 c2 c3 :
  ptype m0 ≠ ptTest → evicting k p m0 c1 →
  evict fuel c1 = Ok c2 → meta_add_link c2 p = Ok c3 →
  index_ok c3 ∧ hands_live c3 ∧ heap c3 = heap c2 ∧ heap c3 p = m0 ∧
  (∀ t, population (heap c3) (meta c3) t =
        (if decide (ptype m0 = t) then 1 else 0) + count_of t c3) ∧
  metaKeys c3 !! k = Some (Some (mkElement (next_elem c2) p)) ∧
  mkElement (next_elem c2) p ∈ meta c3 ∧
  hand_pos_hot c3 = ring_next (meta c3) (mkElement (next_elem c2) p) ∧
  (∀ t, 0 ≤ count_of t c3) ∧
  mem_max c3 = mem_max c2 ∧ mem_cold c3 = mem_cold c2.
Proof.
  intros Hm0 He H2 H3.
  apply (evict_preserve _ (evicting_steps k p m0 Hm0)) in H2; [|exact He].
  destruct H2 as ((Hok & _ & Hk & Hkp & Hp) & Hcen & Hhands & Hheap).
  pose proof (meta_add_link_live _ _ _ H3 Hhands) as Hlive.
  pose proof (meta_add_link_census c2 p c3 Hok ltac:(by rewrite Hkp) Hp H3) as Hpop.
  pose proof H3 as H3'.
  apply meta_add_link_Ok in H3'
    as (Hmax & Hmc & Hch & Hcc & Hct & Hh & _ & _ & Hkeys & _ & _ & _ & _ & Hnext).
  apply meta_add_link_index_ok in H3 as (Hin & _ & _ & Hok3); [|done|by rewrite Hkp|done].
  assert (∀ t, count_of t c3 = count_of t c2) as Hcount by (by intros []).
  split_and!; try done.
  - by rewrite Hh.
  - intros t. rewrite Hpop, Hheap, <- Hcen, Hcount. done.
  - rewrite Hkeys, Hkp. apply lookup_insert_eq.
  - apply Hnext. intros Hfresh. apply (elems_fresh c2 Hok) in Hfresh. simpl in Hfresh. lia.
  - intros t. rewrite Hcount, Hcen. apply population_nonneg.
Qed.

(** ** Histories of proper values *)

Lemma ptype_insert (h : nat → @metaEntry V) p m q :
  ptype m = ptype (h p) → ptype (<[p := m]> h q) = ptype (h q).
Proof.
  intros Hm. destruct (decide (p = q)) as [->|Hne].
  - by rewrite fn_lookup_insert.
  - by rewrite fn_lookup_insert_ne.
Qed.

Lemma typed_values_insert (h : nat → @metaEntry V) p m :
  (ptype m = ptTest ↔ val m = None) →
  (∀ q, ptype (h q) = ptTest ↔ val (h q) = None) →
  ∀ q, ptype (<[p := m]> h q) = ptTest ↔ val (<[p := m]> h q) = None.
Proof.
  intros Hm Hh q. destruct (decide (p = q)) as [->|Hne].
  - by rewrite fn_lookup_insert.
  - by rewrite fn_lookup_insert_ne.
Qed.

Lemma typed_values_steps : step_invariant (@typed_values V).
Proof.
  unfold step_invariant, typed_values. split_and!.
  - intros c h H _ Hty _. simpl. apply typed_values_insert; [|done]. simpl.
    split; [done|]. intros Hv. apply H in Hv. congruence.
  - intros c h H _ _ _. simpl. by apply typed_values_insert.
  - intros c c' H (pos & idx & _ & ->)%advance_cold_Ok. exact H.
  - intros c h H _ _ _. simpl. apply typed_values_insert; [|done]. simpl. apply H.
  - intros c h H _ Hty _. simpl. apply typed_values_insert; [|done]. simpl.
    split; [done|]. intros Hv. apply H in Hv. congruence.
  - intros c c' H (pos & idx & _ & ->)%advance_hot_Ok. exact H.
  - intros c h c' H _ _ (h' & c1 & _ & Hd & R)%test_remove_Ok.
    destruct R as (_ & _ & Hh & _).
    apply meta_del_Ok in Hd as (xe & xhot & xcold & xtest & _ & _ & _ & _ & ->).
    intros q. rewrite Hh. apply H.
  - intros c c' H (pos & idx & _ & ->)%advance_test_Ok. exact H.
Qed.

(** The cache at the call of [evict] on the branch of [Set] for a new key. *)
Lemma alloc_evicting c k v :
  ring_ok c → census c → hands_live c → index_lookup c k = None →
  evicting k (next_entry c) (mkMetaEntry ptCold k v false)
    (alloc_entry (mkMetaEntry ptCold k v false) c).
Proof.
  intros [Hok Hlen] Hcen (Hh & Hc & Ht) Hk.
  apply (index_lookup_None _ _ Hok) in Hk.
  assert (∀ e, e ∈ meta c → next_entry c ≠ Value e) as Hfresh.
  { intros e He. apply (entries_fresh c Hok) in He. lia. }
  split; [|split_and!].
  - unfold pending, length_offset in *. simpl. split_and!; try done.
    + apply (index_ok_weaken c); simpl; [exact Hok|done|done| |lia|lia].
      intros e He. rewrite fn_lookup_insert_ne; [done|by apply Hfresh].
    + by rewrite fn_lookup_insert.
    + lia.
  - intros t. simpl. rewrite (population_ext (heap c)).
    + rewrite <- Hcen. by destruct t.
    + intros e He. rewrite fn_lookup_insert_ne; [done|by apply Hfresh].
  - split_and!; by apply hand_live_ok.
  - simpl. by rewrite fn_lookup_insert.
Qed.

(** The cache at the call of [evict] on the promoting branch of [Set],
    taken for a key whose entry is of type Test. *)
Lemma promote_evicting c k e v c1 :
  ring_ok c → census c → hands_live c →
  (meta c = [] ∨ (1 ≤ count_hot c + count_cold c)) →
  index_lookup c k = Some e → ptype (heap c (Value e)) = ptTest →
  meta_del (promote_entry (Value e) v c) (key (heap c (Value e))) = Ok c1 →
  evicting k (Value e) (mkMetaEntry ptHot k v false) c1 ∧
  e ∈ meta c ∧ meta c1 = Remove (meta c) e ∧ next_elem c1 = next_elem c ∧
  mem_max c1 = mem_max c ∧
  mem_cold c1 = (if decide (mem_cold c < mem_max c) then mem_cold c + 1 else mem_cold c) ∧
  (∀ t, count_of t c1 = count_of t c - (if decide (t = ptTest) then 1 else 0)).
Proof.
  intros [Hok Hlen] Hcen (Hlh & Hlc & Hlt) Hres Hk Hty H1.
  apply (index_lookup_Some _ _ _ Hok) in Hk as (Hk & Hin & Hkey).
  rewrite Hkey in H1.
  assert (index_ok (promote_entry (Value e) v c)) as Hok0.
  { apply (index_ok_ext c); try done; unfold promote_entry; try (by case_decide).
    intros q. simpl. rewrite key_insert; by case_decide. }
  pose proof (meta_NoDup c Hok) as Hnd.
  pose proof H1 as H1'.
  apply meta_del_Ok in H1' as (xe & hot & cold & test & Hxe & Dh & Dc & Dt & Hc1).
  apply (meta_del_index_ok _ _ _ Hok0) in H1 as (e' & Hke' & _ & Hm1 & Hk1 & Hl1 & Hok1).
  assert (xe = e) as ->.
  { assert (metaKeys (promote_entry (Value e) v c) = metaKeys c) as Hmk
      by (unfold promote_entry; by case_decide).
    rewrite Hmk in Hxe. congruence. }
  assert (meta c1 = Remove (meta c) e) as Hm.
  { rewrite Hc1. unfold promote_entry. simpl. by case_decide. }
  assert (heap c1 = <[Value e := mkMetaEntry ptHot k v false]> (heap c)) as Hheap.
  { rewrite Hc1. unfold promote_entry. simpl.
    destruct (heap c (Value e)) as [ty ky vl rf] eqn:Hent. simpl in Hkey. subst ky.
    case_decide; simpl; by rewrite Hent. }
  assert (∀ t, count_of t c1 = count_of t c - (if decide (t = ptTest) then 1 else 0))
    as Hcount.
  { intros t. rewrite Hc1. unfold promote_entry.
    destruct t; simpl; repeat case_decide; simpl; try done; lia. }
  assert (∀ t, population (heap c1) (meta c1) t =
               population (heap c) (meta c) t - (if decide (t = ptTest) then 1 else 0))
    as Hpop.
  { intros t. rewrite Hm, Hheap, (population_ext (heap c)).
    - rewrite population_Remove, Hty by done. repeat case_decide; congruence.
    - intros x [Hx Hne]%elem_of_Remove. rewrite fn_lookup_insert_ne; [done|].
      intros Hv. apply Hne. symmetry. by apply (index_ok_Value_inj c). }
  assert (meta c1 ≠ []) as Hnonnil.
  { intros Hnil. destruct Hres as [Hres|Hres]; [rewrite Hres in Hin; by apply elem_of_nil in Hin|].
    pose proof (Hpop ptHot) as Hh. pose proof (Hpop ptCold) as Hc.
    rewrite Hnil, population_nil in Hh, Hc.
    rewrite <- Hcen in Hh, Hc. simpl in Hh, Hc.
    repeat case_decide; try done. lia. }
  assert (hand_pos_hot c1 = hot ∧ hand_pos_cold c1 = cold ∧ hand_pos_test c1 = test)
    as (Eh & Ec & Et) by (by rewrite Hc1).
  assert (meta (promote_entry (Value e) v c) = meta c ∧
          hand_pos_hot (promote_entry (Value e) v c) = hand_pos_hot c ∧
          hand_pos_cold (promote_entry (Value e) v c) = hand_pos_cold c ∧
          hand_pos_test (promote_entry (Value e) v c) = hand_pos_test c)
    as (Em & Eh0 & Ec0 & Et0) by (unfold promote_entry; by case_decide).
  rewrite Em in Dh, Dc, Dt. rewrite Eh0 in Dh. rewrite Ec0 in Dc. rewrite Et0 in Dt.
  split_and!; try done.
  - split; [|split_and!].
    + unfold pending, length_offset in *. split_and!; try done.
      * rewrite Hl1, Em. pose proof (Hcount ptHot) as C1.
        pose proof (Hcount ptCold) as C2. pose proof (Hcount ptTest) as C3.
        simpl in C1, C2, C3. lia.
      * rewrite Hk1. apply lookup_delete_eq.
      * rewrite Hheap. by rewrite fn_lookup_insert.
      * rewrite Hc1. unfold promote_entry. simpl.
        apply (entries_fresh c Hok) in Hin. by case_decide.
    + intros t. by rewrite Hcount, Hpop, Hcen.
    + split_and!; rewrite ?Eh, ?Ec, ?Et; apply hand_live_ok; rewrite Hm.
      * destruct (del_hand_live _ _ _ _ Hnd Hin Hlh Dh) as [?|[_ Hnil]]; [done|].
        by rewrite <- Hm in Hnil.
      * destruct (del_hand_live _ _ _ _ Hnd Hin Hlc Dc) as [?|[_ Hnil]]; [done|].
        by rewrite <- Hm in Hnil.
      * destruct (del_hand_live _ _ _ _ Hnd Hin Hlt Dt) as [?|[_ Hnil]]; [done|].
        by rewrite <- Hm in Hnil.
    + by rewrite Hheap, fn_lookup_insert.
  - rewrite Hc1. unfold promote_entry. simpl. by case_decide.
  - rewrite Hc1. unfold promote_entry. simpl. by case_decide.
  - rewrite Hc1. unfold promote_entry. simpl. by case_decide.
Qed.

Lemma Cache_Set_consistent fuel c k v c' :
  consistent c → is_Some v → Cache_Set fuel c k v = Ok c' → consistent c'.
Proof.
  intros (Hring & Hcen & Hlive & Htv & Hres) [x ->] H.
  pose proof (Cache_Set_ring_ok _ _ _ _ _ H Hring) as Hring'.
  apply Cache_Set_Ok in H as [(Hk & c2 & c3 & H2 & H3 & ->) |
    [(e & Hk & Hv & c1 & c2 & c3 & H1 & H2 & H3 & ->) | (e & y & Hk & Hv & ->)]].
  - pose proof (alloc_evicting c k (Some x) Hring Hcen Hlive Hk) as He.
    pose proof H2 as H2'.
    apply (evict_preserve _ typed_values_steps) in H2'.
    2:{ unfold typed_values. simpl. by apply typed_values_insert. }
    destruct (evict_link k _ (mkMetaEntry ptCold k (Some x) false) _ _ _ _
                ltac:(done) He H2 H3)
      as (Hok3 & Hl3 & Hh3 & Hp3 & Hpop & _ & _ & _ & Hnn & _).
    split_and!; try done.
    + intros t. simpl heap. simpl meta. rewrite Hpop. destruct t; simpl; lia.
    + intros q. simpl. rewrite Hh3. apply H2'.
    + right. simpl. pose proof (Hnn ptHot). pose proof (Hnn ptCold). simpl in *. lia.
  - pose proof Hv as Hty. apply Htv in Hty.
    destruct (promote_evicting c k e (Some x) c1 Hring Hcen Hlive Hres Hk Hty H1)
      as (He & _).
    assert (typed_values c1) as Htv1.
    { apply meta_del_Ok in H1 as (xe & hot & cold & test & _ & _ & _ & _ & ->).
      unfold typed_values, promote_entry. simpl.
      apply typed_values_insert; [done|]. by case_decide. }
    pose proof H2 as H2'.
    apply (evict_preserve _ typed_values_steps) in H2'; [|exact Htv1].
    destruct (evict_link k _ (mkMetaEntry ptHot k (Some x) false) _ _ _ _
                ltac:(done) He H2 H3)
      as (Hok3 & Hl3 & Hh3 & Hp3 & Hpop & _ & _ & _ & Hnn & _).
    split_and!; try done.
    + intros t. simpl heap. simpl meta. rewrite Hpop. destruct t; simpl; lia.
    + intros q. simpl. rewrite Hh3. apply H2'.
    + right. simpl. pose proof (Hnn ptHot). pose proof (Hnn ptCold). simpl in *. lia.
  - split_and!; try done.
    + intros t. simpl heap. simpl meta. rewrite (population_ext (heap c)).
      * rewrite <- Hcen. by destruct t.
      * intros e' _. by apply ptype_insert.
    + unfold typed_values. simpl. apply typed_values_insert; [|done]. simpl.
      split; [|done]. intros Hty. apply Htv in Hty. congruence.
Qed.

Lemma Cache_Get_consistent c k : consistent c → consistent (Cache_Get c k).1.
Proof.
  intros (Hring & Hcen & Hlive & Htv & Hres).
  pose proof (Cache_Get_ring_ok c k Hring) as Hring'.
  unfold Cache_Get in *. destruct (index_lookup c k) as [e|]; [|done].
  destruct (val (heap c (Value e))) as [x|] eqn:Hv; [|done].
  split_and!; try done.
  - intros t. simpl heap. simpl meta. rewrite (population_ext (heap c)).
    + rewrite <- Hcen. by destruct t.
    + intros e' _. by apply ptype_insert.
  - unfold typed_values. simpl. apply typed_values_insert; [|done]. simpl. apply Htv.
Qed.

(** Every cache of a history of proper values is consistent. *)
Lemma reachable_consistent size c : reachable_nonnil size c → consistent c.
Proof.
  induction 1 as [|c k _ IH|c fuel k v c' _ IH Hv HS].
  - split_and!.
    + apply (reachable_ring_ok is_Some size). apply reach_New.
    + by intros [].
    + by split_and!.
    + by intros q.
    + by left.
  - by apply Cache_Get_consistent.
  - by eapply Cache_Set_consistent.
Qed.

(** After a public call the hot hand is on an element of the list whenever
    the list is not empty. *)
Lemma reachable_hot_live allowed size c :
  reachable_by allowed size c → meta c ≠ [] →
  ∃ h, hand_pos_hot c = Some h ∧ h ∈ meta c.
Proof.
  induction 1 as [|c k _ IH|c fuel k v c' Hr IH _ HS]; [done| |].
  - unfold Cache_Get. destruct (index_lookup c k) as [e|]; [|done].
    by destruct (val (heap c (Value e))).
  - intros _.
    apply Cache_Set_Ok in HS as [(_ & c2 & c3 & _ & H3 & ->) |
      [(e & _ & _ & c1 & c2 & c3 & _ & _ & H3 & ->) | (e & x & Hk & _ & ->)]].
    + by apply meta_add_link_Ok in H3 as (_&_&_&_&_&_&_&_&_&_&_&_& Hh & _).
    + by apply meta_add_link_Ok in H3 as (_&_&_&_&_&_&_&_&_&_&_&_& Hh & _).
    + apply IH. simpl.
      apply reachable_ring_ok in Hr as [Hok _].
      apply (index_lookup_Some _ _ _ Hok) in Hk as (_ & Hin & _).
      intros Hnil. rewrite Hnil in Hin. by apply elem_of_nil in Hin.
Qed.

(** ** Properties of the histories of proper values *)

(** X1. In a history in which every value passed to [Set] is a proper
    (non-nil) value, after every public call that returns each of the three
    counters is the number of elements of the list whose entry has its
    type, and the entry of an element of the list is of type Test exactly
    when it holds no value. *)
Theorem counters_are_populations size c :
  reachable_nonnil size c →
  count_hot c = population (heap c) (meta c) ptHot ∧
  count_cold c = population (heap c) (meta c) ptCold ∧
  count_test c = population (heap c) (meta c) ptTest ∧
  ∀ e, e ∈ meta c →
    (ptype (heap c (Value e)) = ptTest ↔ val (heap c (Value e)) = None).
Proof.
  intros (_ & Hcen & _ & Htv & _)%reachable_consistent.
  apply census_counts in Hcen as (Hh & Hc & Ht).
  split_and!; [done|done|done|]. intros e _. apply Htv.
Qed.

(** X2. In a history of proper values no hand is left on an element that
    was removed from the list: after every public call that returns each
    hand is nil or on an element of the list, and the hot hand is on an
    element whenever the list is not empty. *)
Theorem hands_stay_on_the_list size c :
  reachable_nonnil size c →
  hand_live (meta c) (hand_pos_hot c) ∧
  hand_live (meta c) (hand_pos_cold c) ∧
  hand_live (meta c) (hand_pos_test c) ∧
  (meta c ≠ [] → ∃ h, hand_pos_hot c = Some h ∧ h ∈ meta c).
Proof.
  intros Hr. pose proof (reachable_consistent _ _ Hr) as (_ & _ & (Hh & Hc & Ht) & _).
  split_and!; try done. by apply (reachable_hot_live is_Some size).
Qed.

(** X3. In a history of proper values [Get] answers a value exactly for
    the keys whose element is in the list with an entry of type Hot or
    Cold, and at most [size] elements of the list have such an entry: the
    cache never holds more values than its capacity. *)
Theorem hits_are_resident_and_bounded size c k :
  0 ≤ size → reachable_nonnil size c →
  ((Cache_Get c k).2 ≠ None ↔
     ∃ e, index_lookup c k = Some e ∧ e ∈ meta c ∧
          ptype (heap c (Value e)) ≠ ptTest) ∧
  population (heap c) (meta c) ptHot + population (heap c) (meta c) ptCold ≤ size.
Proof.
  intros Hsize Hr.
  pose proof (reachable_consistent _ _ Hr) as ([Hok _] & Hcen & _ & Htv & _).
  destruct (reachable_counts _ size c Hsize Hr) as (Hmax & Hres & _).
  split.
  - unfold Cache_Get. destruct (index_lookup c k) as [e|] eqn:He.
    + apply (index_lookup_Some _ _ _ Hok) in He as (_ & Hin & _).
      destruct (val (heap c (Value e))) as [x|] eqn:Hv; simpl.
      * split; [|done]. intros _. exists e. split_and!; try done.
        intros Hty. apply Htv in Hty. congruence.
      * split; [done|]. intros (e' & [= <-] & _ & Hty). by apply Htv in Hv.
    + simpl. split; [done|]. by intros (e' & ? & _).
  - rewrite <- (Hcen ptHot), <- (Hcen ptCold). simpl. lia.
Qed.

(** X4. After every public call that returns, whatever the values stored,
    the key index and the list agree: no element occurs twice in the list,
    the index answers an element for a key exactly when that element is in
    the list and its entry carries the key, and the index never maps a key
    to nil. *)
Theorem index_agrees_with_list size c :
  reachable size c →
  NoDup (meta c) ∧
  (∀ k e, index_lookup c k = Some e ↔
          e ∈ meta c ∧ key (heap c (Value e)) = k) ∧
  (∀ k, metaKeys c !! k ≠ Some None) ∧
  (∀ e1 e2, e1 ∈ meta c → e2 ∈ meta c →
     key (heap c (Value e1)) = key (heap c (Value e2)) → e1 = e2).
Proof.
  intros [Hok _]%reachable_ring_ok. split_and!.
  - apply (meta_NoDup c Hok).
  - intros k e. split.
    + by intros (_ & ? & ?)%(index_lookup_Some _ _ _ Hok).
    + intros [Hin <-]. unfold index_lookup.
      by rewrite (index_complete c Hok e Hin).
  - intros k Hk. by destruct (index_sound c Hok _ _ Hk) as (e & ? & _).
  - intros e1 e2 H1 H2 Hk.
    pose proof (index_complete c Hok e1 H1) as K1.
    pose proof (index_complete c Hok e2 H2) as K2.
    rewrite Hk in K1. congruence.
Qed.

(** ** Round trips *)

Lemma Get_of_entry c k e :
  index_lookup c k = Some e → (Cache_Get c k).2 = val (heap c (Value e)).
Proof.
  unfold Cache_Get. intros ->. by destruct (val (heap c (Value e))).
Qed.

Lemma Cache_Get_metaKeys c k : metaKeys (Cache_Get c k).1 = metaKeys c.
Proof.
  unfold Cache_Get. destruct (index_lookup c k) as [e|]; [|done].
  by destruct (val (heap c (Value e))).
Qed.

Lemma val_set_ref b m : val (set_ref b m) = val m.
Proof. done. Qed.

(** X5. [Get] is read-only as far as the answers go: a call of [Get]
    changes neither the key index nor what a later [Get], of the same or of
    any other key, answers. *)
Theorem Get_changes_no_answer c k k' :
  index_lookup (Cache_Get c k).1 k' = index_lookup c k' ∧
  (Cache_Get (Cache_Get c k).1 k').2 = (Cache_Get c k').2.
Proof.
  assert (index_lookup (Cache_Get c k).1 k' = index_lookup c k') as Hidx.
  { unfold index_lookup. by rewrite Cache_Get_metaKeys. }
  split; [done|].
  destruct (index_lookup c k') as [e|] eqn:He.
  - rewrite (Get_of_entry _ k' e Hidx), (Get_of_entry c k' e He).
    by destruct (Cache_Get_heap c k (Value e)) as [->| ->].
  - unfold Cache_Get at 1 3. by rewrite Hidx, He.
Qed.

(** X6. [Set] on a key whose entry holds a value overwrites in place: it
    returns whatever the fuel (nothing is evicted), the list, the index,
    the hands, the counters and the cold target are unchanged, the entry
    keeps its type and key, takes the new value and has its reference bit
    set, no other entry changes, and [Get] then answers the new value. *)
Theorem Set_overwrites_in_place fuel c k e x v :
  index_lookup c k = Some e → val (heap c (Value e)) = Some x →
  ∃ c', Cache_Set fuel c k v = Ok c' ∧
    meta c' = meta c ∧ metaKeys c' = metaKeys c ∧
    hand_pos_hot c' = hand_pos_hot c ∧ hand_pos_cold c' = hand_pos_cold c ∧
    hand_pos_test c' = hand_pos_test c ∧
    count_hot c' = count_hot c ∧ count_cold c' = count_cold c ∧
    count_test c' = count_test c ∧ mem_cold c' = mem_cold c ∧
    heap c' (Value e) =
      mkMetaEntry (ptype (heap c (Value e))) (key (heap c (Value e))) v true ∧
    (∀ q, q ≠ Value e → heap c' q = heap c q) ∧
    (Cache_Get c' k).2 = v.
Proof.
  intros He Hx. eexists. split.
  { unfold Cache_Set. rewrite He, Hx. reflexivity. }
  simpl. split_and!; try done.
  - by rewrite fn_lookup_insert.
  - intros q Hq. by rewrite fn_lookup_insert_ne.
  - rewrite (Get_of_entry _ k e) by done. simpl. by rewrite fn_lookup_insert.
Qed.

(** X7. Read your writes: in a history of proper values, after a call
    [Set k v] that returns, [Get k] answers [v] (a miss when [v] is nil),
    whichever of the three branches of [Set] was taken and whatever the
    eviction in between did. *)
Theorem Set_then_Get size fuel c k v c' :
  reachable_nonnil size c → Cache_Set fuel c k v = Ok c' →
  (Cache_Get c' k).2 = v.
Proof.
  intros Hr H.
  pose proof (reachable_consistent _ _ Hr) as (Hring & Hcen & Hlive & Htv & Hres).
  apply Cache_Set_Ok in H as [(Hk & c2 & c3 & H2 & H3 & ->) |
    [(e & Hk & Hv & c1 & c2 & c3 & H1 & H2 & H3 & ->) | (e & y & Hk & Hv & ->)]].
  - pose proof (alloc_evicting c k v Hring Hcen Hlive Hk) as He.
    destruct (evict_link k _ (mkMetaEntry ptCold k v false) _ _ _ _
                ltac:(done) He H2 H3) as (_ & _ & _ & Hp3 & _ & Hk3 & _).
    rewrite (Get_of_entry _ k (mkElement (next_elem c2) (next_entry c))).
    + simpl. by rewrite Hp3.
    + unfold index_lookup. simpl. by rewrite Hk3.
  - pose proof Hv as Hty. apply Htv in Hty.
    destruct (promote_evicting c k e v c1 Hring Hcen Hlive Hres Hk Hty H1)
      as (He & _).
    destruct (evict_link k _ (mkMetaEntry ptHot k v false) _ _ _ _
                ltac:(done) He H2 H3) as (_ & _ & _ & Hp3 & _ & Hk3 & _).
    rewrite (Get_of_entry _ k (mkElement (next_elem c2) (Value e))).
    + simpl. by rewrite Hp3.
    + unfold index_lookup. simpl. by rewrite Hk3.
  - rewrite (Get_of_entry _ k e) by done. simpl. by rewrite fn_lookup_insert.
Qed.

(** An element that has left the list stays out of it through every step
    of the hands, and its identity is not given to another element. *)
Lemma detached_steps e0 : step_invariant (@detached V e0).
Proof.
  unfold step_invariant, detached. split_and!.
  - by intros c h H _ _ _.
  - by intros c h H _ _ _.
  - by intros c c' H (pos & idx & _ & ->)%advance_cold_Ok.
  - by intros c h H _ _ _.
  - by intros c h H _ _ _.
  - by intros c c' H (pos & idx & _ & ->)%advance_hot_Ok.
  - intros c h c' [Hid Hout] _ _ (h' & c1 & _ & Hd & R)%test_remove_Ok.
    destruct R as (Hm & _ & _ & _ & _ & _ & _ & _ & _ & _ & _ & Hne & _).
    apply meta_del_Ok in Hd as (e & hot & cold & test & _ & _ & _ & _ & ->).
    rewrite Hm, Hne. simpl. split; [done|].
    intros [Hin _]%elem_of_Remove. done.
  - by intros c c' H (pos & idx & _ & ->)%advance_test_Ok.
Qed.

(** [evict] has nothing to do when there is room. *)
Lemma evict_room fuel c :
  count_hot c + count_cold c < mem_max c → evict fuel c = Ok c.
Proof. intros Hroom. rewrite evict_eq. rewrite decide_False; [done|lia]. Qed.

(** X8. Recovery from the test state: in a history of proper values, a
    call [Set k v] on a key whose entry is of type Test, when it returns,
    has taken the element of [k] out of the list and linked a new element
    carrying the same entry immediately before the hot hand; the entry is
    of type Hot, holds [v] and has its reference bit clear; [mem_max] is
    unchanged.  When the cache had room, so that [evict] had nothing to do,
    the net change of the counters is one entry moved from Test to Hot, and
    [mem_cold] is one higher unless it was at [mem_max]. *)
Theorem Set_revives_test_key size fuel c k e v c' :
  reachable_nonnil size c →
  index_lookup c k = Some e → ptype (heap c (Value e)) = ptTest →
  Cache_Set fuel c k v = Ok c' →
  ∃ elt,
    index_lookup c' k = Some elt ∧ elt ∈ meta c' ∧ (e ∉ meta c') ∧
    Value elt = Value e ∧
    heap c' (Value e) = mkMetaEntry ptHot k v false ∧
    ring_next (meta c') elt = hand_pos_hot c' ∧
    mem_max c' = mem_max c ∧ 1 ≤ count_hot c' ∧
    (count_hot c + count_cold c < mem_max c →
       count_hot c' = count_hot c + 1 ∧ count_cold c' = count_cold c ∧
       count_test c' = count_test c - 1 ∧
       mem_cold c' = (if decide (mem_cold c < mem_max c)
                      then mem_cold c + 1 else mem_cold c)).
Proof.
  intros Hr Hk Hty H.
  pose proof (reachable_consistent _ _ Hr) as (Hring & Hcen & Hlive & Htv & Hres).
  pose proof Hty as Hv. apply Htv in Hv.
  apply Cache_Set_Ok in H as [(Hk' & _) |
    [(e' & Hk' & _ & c1 & c2 & c3 & H1 & H2 & H3 & ->) | (e' & y & Hk' & Hv' & _)]];
    [congruence| |congruence].
  rewrite Hk in Hk'. injection Hk' as <-.
  destruct (promote_evicting c k e v c1 Hring Hcen Hlive Hres Hk Hty H1)
    as (He & Hin & Hm1 & Hne1 & Hmax1 & Hmc1 & Hcount1).
  assert (detached e c2) as [Hid2 Hout2].
  { apply (evict_preserve _ (detached_steps e) _ _ _ H2). split.
    - rewrite Hne1. destruct Hring as [Hok _]. by apply (elems_fresh c Hok).
    - rewrite Hm1. intros [_ Hne]%elem_of_Remove. done. }
  pose proof (evict_preserve _ (evicting_steps k (Value e)
                (mkMetaEntry ptHot k v false) ltac:(done)) _ _ _ H2 He)
    as ((Hok2 & _ & Hk2 & Hkp2 & Hp2) & _).
  destruct (meta_add_link_index_ok c2 (Value e) c3 Hok2 ltac:(by rewrite Hkp2) Hp2 H3)
    as (_ & Hel & _ & _).
  destruct (evict_link k _ (mkMetaEntry ptHot k v false) _ _ _ _
              ltac:(done) He H2 H3)
    as (_ & _ & _ & Hp3 & _ & Hk3 & Hin3 & Hhot3 & Hnn & Hmax3 & Hmc3).
  pose proof (evict_count_test _ _ _ H2) as [Hmax2 _].
  exists (mkElement (next_elem c2) (Value e)). split_and!; try done.
  - unfold index_lookup. simpl. by rewrite Hk3.
  - simpl. intros [Heq|Hin']%Hel; [rewrite Heq in Hid2; simpl in Hid2; lia | done].
  - simpl. congruence.
  - simpl. pose proof (Hnn ptHot). simpl in *. lia.
  - intros Hroom.
    assert (c2 = c1) as ->.
    { rewrite evict_room in H2; [by injection H2|].
      pose proof (Hcount1 ptHot). pose proof (Hcount1 ptCold). simpl in *. lia. }
    apply meta_add_link_Ok in H3 as (_ & Hmc & Hch & Hcc & Hct & _).
    pose proof (Hcount1 ptHot). pose proof (Hcount1 ptCold).
    pose proof (Hcount1 ptTest). simpl in *. split_and!; try lia.
Qed.

(** ** What the hands never do *)

Lemma fades_refl c : fades c c.
Proof. unfold fades. split_and!; try done. intros q. split; [done|by left]. Qed.

Lemma fades_trans c1 c2 c3 : fades c1 c2 → fades c2 c3 → fades c1 c3.
Proof.
  intros (Hm1 & Hk1 & Hh1 & Hx1 & Hn1 & Hp1) (Hm2 & Hk2 & Hh2 & Hx2 & Hn2 & Hp2).
  unfold fades. split_and!; try congruence.
  - intros e He. by apply Hm1, Hm2.
  - intros k Hk. by apply Hk2, Hk1.
  - intros q. destruct (Hh1 q) as [K1 V1], (Hh2 q) as [K2 V2].
    split; [congruence|]. destruct V2 as [V2|V2]; [|by right].
    rewrite V2. done.
Qed.

(** A step that rewrites one entry, keeping its key and keeping or
    dropping its value. *)
Lemma fades_entry c c' p m' :
  meta c' = meta c → metaKeys c' = metaKeys c →
  heap c' = <[p := m']> (heap c) →
  key m' = key (heap c p) → (val m' = val (heap c p) ∨ val m' = None) →
  mem_max c' = mem_max c → next_elem c' = next_elem c →
  next_entry c' = next_entry c →
  fades c c'.
Proof.
  intros Hm Hk Hh Hkey Hval Hx Hn Hp. unfold fades. rewrite Hm, Hk, Hh.
  split_and!; try done. intros q. destruct (decide (p = q)) as [<-|Hne].
  - by rewrite fn_lookup_insert.
  - rewrite fn_lookup_insert_ne by done. split; [done|by left].
Qed.

Lemma fades_same c c' : same_but_hands c c' → fades c c'.
Proof.
  intros (Hx & _ & Hm & Hk & _ & _ & _ & Hh & Hn & Hp). unfold fades.
  rewrite Hm, Hk, Hh. split_and!; try done. intros q. split; [done|by left].
Qed.

Lemma fades_steps c0 : step_invariant (@fades V c0).
Proof.
  unfold step_invariant. split_and!.
  - intros c h H _ _ _. apply (fades_trans _ c); [done|].
    by eapply (fades_entry c _ (Value h)); [..|left| | |].
  - intros c h H _ _ _. apply (fades_trans _ c); [done|].
    by eapply (fades_entry c _ (Value h)); [..|right| | |].
  - intros c c' H Ha. apply (fades_trans _ c); [done|].
    by apply fades_same, advance_cold_same.
  - intros c h H _ _ _. apply (fades_trans _ c); [done|].
    by eapply (fades_entry c _ (Value h)); [..|left| | |].
  - intros c h H _ _ _. apply (fades_trans _ c); [done|].
    by eapply (fades_entry c _ (Value h)); [..|left| | |].
  - intros c c' H Ha. apply (fades_trans _ c); [done|].
    by apply fades_same, advance_hot_same.
  - intros c h c' H _ _ (h' & c1 & _ & Hd & R)%test_remove_Ok.
    apply (fades_trans _ c); [done|].
    destruct R as (Hm & Hk & Hh & _ & _ & _ & _ & _ & _ & Hx & _ & Hn & Hp).
    apply meta_del_Ok in Hd as (e & hot & cold & test & _ & _ & _ & _ & ->).
    unfold fades. rewrite Hm, Hk, Hh, Hx, Hn, Hp. simpl. split_and!; try done.
    + by intros x [? _]%elem_of_Remove.
    + intros k Hnone. by apply lookup_delete_None; right.
    + intros q. split; [done|by left].
  - intros c c' H Ha. apply (fades_trans _ c); [done|].
    by apply fades_same, advance_test_same.
Qed.

Lemma evict_fades n c c' : evict n c = Ok c' → fades c c'.
Proof. intros H. exact (evict_preserve _ (fades_steps c) _ _ _ H (fades_refl c)). Qed.

(** X9. [evict] only makes room.  When there is room already it returns
    at once, whatever the fuel, with the cache as it was.  Whenever it
    returns, the resident entries are fewer than [mem_max]; it has added
    no element to the list and no key to the index, it has replaced no
    value (a value is kept or dropped) and changed the key of no entry. *)
Theorem evict_only_makes_room n c :
  (count_hot c + count_cold c < mem_max c → evict n c = Ok c) ∧
  (∀ c', evict n c = Ok c' →
     count_hot c' + count_cold c' < mem_max c' ∧ fades c c').
Proof.
  split.
  - apply evict_room.
  - intros c' H. split; [by eapply evict_exit | by apply (evict_fades n)].
Qed.

(** ** No stale value *)

Lemma values_from_fades (g : string → option V) c c' :
  fades c c' → values_from g c → values_from g c'.
Proof.
  intros (Hm & _ & Hh & _) Hv e He. destruct (Hh (Value e)) as [Hk Hval].
  rewrite Hk. destruct Hval as [->|Hnone]; [|by left]. by apply Hv, Hm.
Qed.

(** The elements of the list other than the one indexed under [k] carry
    other keys. *)
Lemma index_ok_other_key c k e x :
  index_ok c → metaKeys c !! k = Some (Some e) → x ∈ meta c → x ≠ e →
  key (heap c (Value x)) ≠ k.
Proof.
  intros Hok Hk Hx Hne Hkey.
  pose proof (index_complete c Hok x Hx) as Hc. rewrite Hkey in Hc. congruence.
Qed.

Lemma index_ok_absent_key c k x :
  index_ok c → metaKeys c !! k = None → x ∈ meta c →
  key (heap c (Value x)) ≠ k.
Proof.
  intros Hok Hk Hx Hkey.
  pose proof (index_complete c Hok x Hx) as Hc. rewrite Hkey in Hc. congruence.
Qed.

(** The end of both inserting branches of [Set], for the values: the
    waiting entry [p] holds [v] under the key [k], which no element of the
    list carries. *)
Lemma link_values_from (g : string → option V) fuel k v p c1 c2 c3 :
  evict fuel c1 = Ok c2 → meta_add_link c2 p = Ok c3 →
  key (heap c1 p) = k → val (heap c1 p) = v →
  values_from g c1 →
  (∀ x, x ∈ meta c1 → key (heap c1 (Value x)) ≠ k) →
  values_from (<[k := v]> g) c3.
Proof.
  intros H2 H3 Hkey Hval Hv Hother.
  pose proof (evict_fades _ _ _ H2) as (Hm2 & _ & Hh2 & _).
  apply meta_add_link_Ok in H3 as (_&_&_&_&_& Hh3 & _ & _ & _ & Hmeta & _).
  assert (∀ x, x ∈ meta c3 → x = mkElement (next_elem c2) p ∨ x ∈ meta c2) as Hel.
  { destruct (hand_pos_hot c2) as [h|].
    - destruct Hmeta as [Hin ->]. intros x. rewrite insert_before_perm by done.
      by intros ?%elem_of_cons.
    - rewrite Hmeta. by intros x ?%elem_of_cons. }
  intros x Hx. rewrite Hh3. destruct (Hh2 (Value x)) as [Hkx Hvx]. rewrite Hkx.
  apply Hel in Hx as [->|Hx].
  - cbn [Value] in *. rewrite Hkey, fn_lookup_insert.
    destruct Hvx as [->| ->]; [by right|by left].
  - apply Hm2 in Hx. rewrite fn_lookup_insert_ne by (by apply not_eq_sym, Hother).
    destruct Hvx as [->| ->]; [by apply Hv|by left].
Qed.

Lemma Cache_Set_values_from (g : string → option V) fuel c k v c' :
  ring_ok c → values_from g c → Cache_Set fuel c k v = Ok c' →
  values_from (<[k := v]> g) c'.
Proof.
  intros [Hok Hlen] Hv H.
  apply Cache_Set_Ok in H as [(Hk & c2 & c3 & H2 & H3 & ->) |
    [(e & Hk & _ & c1 & c2 & c3 & H1 & H2 & H3 & ->) | (e & y & Hk & _ & ->)]].
  - apply (index_lookup_None _ _ Hok) in Hk.
    assert (∀ x, x ∈ meta c →
              heap (alloc_entry (mkMetaEntry ptCold k v false) c) (Value x) =
              heap c (Value x)) as Hsame.
    { intros x Hx. simpl. rewrite fn_lookup_insert_ne; [done|].
      apply (entries_fresh c Hok) in Hx. lia. }
    apply (link_values_from g fuel k v _ _ _ _ H2 H3).
    + simpl. by rewrite fn_lookup_insert.
    + simpl. by rewrite fn_lookup_insert.
    + intros x Hx. rewrite Hsame by done. by apply Hv.
    + intros x Hx. rewrite Hsame by done. by apply index_ok_absent_key.
  - apply (index_lookup_Some _ _ _ Hok) in Hk as (Hk & Hin & Hkey).
    apply meta_del_Ok in H1 as (xe & hot & cold & test & Hxe & _ & _ & _ & ->).
    assert (metaKeys (promote_entry (Value e) v c) = metaKeys c ∧
            meta (promote_entry (Value e) v c) = meta c) as [Hmk Hm0]
      by (unfold promote_entry; by case_decide).
    assert (xe = e) as -> by (rewrite Hmk, Hkey in Hxe; congruence).
    assert (heap (promote_entry (Value e) v c) =
            <[Value e := mkMetaEntry ptHot k v false]> (heap c)) as Hh0.
    { unfold promote_entry. simpl.
      destruct (heap c (Value e)) as [ty ky vl rf] eqn:Hent. simpl in Hkey. subst ky.
      case_decide; simpl; by rewrite Hent. }
    assert (∀ x, x ∈ Remove (meta c) e →
              x ∈ meta c ∧ x ≠ e ∧
              heap (promote_entry (Value e) v c) (Value x) = heap c (Value x))
      as Hsame.
    { intros x [Hx Hne]%elem_of_Remove. split_and!; try done.
      rewrite Hh0, fn_lookup_insert_ne; [done|].
      intros Heq. apply Hne. symmetry. by apply (index_ok_Value_inj c). }
    apply (link_values_from g fuel k v _ _ _ _ H2 H3).
    + cbn [heap deleted]. by rewrite Hh0, fn_lookup_insert.
    + cbn [heap deleted]. by rewrite Hh0, fn_lookup_insert.
    + intros x Hx. cbn [heap meta deleted] in *. rewrite Hm0 in Hx.
      apply Hsame in Hx as (Hx & _ & ->). by apply Hv.
    + intros x Hx. cbn [heap meta deleted] in *. rewrite Hm0 in Hx.
      apply Hsame in Hx as (Hx & Hne & ->). by apply (index_ok_other_key c k e).
  - apply (index_lookup_Some _ _ _ Hok) in Hk as (Hk & Hin & Hkey).
    intros x Hx. simpl in *. destruct (decide (x = e)) as [->|Hne].
    + rewrite fn_lookup_insert. simpl. rewrite Hkey, fn_lookup_insert. by right.
    + assert (Value e ≠ Value x) as Hnv.
      { intros Heq. apply Hne. symmetry. by apply (index_ok_Value_inj c). }
      rewrite fn_lookup_insert_ne by done.
      rewrite fn_lookup_insert_ne
        by (by apply not_eq_sym, (index_ok_other_key c k e)).
      by apply Hv.
Qed.

Lemma Cache_Get_values_from (g : string → option V) c k :
  values_from g c → values_from g (Cache_Get c k).1.
Proof.
  intros Hv e He.
  assert (meta (Cache_Get c k).1 = meta c) as Hm.
  { unfold Cache_Get. destruct (index_lookup c k) as [x|]; [|done].
    by destruct (val (heap c (Value x))). }
  rewrite Hm in He.
  destruct (Cache_Get_heap c k (Value e)) as [->| ->]; by apply Hv.
Qed.

Lemma run_values_from size (g : string → option V) fuel ops c c' :
  reachable size c → values_from g c → run fuel c ops = Ok c' →
  values_from (last_set g ops) c'.
Proof.
  revert g c. induction ops as [|o ops IH]; intros g c Hr Hv H; simpl in H.
  - by inv_Ok H.
  - destruct o as [k|k v]; simpl.
    + apply (IH g (Cache_Get c k).1); [by apply reach_Get| |done].
      by apply Cache_Get_values_from.
    + inv_bind H as c1 H1. apply (IH _ c1); [| |done].
      * by eapply reach_Set.
      * eapply Cache_Set_values_from; [|done|done]. by eapply reachable_ring_ok.
Qed.

(** X10. No stale value: after any list of calls on a new cache, whatever
    the size, the values and the evictions, [Get k] answers a miss or the
    value that the last [Set k] of the list stored, never an older value
    and never the value of another key. *)
Theorem Get_answers_last_value size fuel ops c k :
  run fuel (New size) ops = Ok c →
  (Cache_Get c k).2 = None ∨ (Cache_Get c k).2 = last_set (λ _, None) ops k.
Proof.
  intros H.
  assert (reachable size c) as Hr.
  { eapply run_reachable; [apply reach_New| |exact H].
    apply Forall_forall. intros [?|? ?] _; done. }
  apply (run_values_from size (λ _, None)) in H; [|apply reach_New|].
  2:{ intros e He. by apply elem_of_nil in He. }
  destruct (index_lookup c k) as [e|] eqn:He.
  - apply reachable_ring_ok in Hr as [Hok _].
    rewrite (Get_of_entry c k e He).
    apply (index_lookup_Some _ _ _ Hok) in He as (_ & Hin & Hkey).
    rewrite <- Hkey. by apply H.
  - left. unfold Cache_Get. by rewrite He.
Qed.

(** ** Positions and the steps of a hand *)

Lemma index_of_head x r : index_of (Some x) (x :: r) = 0.
Proof. simpl. by rewrite decide_True. Qed.

Lemma index_of_tail x y r :
  y ≠ x → index_of (Some x) (y :: r) = 1 + index_of (Some x) r.
Proof. intros Hne. simpl. rewrite decide_False; [done|congruence]. Qed.

Lemma index_of_Front l f : Front l = Some f → index_of (Some f) l = 0.
Proof. destruct l as [|x r]; [done|]. intros [= ->]. apply index_of_head. Qed.

Lemma index_of_lt_Len l x : x ∈ l → index_of (Some x) l < Len l.
Proof.
  unfold Len. induction l as [|y r IH]; [by intros ?%elem_of_nil|].
  intros Hx. destruct (decide (y = x)) as [->|Hne].
  - rewrite index_of_head. simpl. lia.
  - rewrite index_of_tail by done.
    apply elem_of_cons in Hx as [->|Hx]; [done|]. apply IH in Hx. simpl. lia.
Qed.

Lemma index_of_not_elem_of l x : x ∉ l → index_of (Some x) l = Len l.
Proof.
  unfold Len. induction l as [|y r IH]; [done|].
  intros [Hne Hx]%not_elem_of_cons. rewrite index_of_tail by done.
  rewrite IH by done. simpl. lia.
Qed.

Lemma index_of_Next l x n :
  NoDup l → Next l x = Some n → index_of (Some n) l = index_of (Some x) l + 1.
Proof.
  induction l as [|y r IH]; [done|]. intros Hnd Hn.
  apply list.NoDup_cons in Hnd as [Hy Hnd]. simpl in Hn.
  destruct (decide (y = x)) as [->|Hne].
  - rewrite index_of_head. destruct r as [|z r']; [done|]. injection Hn as ->.
    rewrite index_of_tail.
    + rewrite index_of_head. lia.
    + intros ->. apply Hy, list_elem_of_here.
  - rewrite (index_of_tail x) by done.
    rewrite index_of_tail.
    + rewrite (IH Hnd Hn). lia.
    + intros ->. apply Hy. by eapply Next_elem_of.
Qed.

Lemma index_of_Prev l x y :
  NoDup l → Prev l x = Some y → index_of (Some y) l = index_of (Some x) l - 1.
Proof.
  intros Hnd Hp. apply (Next_Prev l x y Hnd) in Hp.
  rewrite (index_of_Next l y x) by done. lia.
Qed.

Lemma Next_None_Back l x : x ∈ l → Next l x = None → Back l = Some x.
Proof.
  unfold Back. induction l as [|y r IH]; [by intros ?%elem_of_nil|].
  intros Hx Hn. simpl in Hn. destruct (decide (y = x)) as [->|Hne].
  - by destruct r.
  - apply elem_of_cons in Hx as [->|Hx]; [done|].
    destruct r as [|z r']; [by apply elem_of_nil in Hx|].
    rewrite last_cons_cons. by apply IH.
Qed.

Lemma index_of_Back l b :
  NoDup l → Back l = Some b → index_of (Some b) l = Len l - 1.
Proof.
  unfold Back, Len. induction l as [|y r IH]; [done|]. intros Hnd Hb.
  apply list.NoDup_cons in Hnd as [Hy Hnd].
  destruct r as [|z r'].
  - injection Hb as ->. by rewrite index_of_head.
  - rewrite last_cons_cons in Hb. rewrite index_of_tail.
    + rewrite (IH Hnd Hb). simpl. lia.
    + intros ->. apply Hy. by apply last_Some_elem_of.
Qed.

Lemma Remove_not_elem_of l e : e ∉ l → Remove l e = l.
Proof.
  unfold Remove. induction l as [|y r IH]; [done|].
  intros [Hne Hx]%not_elem_of_cons.
  rewrite filter_cons_True by congruence. by rewrite IH.
Qed.

(** Positions after a removal: the elements behind the removed one move
    one down. *)
Lemma index_of_Remove l e x :
  NoDup l → x ≠ e →
  index_of (Some x) (Remove l e) =
    index_of (Some x) l -
    (if decide (index_of (Some e) l < index_of (Some x) l) then 1 else 0).
Proof.
  intros Hnd Hne. induction l as [|y r IH].
  - simpl. repeat case_decide; lia.
  - apply list.NoDup_cons in Hnd as [Hy Hnd].
    destruct (decide (y = e)) as [->|Hye].
    + unfold Remove. rewrite filter_cons_False by (intros ?; done).
      fold (Remove r e). rewrite Remove_not_elem_of by done.
      rewrite index_of_head, (index_of_tail x) by done.
      pose proof (index_of_nonneg (Some x) r).
      rewrite decide_True by lia. lia.
    + unfold Remove. rewrite filter_cons_True by done. fold (Remove r e).
      destruct (decide (y = x)) as [->|Hyx].
      * rewrite !index_of_head. rewrite decide_False; [done|].
        pose proof (index_of_nonneg (Some e) (x :: r)). lia.
      * rewrite !index_of_tail by done. rewrite (IH Hnd).
        repeat case_decide; lia.
Qed.

(** A hand in place steps to the ring successor of its element and is in
    place again. *)
Lemma advance_hand_at l pos idx :
  NoDup l → hand_at l pos idx →
  ∃ e pos' idx', pos = Some e ∧ advance l pos idx = Ok (pos', idx') ∧
    pos' = ring_next l e ∧ hand_at l pos' idx'.
Proof.
  intros Hnd (e & -> & Hin & Hidx). unfold advance. cbn [deref mbind result_bind].
  destruct (Next l e) as [n|] eqn:Hn.
  - exists e, (Some n), (idx + 1). unfold ring_next. rewrite Hn.
    split_and!; try done.
    exists n. split_and!; [done|by eapply Next_elem_of|].
    rewrite (index_of_Next l e n) by done. lia.
  - destruct l as [|f r]; [by apply elem_of_nil in Hin|].
    exists e, (Some f), 0. unfold ring_next. rewrite Hn.
    split_and!; try done.
    exists f. split_and!; [done|apply list_elem_of_here|apply index_of_head].
Qed.

Lemma del_hand_run l e pos :
  del_hand l (Some e) pos =
    Ok (if decide (pos = Some e) then ring_prev l e else pos).
Proof.
  unfold del_hand, retreat, ring_prev.
  destruct (decide (Some e = pos)) as [<-|Hne].
  - rewrite decide_True by done. cbn [deref mbind result_bind].
    by destruct (Prev l e).
  - rewrite decide_False by congruence. done.
Qed.

(** A hand in place is in place after the removal of [e]: it stays on its
    element, or, when it was on [e], it is on the ring predecessor of [e];
    [del_idx] gives its new position. *)
Lemma del_hand_at l e pos idx :
  NoDup l → e ∈ l → Remove l e ≠ [] → hand_at l pos idx →
  hand_at (Remove l e)
    (if decide (pos = Some e) then ring_prev l e else pos)
    (del_idx (index_of (Some e) l) (Len (Remove l e) - 1) idx).
Proof.
  intros Hnd He Hnonnil (x & -> & Hx & Hidx).
  pose proof (length_Remove l e Hnd He) as Hlen.
  pose proof (index_of_nonneg (Some e) l) as Hj.
  unfold del_idx, ring_prev, Len.
  destruct (decide (Some x = Some e)) as [[= ->]|Hne].
  - rewrite decide_True by lia.
    destruct (Prev l e) as [p|] eqn:Hp.
    + pose proof (index_of_Prev l e p Hnd Hp) as Hip.
      pose proof (index_of_nonneg (Some p) l).
      assert (p ≠ e) as Hpe by (by eapply Prev_ne).
      exists p. split_and!; [done| |].
      * apply elem_of_Remove. split; [by eapply Prev_elem_of|done].
      * rewrite index_of_Remove by done.
        rewrite decide_False by lia. rewrite decide_False by lia. lia.
    + pose proof (Prev_None_Front l e He Hp) as Hf.
      pose proof (index_of_Front l e Hf) as H0.
      destruct (Back l) as [b|] eqn:Hb.
      * assert (b ≠ e) as Hbe.
        { intros ->. apply Hnonnil. rewrite (Back_Front_single l e) by done.
          apply Remove_single. }
        pose proof (index_of_Back l b Hnd Hb) as Hib. unfold Len in Hib.
        assert (b ∈ Remove l e) as Hbin.
        { apply elem_of_Remove. split; [by apply Back_elem_of|done]. }
        pose proof (index_of_lt_Len _ _ Hbin) as Hlt. unfold Len in Hlt.
        pose proof (index_of_nonneg (Some b) (Remove l e)) as Hb0.
        exists b. split_and!; [done|done|].
        rewrite index_of_Remove by done. repeat case_decide; lia.
      * apply last_None in Hb. subst. by apply elem_of_nil in He.
  - assert (x ≠ e) as Hxe by congruence.
    assert (index_of (Some e) l ≠ index_of (Some x) l) as Hij.
    { intros Heq. apply Hxe. symmetry. by apply (index_of_inj l). }
    pose proof (index_of_nonneg (Some x) l).
    exists x. split_and!; [done| |].
    + apply elem_of_Remove. done.
    + rewrite index_of_Remove by done. repeat case_decide; lia.
Qed.

(** [meta_del] on a key that the index maps to an element. *)
Lemma meta_del_run c k e :
  metaKeys c !! k = Some (Some e) →
  meta_del c k =
    Ok (deleted c k e
          (if decide (hand_pos_hot c = Some e) then ring_prev (meta c) e
           else hand_pos_hot c)
          (if decide (hand_pos_cold c = Some e) then ring_prev (meta c) e
           else hand_pos_cold c)
          (if decide (hand_pos_test c = Some e) then ring_prev (meta c) e
           else hand_pos_test c)).
Proof.
  intros Hk. unfold meta_del. rewrite Hk.
  cbn [meta set_metaKeys hand_pos_hot hand_pos_cold hand_pos_test].
  rewrite !del_hand_run. reflexivity.
Qed.

Lemma found_at_cons pos e r idx d :
  e ∉ r →
  found_at pos (e :: r) idx d =
    found_at pos r (idx + 1) (if decide (Some e = pos) then idx else d).
Proof.
  intros He. destruct pos as [x|]; [|done]. unfold found_at.
  destruct (decide (e = x)) as [->|Hne].
  - rewrite decide_True by apply list_elem_of_here.
    rewrite (decide_False (P := x ∈ r)) by done.
    rewrite decide_True by done. rewrite index_of_head. lia.
  - rewrite (decide_False (P := Some e = Some x)) by congruence.
    destruct (decide (x ∈ r)) as [Hin|Hnin].
    + rewrite decide_True by (by apply list_elem_of_further).
      rewrite index_of_tail by done. lia.
    + rewrite decide_False; [done|]. intros [?|?]%elem_of_cons; done.
Qed.

Lemma verify_scan_found hot cold test l idx (fh fc ft : Z) :
  NoDup l →
  verify_scan hot cold test l idx (fh, fc, ft) =
    (found_at hot l idx fh, found_at cold l idx fc, found_at test l idx ft).
Proof.
  intros Hnd. revert idx fh fc ft. induction l as [|e r IH]; intros idx fh fc ft.
  - by destruct hot, cold, test.
  - apply list.NoDup_cons in Hnd as [He Hnd]. cbn [verify_scan].
    rewrite (IH Hnd). by rewrite !found_at_cons by done.
Qed.

Lemma found_at_position pos l : found_at pos l 0 (-1) = position l pos.
Proof.
  destruct pos as [e|]; [|done]. unfold found_at, position.
  case_decide; [lia|done].
Qed.

Lemma hand_at_position l pos idx :
  hand_at l pos idx → position l pos = idx.
Proof.
  intros (e & -> & Hin & Hidx). unfold position. by rewrite decide_True.
Qed.

(** What the check computes on a list without repetition. *)
Lemma VerifyIdxs_run c :
  NoDup (meta c) →
  VerifyIdxs true c =
    if decide (Len (meta c) = 0) then Ok tt
    else if decide (position (meta c) (hand_pos_hot c) ≠ hand_idx_hot c ∨
                    position (meta c) (hand_pos_cold c) ≠ hand_idx_cold c ∨
                    position (meta c) (hand_pos_test c) ≠ hand_idx_test c)
         then Panic else Ok tt.
Proof.
  intros Hnd. unfold VerifyIdxs. cbn [negb].
  rewrite verify_scan_found by done. by rewrite !found_at_position.
Qed.

Lemma hands_indexed_VerifyIdxs c : hands_indexed c → VerifyIdxs true c = Ok tt.
Proof.
  intros (Hnd & Hh & Hc & Ht). rewrite VerifyIdxs_run by done.
  case_decide; [done|].
  rewrite (hand_at_position _ _ _ Hh), (hand_at_position _ _ _ Hc),
    (hand_at_position _ _ _ Ht).
  rewrite decide_False; [done|]. intros [?|[?|?]]; done.
Qed.

(** X11. [VerifyIdxs] does nothing when [DEBUG] is off, as it is in the
    source, and nothing on an empty list.  With [DEBUG] on, on a list
    without repetition that is not empty, it passes exactly when each of
    the three indices is the position of the element its hand is on, [-1]
    standing for a hand that is nil or on no element of the list, and it
    fails otherwise; in particular it passes when the hands are in place. *)
Theorem VerifyIdxs_checks_positions c :
  NoDup (meta c) →
  VerifyIdxs false c = Ok tt ∧
  (meta c = [] → VerifyIdxs true c = Ok tt) ∧
  (meta c ≠ [] →
     (VerifyIdxs true c = Ok tt ↔
        position (meta c) (hand_pos_hot c) = hand_idx_hot c ∧
        position (meta c) (hand_pos_cold c) = hand_idx_cold c ∧
        position (meta c) (hand_pos_test c) = hand_idx_test c) ∧
     (VerifyIdxs true c ≠ Ok tt → VerifyIdxs true c = Panic)) ∧
  (hands_indexed c → VerifyIdxs true c = Ok tt).
Proof.
  intros Hnd. split_and!.
  - done.
  - intros Hnil. rewrite VerifyIdxs_run by done. by rewrite Hnil.
  - intros Hne. rewrite VerifyIdxs_run by done.
    rewrite decide_False by (unfold Len; destruct (meta c); [done|simpl; lia]).
    case_decide as Hd; split.
    + split; [done|]. intros (? & ? & ?). destruct Hd as [?|[?|?]]; done.
    + done.
    + split; [|done]. intros _.
      split_and!; apply dec_stable; intros ?; apply Hd; tauto.
    + done.
  - apply hands_indexed_VerifyIdxs.
Qed.

(** X12. [meta_del] fails exactly when the index has no element for the
    key; it needs no fuel.  For a key of an element [e] it returns the
    cache without the key and without [e], each hand that was on [e] moved
    to the ring predecessor of [e], and each index lowered as [del_idx]
    says. *)
Theorem meta_del_fails_iff_key_missing c k :
  (meta_del c k = Panic ↔ index_lookup c k = None) ∧
  (∀ e, index_lookup c k = Some e →
     meta_del c k =
       Ok (deleted c k e
             (if decide (hand_pos_hot c = Some e) then ring_prev (meta c) e
              else hand_pos_hot c)
             (if decide (hand_pos_cold c = Some e) then ring_prev (meta c) e
              else hand_pos_cold c)
             (if decide (hand_pos_test c = Some e) then ring_prev (meta c) e
              else hand_pos_test c))).
Proof.
  unfold index_lookup. destruct (metaKeys c !! k) as [[e|]|] eqn:Hk; simpl.
  - rewrite (meta_del_run c k e Hk). split; [split; done|].
    by intros e' [= <-].
  - split; [|done]. split; [done|]. intros _.
    unfold meta_del. rewrite Hk. unfold del_hand, retreat.
    cbn [meta set_metaKeys hand_pos_hot hand_pos_cold hand_pos_test].
    destruct (hand_pos_hot c), (hand_pos_cold c), (hand_pos_test c); reflexivity.
  - split; [|done]. split; [done|]. intros _. unfold meta_del. by rewrite Hk.
Qed.

(** X13. [meta_del] keeps the hands in place: when each hand is on an
    element of the list with the index of its position, and the list is
    not emptied, then after the removal of the element of [k] each hand is
    again on an element with the index of its position, so that the check
    of [VerifyIdxs] passes. *)
Theorem meta_del_keeps_indices c k e :
  hands_indexed c → metaKeys c !! k = Some (Some e) → e ∈ meta c →
  Remove (meta c) e ≠ [] →
  ∃ c', meta_del c k = Ok c' ∧
    meta c' = Remove (meta c) e ∧ metaKeys c' = delete k (metaKeys c) ∧
    hand_pos_hot c' =
      (if decide (hand_pos_hot c = Some e) then ring_prev (meta c) e
       else hand_pos_hot c) ∧
    hand_pos_cold c' =
      (if decide (hand_pos_cold c = Some e) then ring_prev (meta c) e
       else hand_pos_cold c) ∧
    hand_pos_test c' =
      (if decide (hand_pos_test c = Some e) then ring_prev (meta c) e
       else hand_pos_test c) ∧
    hands_indexed c' ∧ VerifyIdxs true c' = Ok tt.
Proof.
  intros (Hnd & Hh & Hc & Ht) Hk He Hne. eexists. split; [by apply meta_del_run|].
  assert (hands_indexed
            (deleted c k e
               (if decide (hand_pos_hot c = Some e) then ring_prev (meta c) e
                else hand_pos_hot c)
               (if decide (hand_pos_cold c = Some e) then ring_prev (meta c) e
                else hand_pos_cold c)
               (if decide (hand_pos_test c = Some e) then ring_prev (meta c) e
                else hand_pos_test c))) as Hidx.
  { unfold hands_indexed, deleted.
    cbn [meta hand_pos_hot hand_pos_cold hand_pos_test
         hand_idx_hot hand_idx_cold hand_idx_test].
    split_and!; [by apply NoDup_Remove|by apply del_hand_at..]. }
  split_and!; try done. by apply hands_indexed_VerifyIdxs.
Qed.

(** ** Insertions while there is room *)

(** The insertion of the first element: the three hands are put on it. *)
Lemma meta_add_link_pristine c p :
  hand_pos_hot c = None → meta c = [] →
  hand_idx_hot c = 0 → hand_idx_cold c = 0 → hand_idx_test c = 0 →
  ∃ c', meta_add_link c p = Ok c' ∧
    meta c' = [mkElement (next_elem c) p] ∧
    hand_pos_hot c' = Some (mkElement (next_elem c) p) ∧
    hand_pos_cold c' = Some (mkElement (next_elem c) p) ∧
    hand_pos_test c' = Some (mkElement (next_elem c) p) ∧
    hand_idx_hot c' = 0 ∧ hand_idx_cold c' = 0 ∧ hand_idx_test c' = 0.
Proof.
  destruct c as [mm mc l ks ph pc pt ih ic it ch cc ct hp ne np].
  cbn [meta hand_pos_hot hand_idx_hot hand_idx_cold hand_idx_test next_elem].
  intros -> -> -> -> ->.
  unfold meta_add_link, link_hands_forward, advance_cold, advance_test, advance_hot.
  flatten_cache.
  rewrite decide_False by lia. flatten_cache.
  rewrite decide_True by lia. flatten_cache.
  unfold advance. cbn [deref mbind result_bind Next Front head].
  rewrite decide_True by done. flatten_cache.
  cbn [Next Front head]. rewrite decide_True by done. flatten_cache.
  eexists. split; [reflexivity|]. flatten_cache. by split_and!.
Qed.

(** The first insertion into a new cache. *)
Lemma Set_first size fuel k v :
  1 ≤ size →
  ∃ c', Cache_Set fuel (New size) k v = Ok c' ∧
    ring_ok c' ∧ hands_indexed c' ∧
    meta c' = [mkElement 0 0] ∧ metaKeys c' = {[k := Some (mkElement 0 0)]} ∧
    heap c' 0%nat = mkMetaEntry ptCold k v false ∧
    count_hot c' = 0 ∧ count_cold c' = 1 ∧ count_test c' = 0 ∧
    mem_max c' = size.
Proof.
  intros Hsize.
  destruct (meta_add_link_pristine
              (alloc_entry (mkMetaEntry ptCold k v false) (New size)) 0%nat)
    as (c3 & H3 & Hm & Ph & Pc & Pt & Ih & Ic & It); try reflexivity.
  assert (Cache_Set fuel (New size) k v = Ok (set_count_cold (count_cold c3 + 1) c3))
    as HS.
  { unfold Cache_Set, index_lookup. cbn [metaKeys New]. rewrite lookup_empty.
    cbn [default]. unfold meta_add. rewrite evict_room by (simpl; lia).
    cbn [mbind result_bind]. cbn [next_entry New]. rewrite H3. reflexivity. }
  exists (set_count_cold (count_cold c3 + 1) c3).
  apply meta_add_link_Ok in H3
    as (Hmax & Hmc & Hch & Hcc & Hct & Hh & _ & _ & Hkeys & _).
  cbn [meta metaKeys heap count_hot count_cold count_test mem_max set_count_cold
       hand_pos_hot hand_pos_cold hand_pos_test hand_idx_hot hand_idx_cold
       hand_idx_test].
  split_and!; try done.
  - apply (Cache_Set_ring_ok _ _ _ _ _ HS).
    apply (reachable_ring_ok (λ _, True) size), reach_New.
  - unfold hands_indexed, hand_at.
    cbn [meta hand_pos_hot hand_pos_cold hand_pos_test hand_idx_hot hand_idx_cold
         hand_idx_test set_count_cold].
    rewrite Hm, Ph, Pc, Pt, Ih, Ic, It.
    split_and!; [apply NoDup_singleton|..];
      (eexists; split_and!; [done|apply list_elem_of_here|apply index_of_head]).
  - rewrite Hh. simpl. by rewrite fn_lookup_insert.
  - rewrite Hcc. simpl. lia.
Qed.

(** An insertion of a new key while there is room and the hands are in
    place. *)
Lemma Set_new_with_room fuel c k v :
  ring_ok c → hands_indexed c → index_lookup c k = None →
  count_hot c + count_cold c < mem_max c →
  ∃ c' hot, Cache_Set fuel c k v = Ok c' ∧
    hand_pos_hot c = Some hot ∧
    meta c' = insert_before (mkElement (next_elem c) (next_entry c)) hot (meta c) ∧
    metaKeys c' = <[k := Some (mkElement (next_elem c) (next_entry c))]> (metaKeys c) ∧
    heap c' = <[next_entry c := mkMetaEntry ptCold k v false]> (heap c) ∧
    count_hot c' = count_hot c ∧ count_cold c' = count_cold c + 1 ∧
    count_test c' = count_test c ∧
    mem_max c' = mem_max c ∧ mem_cold c' = mem_cold c ∧
    ring_ok c' ∧ hands_indexed c'.
Proof.
  intros Hring Hidx Hk Hroom. pose proof Hring as [Hok _].
  destruct (meta_add_link_indexed
              (alloc_entry (mkMetaEntry ptCold k v false) c) (next_entry c))
    as (c3 & hot & H3 & Hhot & Hm & _ & _ & _ & _ & Hidx3).
  { exact Hidx. }
  { intros Hin. apply (elems_fresh c Hok) in Hin. simpl in Hin. lia. }
  assert (Cache_Set fuel c k v = Ok (set_count_cold (count_cold c3 + 1) c3)) as HS.
  { unfold Cache_Set. rewrite Hk. unfold meta_add.
    rewrite evict_room by exact Hroom. cbn [mbind result_bind].
    rewrite H3. reflexivity. }
  exists (set_count_cold (count_cold c3 + 1) c3), hot.
  apply meta_add_link_Ok in H3
    as (Hmax & Hmc & Hch & Hcc & Hct & Hh & _ & _ & Hkeys & _).
  split_and!.
  - exact HS.
  - exact Hhot.
  - exact Hm.
  - simpl. rewrite Hkeys. simpl. by rewrite fn_lookup_insert.
  - exact Hh.
  - exact Hch.
  - simpl. rewrite Hcc. done.
  - exact Hct.
  - exact Hmax.
  - exact Hmc.
  - by apply (Cache_Set_ring_ok _ _ _ _ _ HS).
  - exact Hidx3.
Qed.

(** X14. [Set] of a new key while there is room, on a cache whose index
    agrees with the list and whose hands are in place, returns whatever
    the fuel: nothing is evicted, the new element is linked immediately
    before the hot hand with an entry of type Cold holding the value, only
    [count_cold] changes, by one, every other key keeps its element and
    every other entry is unchanged, and the hands are in place again. *)
Theorem Set_new_key_with_room fuel c k v :
  ring_ok c → hands_indexed c → index_lookup c k = None →
  count_hot c + count_cold c < mem_max c →
  ∃ c' hot, Cache_Set fuel c k v = Ok c' ∧
    hand_pos_hot c = Some hot ∧
    meta c' = insert_before (mkElement (next_elem c) (next_entry c)) hot (meta c) ∧
    index_lookup c' k = Some (mkElement (next_elem c) (next_entry c)) ∧
    heap c' (next_entry c) = mkMetaEntry ptCold k v false ∧
    (∀ k', k' ≠ k → index_lookup c' k' = index_lookup c k') ∧
    (∀ q, q ≠ next_entry c → heap c' q = heap c q) ∧
    count_hot c' = count_hot c ∧ count_cold c' = count_cold c + 1 ∧
    count_test c' = count_test c ∧ mem_cold c' = mem_cold c ∧
    ring_ok c' ∧ hands_indexed c' ∧ VerifyIdxs true c' = Ok tt.
Proof.
  intros Hring Hidx Hk Hroom.
  destruct (Set_new_with_room fuel c k v Hring Hidx Hk Hroom)
    as (c' & hot & HS & Hhot & Hm & Hkeys & Hh & Hch & Hcc & Hct & _ & Hmc & Hr' & Hi').
  exists c', hot. split_and!; try done.
  - unfold index_lookup. by rewrite Hkeys, lookup_insert_eq.
  - by rewrite Hh, fn_lookup_insert.
  - intros k' Hne. unfold index_lookup. by rewrite Hkeys, lookup_insert_ne.
  - intros q Hq. by rewrite Hh, fn_lookup_insert_ne.
  - by apply hands_indexed_VerifyIdxs.
Qed.

(** Storing pairs with new, distinct keys while there is room. *)
Lemma fill_run fuel kvs : ∀ c,
  ring_ok c → hands_indexed c →
  NoDup kvs.*1 → (∀ k, k ∈ kvs.*1 → index_lookup c k = None) →
  count_hot c + count_cold c + Z.of_nat (length kvs) ≤ mem_max c →
  ∃ c', run fuel c (fill kvs) = Ok c' ∧
    ring_ok c' ∧ hands_indexed c' ∧
    count_hot c' = count_hot c ∧
    count_cold c' = count_cold c + Z.of_nat (length kvs) ∧
    count_test c' = count_test c ∧ mem_max c' = mem_max c ∧
    Len (meta c') = Len (meta c) + Z.of_nat (length kvs) ∧
    (∀ k v, (k, v) ∈ kvs → (Cache_Get c' k).2 = v) ∧
    (∀ k e, k ∉ kvs.*1 → index_lookup c k = Some e →
       index_lookup c' k = Some e ∧ heap c' (Value e) = heap c (Value e)).
Proof.
  induction kvs as [|[k v] kvs IH]; intros c Hring Hidx Hnd Hnew Hroom.
  - exists c. simpl. split_and!; try done; try lia.
    intros k v Hin. by apply elem_of_nil in Hin.
  - cbn [fmap list_fmap fst] in Hnd, Hnew. apply list.NoDup_cons in Hnd as [Hk Hnd].
    cbn [length] in Hroom.
    destruct (Set_new_with_room fuel c k v Hring Hidx)
      as (c1 & hot & HS & Hhot & Hm & Hkeys & Hh & Hch & Hcc & Hct & Hmax & _ & Hr1 & Hi1).
    { apply Hnew. apply list_elem_of_here. }
    { lia. }
    pose proof Hring as [Hok Hlen]. pose proof Hr1 as [Hok1 Hlen1].
    destruct (IH c1 Hr1 Hi1 Hnd) as (c' & Hrun & Hr' & Hi' & Hch' & Hcc' & Hct' &
                                      Hmax' & Hlen' & Hget & Hkeep).
    { intros k' Hk'. unfold index_lookup. rewrite Hkeys.
      rewrite lookup_insert_ne by (intros ->; done).
      apply (Hnew k'). by apply list_elem_of_further. }
    { lia. }
    exists c'. cbn [length]. unfold length_offset in *.
    split_and!; try done; try lia.
    + cbn [fill map run fst snd]. rewrite HS. exact Hrun.
    + intros k' v' [[= -> ->]|Hin]%elem_of_cons.
      * destruct (Hkeep k (mkElement (next_elem c) (next_entry c)) Hk) as [Hi Hv].
        { unfold index_lookup. by rewrite Hkeys, lookup_insert_eq. }
        rewrite (Get_of_entry c' k _ Hi), Hv, Hh. simpl.
        by rewrite fn_lookup_insert.
      * by apply Hget.
    + intros k' e Hk' He. cbn [fmap list_fmap fst] in Hk'.
      apply not_elem_of_cons in Hk' as [Hne Hk'].
      destruct (Hkeep k' e Hk') as [Hi Hv].
      { unfold index_lookup. rewrite Hkeys, lookup_insert_ne by done. exact He. }
      split; [done|]. rewrite Hv, Hh.
      apply (index_lookup_Some _ _ _ Hok) in He as (_ & Hin & _).
      apply (entries_fresh c Hok) in Hin.
      rewrite fn_lookup_insert_ne; [done|lia].
Qed.

(** X15. Warm-up: on a new cache of size [size], storing up to [size]
    pairs with distinct keys returns whatever the fuel and evicts nothing:
    all the entries are counted Cold, the list has one element for each
    pair, the check of [VerifyIdxs] passes, and [Get] answers for every
    key the value stored with it. *)
Theorem warm_up size fuel kvs :
  NoDup kvs.*1 → Z.of_nat (length kvs) ≤ size →
  ∃ c, run fuel (New size) (fill kvs) = Ok c ∧
    count_hot c = 0 ∧ count_cold c = Z.of_nat (length kvs) ∧ count_test c = 0 ∧
    Len (meta c) = Z.of_nat (length kvs) ∧
    VerifyIdxs true c = Ok tt ∧
    ∀ k v, (k, v) ∈ kvs → (Cache_Get c k).2 = v.
Proof.
  intros Hnd Hsize. destruct kvs as [|[k v] kvs].
  - exists (New size). split_and!; try done.
    intros k v Hin. by apply elem_of_nil in Hin.
  - cbn [fmap list_fmap fst] in Hnd. apply list.NoDup_cons in Hnd as [Hk Hnd].
    cbn [length] in Hsize.
    destruct (Set_first size fuel k v ltac:(lia))
      as (c1 & HS & Hr1 & Hi1 & Hm1 & Hk1 & Hh1 & Hch & Hcc & Hct & Hmax).
    destruct (fill_run fuel kvs c1 Hr1 Hi1 Hnd)
      as (c' & Hrun & Hr' & Hi' & Hch' & Hcc' & Hct' & Hmax' & Hlen' & Hget & Hkeep).
    { intros k' Hk'. unfold index_lookup. rewrite Hk1.
      rewrite lookup_singleton_ne by (intros ->; done). done. }
    { lia. }
    assert (Len (meta c1) = 1) as Hl1 by (by rewrite Hm1).
    exists c'. cbn [length]. split_and!; try lia.
    + cbn [fill map run fst snd]. rewrite HS. exact Hrun.
    + by apply hands_indexed_VerifyIdxs.
    + intros k' v' [[= -> ->]|Hin]%elem_of_cons; [|by apply Hget].
      destruct (Hkeep k (mkElement 0 0) Hk) as [Hi Hv].
      { unfold index_lookup. by rewrite Hk1, lookup_singleton_eq. }
      rewrite (Get_of_entry c' k _ Hi), Hv. cbn [Value]. by rewrite Hh1.
Qed.

(** ** Names and dumps *)

(** X16. [String] names the three page types "Test", "Cold" and "Hot",
    each by a name of its own, and answers "unknown" exactly for the
    integers that are not a page type. *)
Theorem pageType_String_names p :
  pageType_String (pageType_code ptTest) = "Test" ∧
  pageType_String (pageType_code ptCold) = "Cold" ∧
  pageType_String (pageType_code ptHot) = "Hot" ∧
  (pageType_String p = "unknown" ↔ ∀ t, p ≠ pageType_code t) ∧
  (∀ t1 t2, pageType_String (pageType_code t1) = pageType_String (pageType_code t2) →
            t1 = t2).
Proof.
  split_and!; try done.
  - unfold pageType_String.
    destruct (decide (p = pageType_code ptTest)) as [->|Ht].
    { split; [done|]. intros Hall. by destruct (Hall ptTest). }
    destruct (decide (p = pageType_code ptCold)) as [->|Hc].
    { split; [done|]. intros Hall. by destruct (Hall ptCold). }
    destruct (decide (p = pageType_code ptHot)) as [->|Hh].
    { split; [done|]. intros Hall. by destruct (Hall ptHot). }
    split; [|done]. by intros _ [].
  - by intros [] [].
Qed.

Lemma occurrences_nil x : occurrences x [] = 0.
Proof. done. Qed.

Lemma occurrences_app x b1 b2 :
  occurrences x (b1 ++ b2) = occurrences x b1 + occurrences x b2.
Proof. unfold occurrences. rewrite list.filter_app, length_app. lia. Qed.

Lemma occurrences_cons x y b :
  occurrences x (y :: b) = (if decide (y = x) then 1 else 0) + occurrences x b.
Proof.
  unfold occurrences. destruct (decide (y = x)) as [Hy|Hy].
  - rewrite filter_cons_True by done. simpl length. lia.
  - rewrite filter_cons_False by done. lia.
Qed.

Lemma occurrences_mark (P : Prop) `{Decision P} x y :
  occurrences x (if decide P then [y] else []) =
    if decide (P ∧ y = x) then 1 else 0.
Proof.
  destruct (decide P) as [HP|HP].
  - rewrite occurrences_cons, occurrences_nil.
    destruct (decide (y = x)).
    + rewrite decide_True by done. lia.
    + rewrite decide_False by tauto. lia.
  - rewrite occurrences_nil. rewrite decide_False by tauto. done.
Qed.

Lemma occurrences_dump_element c e x :
  occurrences x (dump_element c e) =
    (if decide (hand_pos_hot c = Some e ∧ "2"%char = x) then 1 else 0) +
    (if decide (hand_pos_test c = Some e ∧ "0"%char = x) then 1 else 0) +
    (if decide (hand_pos_cold c = Some e ∧ "1"%char = x) then 1 else 0) +
    (if decide (type_letter (heap c (Value e)) = x) then 1 else 0).
Proof.
  unfold dump_element. rewrite !occurrences_app, !occurrences_mark.
  rewrite occurrences_cons, occurrences_nil. lia.
Qed.

Lemma length_dump_element c e :
  Z.of_nat (length (dump_element c e)) =
    1 + (if decide (hand_pos_hot c = Some e) then 1 else 0)
      + (if decide (hand_pos_test c = Some e) then 1 else 0)
      + (if decide (hand_pos_cold c = Some e) then 1 else 0).
Proof.
  unfold dump_element. rewrite !length_app. repeat case_decide; simpl; lia.
Qed.

Lemma on_list_cons e r pos :
  e ∉ r →
  on_list (e :: r) pos = (if decide (pos = Some e) then 1 else 0) + on_list r pos.
Proof.
  intros He. destruct pos as [x|]; [|done]. unfold on_list.
  destruct (decide (x = e)) as [->|Hne].
  - rewrite decide_True by apply list_elem_of_here.
    rewrite decide_True by done. rewrite decide_False by done. done.
  - rewrite (decide_False (P := Some x = Some e)) by congruence.
    destruct (decide (x ∈ r)) as [Hin|Hnin].
    + rewrite decide_True by (by apply list_elem_of_further). done.
    + rewrite decide_False; [done|]. intros [?|?]%elem_of_cons; done.
Qed.

Lemma occurrences_dump_letter c e x :
  x ≠ "2"%char → x ≠ "0"%char → x ≠ "1"%char →
  occurrences x (dump_element c e) =
    if decide (type_letter (heap c (Value e)) = x) then 1 else 0.
Proof.
  intros N2 N0 N1. rewrite occurrences_dump_element.
  rewrite !(decide_False (P := _ ∧ _)) by (intros [_ ?]; done). lia.
Qed.

Lemma type_letter_no_digit m :
  type_letter m ≠ "2"%char ∧ type_letter m ≠ "0"%char ∧ type_letter m ≠ "1"%char.
Proof. unfold type_letter. by destruct (ptype m), (ref m). Qed.

Lemma occurrences_dump_hot c e :
  occurrences "2" (dump_element c e) =
    if decide (hand_pos_hot c = Some e) then 1 else 0.
Proof.
  destruct (type_letter_no_digit (heap c (Value e))) as (N2 & _ & _).
  rewrite occurrences_dump_element.
  rewrite (decide_False (P := hand_pos_test c = _ ∧ _)) by (intros [_ ?]; done).
  rewrite (decide_False (P := hand_pos_cold c = _ ∧ _)) by (intros [_ ?]; done).
  rewrite (decide_False (P := type_letter _ = _)) by done.
  destruct (decide (hand_pos_hot c = Some e)).
  - rewrite decide_True by done. lia.
  - rewrite decide_False by tauto. lia.
Qed.

Lemma occurrences_dump_test c e :
  occurrences "0" (dump_element c e) =
    if decide (hand_pos_test c = Some e) then 1 else 0.
Proof.
  destruct (type_letter_no_digit (heap c (Value e))) as (_ & N0 & _).
  rewrite occurrences_dump_element.
  rewrite (decide_False (P := hand_pos_hot c = _ ∧ _)) by (intros [_ ?]; done).
  rewrite (decide_False (P := hand_pos_cold c = _ ∧ _)) by (intros [_ ?]; done).
  rewrite (decide_False (P := type_letter _ = _)) by done.
  destruct (decide (hand_pos_test c = Some e)).
  - rewrite decide_True by done. lia.
  - rewrite decide_False by tauto. lia.
Qed.

Lemma occurrences_dump_cold c e :
  occurrences "1" (dump_element c e) =
    if decide (hand_pos_cold c = Some e) then 1 else 0.
Proof.
  destruct (type_letter_no_digit (heap c (Value e))) as (_ & _ & N1).
  rewrite occurrences_dump_element.
  rewrite (decide_False (P := hand_pos_hot c = _ ∧ _)) by (intros [_ ?]; done).
  rewrite (decide_False (P := hand_pos_test c = _ ∧ _)) by (intros [_ ?]; done).
  rewrite (decide_False (P := type_letter _ = _)) by done.
  destruct (decide (hand_pos_cold c = Some e)).
  - rewrite decide_True by done. lia.
  - rewrite decide_False by tauto. lia.
Qed.

Lemma type_letter_Test m :
  (if decide (type_letter m = "n"%char) then 1 else 0) =
  (if decide (ptype m = ptTest) then 1 else 0).
Proof. unfold type_letter. by destruct (ptype m), (ref m). Qed.

Lemma type_letter_Hot m :
  (if decide (type_letter m = "H"%char) then 1 else 0) +
  (if decide (type_letter m = "h"%char) then 1 else 0) =
  (if decide (ptype m = ptHot) then 1 else 0).
Proof. unfold type_letter. by destruct (ptype m), (ref m). Qed.

Lemma type_letter_Cold m :
  (if decide (type_letter m = "C"%char) then 1 else 0) +
  (if decide (type_letter m = "c"%char) then 1 else 0) =
  (if decide (ptype m = ptCold) then 1 else 0).
Proof. unfold type_letter. by destruct (ptype m), (ref m). Qed.

(** The letters and digits of a dump of the elements [l]. *)
Lemma dump_counts c l :
  NoDup l →
  occurrences "n" (concat (map (dump_element c) l)) = population (heap c) l ptTest ∧
  occurrences "H" (concat (map (dump_element c) l)) +
    occurrences "h" (concat (map (dump_element c) l)) = population (heap c) l ptHot ∧
  occurrences "C" (concat (map (dump_element c) l)) +
    occurrences "c" (concat (map (dump_element c) l)) = population (heap c) l ptCold ∧
  occurrences "2" (concat (map (dump_element c) l)) = on_list l (hand_pos_hot c) ∧
  occurrences "0" (concat (map (dump_element c) l)) = on_list l (hand_pos_test c) ∧
  occurrences "1" (concat (map (dump_element c) l)) = on_list l (hand_pos_cold c) ∧
  Z.of_nat (length (concat (map (dump_element c) l))) =
    Len l + on_list l (hand_pos_hot c) + on_list l (hand_pos_test c) +
    on_list l (hand_pos_cold c).
Proof.
  induction l as [|e r IH]; intros Hnd.
  - unfold on_list. by destruct (hand_pos_hot c), (hand_pos_test c), (hand_pos_cold c).
  - apply list.NoDup_cons in Hnd as [He Hnd].
    destruct (IH Hnd) as (In & IH' & IC & I2 & I0 & I1 & IL).
    cbn [map concat]. rewrite !occurrences_app.
    rewrite !occurrences_dump_letter by done.
    rewrite occurrences_dump_hot, occurrences_dump_test, occurrences_dump_cold.
    rewrite length_app, Nat2Z.inj_add, length_dump_element.
    rewrite !population_cons, !on_list_cons by done.
    rewrite <- type_letter_Test, <- type_letter_Hot, <- type_letter_Cold.
    unfold Len in *. cbn [length]. split_and!; lia.
Qed.

(** X17. [Dump] prints nothing when [DEBUG] is off, as it is in the
    source.  With [DEBUG] on it prints one line, which has one letter for
    each element of the list: the letters [n] are as many as the entries
    of type Test, the letters [H] and [h] as many as those of type Hot, the
    letters [C] and [c] as many as those of type Cold; and when the hands
    are in place each of the digits [2], [0] and [1] is printed once, so
    that the line is three bytes longer than the list. *)
Theorem Dump_line c :
  NoDup (meta c) →
  Dump false c = None ∧
  ∃ b, Dump true c = Some b ∧
    occurrences "n" b = population (heap c) (meta c) ptTest ∧
    occurrences "H" b + occurrences "h" b = population (heap c) (meta c) ptHot ∧
    occurrences "C" b + occurrences "c" b = population (heap c) (meta c) ptCold ∧
    (hands_indexed c →
       occurrences "2" b = 1 ∧ occurrences "0" b = 1 ∧ occurrences "1" b = 1 ∧
       Z.of_nat (length b) = Len (meta c) + 3).
Proof.
  intros Hnd. split; [done|]. eexists. split; [reflexivity|].
  destruct (dump_counts c (meta c) Hnd) as (In & IH & IC & I2 & I0 & I1 & IL).
  split_and!; try done.
  intros (_ & (h & Hh & Hhin & _) & (x & Hx & Hxin & _) & (t & Ht & Htin & _)).
  rewrite IL, I2, I0, I1, Hh, Hx, Ht. unfold on_list.
  rewrite !decide_True by done. split_and!; lia.
Qed.

(** ** One eviction *)

(** One round of [evict] on a full cache whose cold hand is on a cold
    entry that was not referenced: the entry goes to the test state and the
    cold hand steps on; neither of the two loops of [hand_cold] runs. *)
Lemma evict_one n c h :
  hands_indexed c →
  count_hot c + count_cold c = mem_max c → count_test c < mem_max c →
  count_hot c ≤ mem_max c - mem_cold c →
  hand_pos_cold c = Some h →
  ptype (heap c (Value h)) = ptCold → ref (heap c (Value h)) = false →
  ∃ pos idx,
    hand_at (meta c) pos idx ∧ pos = ring_next (meta c) h ∧
    evict (S (S n)) c =
      Ok (set_hand_idx_cold idx (set_hand_pos_cold pos (cold_demote (Value h) c))).
Proof.
  intros (Hnd & Hh & Hc & Ht) Hfull Htest Hhot Hcold Hty Href.
  destruct (advance_hand_at _ _ _ Hnd Hc) as (h' & pos & idx & Hh' & Hadv & Hpos & Hat).
  rewrite Hcold in Hh'. injection Hh' as <-.
  exists pos, idx. split_and!; try done.
  rewrite evict_eq, decide_True by lia. rewrite hand_cold_S, Hcold.
  cbn [deref mbind result_bind]. rewrite decide_True by done. rewrite Href.
  rewrite hand_cold_test_loop_eq, decide_False by (simpl; lia).
  cbn [mbind result_bind]. unfold advance_cold.
  change (meta (cold_demote (Value h) c)) with (meta c).
  change (hand_pos_cold (cold_demote (Value h) c)) with (hand_pos_cold c).
  change (hand_idx_cold (cold_demote (Value h) c)) with (hand_idx_cold c).
  rewrite Hadv. cbn [mbind result_bind].
  rewrite hand_cold_hot_loop_eq, decide_False by (simpl; lia).
  cbn [mbind result_bind].
  rewrite evict_eq, decide_False by (simpl; lia). done.
Qed.

(** X18. One eviction, end to end: on a full cache whose hands are in
    place, whose cold hand is on a cold entry that was not referenced, and
    in which neither loop of [hand_cold] has work to do, [Set] of a new key
    returns with two units of fuel or more; the entry under the cold hand
    goes to the test state and loses its value, so that [Get] of its key
    misses from then on; the new key is stored and found; every other
    element keeps its entry and its place in the index; and the counters
    record one Cold entry more, one less, and one Test entry more. *)
Theorem Set_evicts_entry_under_cold_hand fuel c k v h :
  ring_ok c → hands_indexed c → index_lookup c k = None →
  count_hot c + count_cold c = mem_max c → count_test c < mem_max c →
  count_hot c ≤ mem_max c - mem_cold c →
  hand_pos_cold c = Some h →
  ptype (heap c (Value h)) = ptCold → ref (heap c (Value h)) = false →
  ∃ c', Cache_Set (S (S fuel)) c k v = Ok c' ∧
    heap c' (Value h) = set_val None (set_ptype ptTest (heap c (Value h))) ∧
    (Cache_Get c' (key (heap c (Value h)))).2 = None ∧
    (Cache_Get c' k).2 = v ∧
    (∀ e, e ∈ meta c → e ≠ h →
       heap c' (Value e) = heap c (Value e) ∧
       index_lookup c' (key (heap c (Value e))) = Some e) ∧
    count_hot c' = count_hot c ∧ count_cold c' = count_cold c ∧
    count_test c' = count_test c + 1 ∧
    Len (meta c') = Len (meta c) + 1 ∧
    hands_indexed c'.
Proof.
  intros [Hok Hlen] Hidx Hk Hfull Htest Hhot Hcold Hty Href.
  pose proof Hidx as (Hnd & Hh & (h' & Hh' & Hhin & _) & Ht).
  rewrite Hcold in Hh'. injection Hh' as <-.
  apply (index_lookup_None _ _ Hok) in Hk as Hkn.
  set (m0 := mkMetaEntry ptCold k v false).
  set (p := next_entry c).
  assert (∀ e, e ∈ meta c → p ≠ Value e) as Hfresh.
  { intros e He. apply (entries_fresh c Hok) in He. unfold p. lia. }
  assert (heap (alloc_entry m0 c) (Value h) = heap c (Value h)) as Hh0.
  { simpl. rewrite fn_lookup_insert_ne; [done|by apply Hfresh]. }
  destruct (evict_one fuel (alloc_entry m0 c) h) as (pos & idx & Hat & Hpos & Hev);
    try done; try (by rewrite Hh0).
  set (c1 := set_hand_idx_cold idx
               (set_hand_pos_cold pos (cold_demote (Value h) (alloc_entry m0 c)))) in *.
  assert (hands_indexed c1) as Hidx1 by (by split_and!).
  destruct (meta_add_link_indexed c1 p Hidx1)
    as (c3 & hot & H3 & Hhot3 & Hm3 & _ & _ & _ & Hc3 & Hidx3).
  { intros Hin. apply (elems_fresh c Hok) in Hin. simpl in Hin. lia. }
  assert (Cache_Set (S (S fuel)) c k v = Ok (set_count_cold (count_cold c3 + 1) c3))
    as HS.
  { unfold Cache_Set. rewrite Hk. unfold meta_add. fold m0. rewrite Hev.
    cbn [mbind result_bind]. fold p. rewrite H3. reflexivity. }
  exists (set_count_cold (count_cold c3 + 1) c3).
  apply meta_add_link_Ok in H3
    as (_ & _ & Hch & Hcc & Hct & Hheap & _ & _ & Hkeys & _).
  assert (heap c3 =
          <[Value h := set_val None (set_ptype ptTest (heap c (Value h)))]>
            (<[p := m0]> (heap c))) as Hheap3.
  { rewrite Hheap. unfold c1. simpl. by rewrite fn_lookup_insert_ne by (by apply Hfresh). }
  assert (metaKeys c3 = <[k := Some (mkElement (next_elem c) p)]> (metaKeys c)) as Hkeys3.
  { rewrite Hkeys. unfold c1. simpl.
    rewrite fn_lookup_insert_ne by (by apply not_eq_sym, Hfresh).
    by rewrite fn_lookup_insert. }
  assert (∀ e, e ∈ meta c →
            index_lookup (set_count_cold (count_cold c3 + 1) c3)
              (key (heap c (Value e))) = Some e) as Hindex.
  { intros e He. unfold index_lookup. cbn [metaKeys set_count_cold].
    rewrite Hkeys3, lookup_insert_ne by (by apply not_eq_sym, index_ok_absent_key).
    by rewrite (index_complete c Hok e He). }
  split_and!.
  - exact HS.
  - cbn [heap set_count_cold]. by rewrite Hheap3, fn_lookup_insert.
  - rewrite (Get_of_entry _ _ h) by (by apply Hindex).
    cbn [heap set_count_cold]. by rewrite Hheap3, fn_lookup_insert.
  - rewrite (Get_of_entry _ k (mkElement (next_elem c) p)).
    + cbn [heap set_count_cold Value]. rewrite Hheap3.
      rewrite fn_lookup_insert_ne by (by apply not_eq_sym, Hfresh).
      by rewrite fn_lookup_insert.
    + unfold index_lookup. cbn [metaKeys set_count_cold].
      by rewrite Hkeys3, lookup_insert_eq.
  - intros e He Hne. split; [|by apply Hindex].
    cbn [heap set_count_cold]. rewrite Hheap3.
    rewrite fn_lookup_insert_ne.
    + rewrite fn_lookup_insert_ne; [done|by apply Hfresh].
    + intros Heq. apply Hne. symmetry. by apply (index_ok_Value_inj c).
  - exact Hch.
  - cbn [count_cold set_count_cold]. rewrite Hcc. unfold c1. simpl. lia.
  - cbn [count_test set_count_cold]. rewrite Hct. unfold c1. simpl. lia.
  - cbn [meta set_count_cold]. rewrite Hm3. unfold Len.
    rewrite insert_before_perm.
    + unfold c1. simpl. lia.
    + destruct Hidx1 as (_ & (x & Hx & Hxin & _) & _).
      rewrite Hhot3 in Hx. by injection Hx as <-.
  - exact Hidx3.
Qed.

(** C1. For a cache built with a size of at least one, after every public
    call that returns: the resident entries are at most [mem_max], the test
    entries are at most [mem_max], and the list holds exactly
    [count_hot + count_cold + count_test] elements, hence at most
    [2 * mem_max]. *)
Theorem counters_bounded size c :
  1 ≤ size → reachable size c →
  count_hot c + count_cold c ≤ mem_max c ∧
  count_test c ≤ mem_max c ∧
  Len (meta c) = count_hot c + count_cold c + count_test c ∧
  Len (meta c) ≤ 2 * mem_max c.
Proof.
  intros Hsize Hr.
  destruct (reachable_counts _ size c ltac:(lia) Hr) as (_ & Hres & Htest).
  destruct (reachable_ring_ok _ _ _ Hr) as [_ Hlen]. unfold length_offset in Hlen.
  split_and!; [done|done|lia|lia].
Qed.

(** C6. For a cache built with a size of at least one, the cold target
    lies between [1] and [mem_max] after every public call that returns;
    the promotion of [Set] raises it only below [mem_max], and the removal
    step of [hand_test] lowers it only above [1]. *)
Theorem mem_cold_in_range size c :
  1 ≤ size → reachable size c →
  (1 ≤ mem_cold c ≤ mem_max c) ∧
  (∀ p v, mem_cold (promote_entry p v c) =
          if decide (mem_cold c < mem_max c) then mem_cold c + 1 else mem_cold c) ∧
  (∀ m c', test_remove m c = Ok c' →
           mem_cold c' = if decide (1 < mem_cold c) then mem_cold c - 1 else mem_cold c).
Proof.
  intros Hsize Hr. apply (reachable_sizing _ _ _ Hsize) in Hr as [Hmax Hcold].
  split; [lia|]. split.
  - intros p v. unfold promote_entry. by case_decide.
  - intros m c' (h & c1 & _ & Hd & R)%test_remove_Ok.
    destruct R as (_&_&_&_&_&_&_&_&_&_&Hc&_).
    apply meta_del_Ok in Hd as (e & hot & cold & test & _ & _ & _ & _ & ->).
    exact Hc.
Qed.

End Proofs.

(** * Instances on concrete caches *)

(** ** A call of [Set] that does not return *)

Lemma cache_stuck_hands :
  hand_pos_hot cache_stuck = Some (mkElement 0 0) ∧
  hand_pos_cold cache_stuck = Some (mkElement 0 0) ∧
  hand_pos_test cache_stuck = Some (mkElement 0 0) ∧
  heap cache_stuck 0 = mkMetaEntry ptHot "a" (Some 1) false.
Proof. by vm_compute. Qed.

Lemma cache_stuck_sizing :
  mem_max cache_stuck = 1 ∧ mem_cold cache_stuck = 1 ∧ count_hot cache_stuck = 1.
Proof. by vm_compute. Qed.

Lemma cache_stuck_advance : advance_cold cache_stuck = Ok cache_stuck.
Proof. vm_compute. reflexivity. Qed.

(** On [cache_stuck] each hand only calls the next one. *)
Lemma stuck_hand_cold n :
  hand_cold (S n) cache_stuck = hand_cold_hot_loop n cache_stuck.
Proof.
  destruct cache_stuck_hands as (_ & Hc & _ & Hh).
  rewrite hand_cold_S, Hc. cbn [deref mbind result_bind Value].
  rewrite Hh. cbn [ptype]. rewrite decide_False by done.
  cbn [mbind result_bind]. by rewrite cache_stuck_advance.
Qed.

Lemma stuck_hot_loop n :
  hand_cold_hot_loop (S n) cache_stuck =
    c1 ← hand_hot n cache_stuck; hand_cold_hot_loop n c1.
Proof.
  destruct cache_stuck_sizing as (Hm & Hc & Hh).
  rewrite hand_cold_hot_loop_eq. rewrite decide_True; [done|]. rewrite Hm, Hc, Hh. lia.
Qed.

Lemma stuck_hand_hot n :
  hand_test n cache_stuck = OutOfFuel → hand_hot (S n) cache_stuck = OutOfFuel.
Proof.
  destruct cache_stuck_hands as (Hh & _ & Ht & _).
  intros H. rewrite hand_hot_S. rewrite decide_True by congruence. by rewrite H.
Qed.

Lemma stuck_hand_test n :
  hand_cold n cache_stuck = OutOfFuel → hand_test (S n) cache_stuck = OutOfFuel.
Proof.
  destruct cache_stuck_hands as (_ & Hc & Ht & _).
  intros H. rewrite hand_test_S. rewrite decide_True by congruence. by rewrite H.
Qed.

Lemma cache_stuck_cycle n :
  hand_cold n cache_stuck = OutOfFuel ∧
  hand_cold_hot_loop n cache_stuck = OutOfFuel ∧
  hand_hot n cache_stuck = OutOfFuel ∧
  hand_test n cache_stuck = OutOfFuel.
Proof.
  induction n as [|n (IHc & IHl & IHh & IHt)].
  - by split_and!.
  - split_and!.
    + by rewrite stuck_hand_cold.
    + by rewrite stuck_hot_loop, IHh.
    + by apply stuck_hand_hot.
    + by apply stuck_hand_test.
Qed.

(** The first [hand_cold] that [Set "b"] runs on [cache_one] promotes [a]
    and arrives at [cache_stuck]. *)
Lemma cache_one_b_facts :
  index_lookup cache_one "b" = None ∧ next_entry cache_one = 1%nat ∧
  mem_max cache_one_b = 1 ∧ count_hot cache_one_b = 0 ∧ count_cold cache_one_b = 1 ∧
  hand_pos_cold cache_one_b = Some (mkElement 0 0) ∧
  heap cache_one_b 0 = mkMetaEntry ptCold "a" (Some 1) true.
Proof. by vm_compute. Qed.

(** C2 fails on the code. In the cache of capacity one whose only entry
    has been read, [Set] of a second key never returns: [hand_cold],
    [hand_hot] and [hand_test] call one another on an unchanged cache, so
    no amount of fuel suffices. *)
Theorem Set_diverges_at_size_one fuel :
  Cache_Set fuel cache_one "b" (Some 2) = OutOfFuel.
Proof.
  destruct cache_one_b_facts as (Hk & Hp & Hm & Hh & Hc & Hpos & Hheap).
  unfold Cache_Set. rewrite Hk. fold cache_one_b. unfold meta_add.
  rewrite evict_eq. rewrite decide_True by (rewrite Hm, Hh, Hc; lia).
  destruct fuel as [|[|n]]; [done|done|].
  rewrite hand_cold_S, Hpos. cbn [deref mbind result_bind Value].
  rewrite Hheap. cbn [ptype ref]. rewrite decide_True by done.
  cbn [mbind result_bind]. fold cache_stuck. rewrite cache_stuck_advance.
  cbn [mbind result_bind].
  by rewrite (proj1 (proj2 (cache_stuck_cycle n))).
Qed.

Lemma cache_abc_reachable : reachable_nonnil 2 cache_abc.
Proof.
  apply (run_reachable is_Some 2 20
           [OpSet "a" (Some 1); OpSet "b" (Some 2); OpSet "c" (Some 3)]
           (New 2)).
  - apply reach_New.
  - repeat constructor; simpl; eauto.
  - vm_compute. reflexivity.
Defined.

Lemma reachable_nonnil_reachable {V : Type} size (c : @Cache V) :
  reachable_nonnil size c → reachable size c.
Proof.
  induction 1 as [|c k _ IH|c fuel k v c' _ IH _ HS].
  - apply reach_New.
  - by apply reach_Get.
  - by eapply reach_Set.
Defined.

Lemma mem_cold_in_range_witness : 1 ≤ mem_cold cache_abc ≤ mem_max cache_abc.
Proof.
  apply (mem_cold_in_range 2 cache_abc); [lia|].
  apply reachable_nonnil_reachable, cache_abc_reachable.
Defined.

Lemma counters_bounded_witness :
  count_hot cache_abc + count_cold cache_abc ≤ mem_max cache_abc ∧
  count_test cache_abc ≤ mem_max cache_abc ∧
  Len (meta cache_abc) = count_hot cache_abc + count_cold cache_abc + count_test cache_abc ∧
  Len (meta cache_abc) ≤ 2 * mem_max cache_abc.
Proof.
  apply (counters_bounded 2 cache_abc); [lia|].
  apply reachable_nonnil_reachable, cache_abc_reachable.
Defined.

(** In [cache_abc] the key [b] is in the test state, and [Get] misses it. *)
Lemma Get_miss_iff_absent_or_valueless_witness :
  (Cache_Get cache_abc "b").2 = None.
Proof.
  refine (proj2 (proj2 (Get_miss_iff_absent_or_valueless cache_abc "b"))
            2 (mkElement 1 1) _ _ _).
  - apply reachable_nonnil_reachable, cache_abc_reachable.
  - vm_compute. reflexivity.
  - vm_compute. reflexivity.
Defined.

(** The claim C3 read with the type of the entry fails on [cache_nil]:
    [Get] misses the key [a], which is in the index with an entry of type
    Cold. *)
Lemma Get_misses_resident_nil_value :
  ¬ ((Cache_Get cache_nil "a").2 = None ↔
       index_lookup cache_nil "a" = None ∨
       ∃ e, index_lookup cache_nil "a" = Some e ∧
            ptype (heap cache_nil (Value e)) = ptTest).
Proof.
  intros [H _].
  assert (index_lookup cache_nil "a" = Some (mkElement 0 0)) as Hl
    by (vm_compute; reflexivity).
  assert ((Cache_Get cache_nil "a").2 = None) as Hmiss
    by (vm_compute; reflexivity).
  destruct (H Hmiss) as [Hn|(e & He & Hty)].
  - rewrite Hl in Hn. discriminate.
  - rewrite Hl in He. injection He as <-. vm_compute in Hty. discriminate.
Qed.

(** The claim C9 fails at size zero: [New] returns a cache, which answers
    [Get]. *)
Lemma New_accepts_size_zero :
  ∃ c : @Cache Z, New 0 = c ∧ mem_max c = 0 ∧ mem_cold c = 0 ∧ meta c = [] ∧
    reachable 0 c ∧ Cache_Get c "a" = (c, None).
Proof.
  exists (New 0). split_and!; try done. apply reach_New.
Qed.

Lemma Set_nil_then_Get_misses_witness :
  Cache_Get cache_nil "a" = (cache_nil, None) ∧
  count_cold cache_nil = count_cold (@New Z 2) + 1 ∧
  ∃ e, index_lookup cache_nil "a" = Some e ∧ e ∈ meta cache_nil ∧
       heap cache_nil (Value e) = mkMetaEntry ptCold "a" None false.
Proof.
  apply (Set_nil_then_Get_misses 20 (New 2) "a" cache_nil).
  - simpl. lia.
  - vm_compute. reflexivity.
  - vm_compute. reflexivity.
Defined.

(** The first half of the claim C7 fails on [cache_nil]: its only entry is
    of type Cold and holds no value. *)
Lemma nil_value_entry_is_not_test :
  ¬ (∀ e, e ∈ meta cache_nil →
       (ptype (heap cache_nil (Value e)) = ptTest ↔
        val (heap cache_nil (Value e)) = None)).
Proof.
  intros H. specialize (H (mkElement 0 0)).
  assert (mkElement 0 0 ∈ meta cache_nil) as Hin.
  { vm_compute. apply list_elem_of_here. }
  destruct (H Hin) as [_ H2].
  assert (ptype (heap cache_nil (Value (mkElement 0 0))) = ptTest) as Hty.
  { apply H2. vm_compute. reflexivity. }
  vm_compute in Hty. discriminate.
Qed.

Lemma cache_a_b_facts :
  meta cache_a_b = [mkElement 0 0] ∧
  hand_pos_hot cache_a_b = Some (mkElement 0 0) ∧
  hand_pos_cold cache_a_b = Some (mkElement 0 0) ∧
  hand_pos_test cache_a_b = Some (mkElement 0 0) ∧
  hand_idx_hot cache_a_b = 0 ∧ hand_idx_cold cache_a_b = 0 ∧
  hand_idx_test cache_a_b = 0 ∧ next_elem cache_a_b = 1%nat ∧
  evict 20 cache_a_b = Ok cache_a_b.
Proof. vm_compute. by split_and!. Qed.

Lemma cache_a_b_indexed : hands_indexed cache_a_b.
Proof.
  destruct cache_a_b_facts as (Hm & Hh & Hc & Ht & Ih & Ic & It & _).
  unfold hands_indexed, hand_at. rewrite Hm, Hh, Hc, Ht, Ih, Ic, It.
  split_and!; [apply NoDup_singleton|..];
    (exists (mkElement 0 0); split_and!; [done|apply list_elem_of_here|done]).
Defined.

Lemma meta_add_keeps_hot_and_test_witness :
  ∃ c' hot,
    meta_add 20 cache_a_b 1 = Ok c' ∧ hand_pos_hot cache_a_b = Some hot ∧
    meta c' = insert_before (mkElement (next_elem cache_a_b) 1) hot (meta cache_a_b) ∧
    Next (meta c') (mkElement (next_elem cache_a_b) 1) = Some hot ∧
    hand_pos_hot c' = hand_pos_hot cache_a_b ∧
    hand_pos_test c' = hand_pos_test cache_a_b ∧
    hand_pos_cold c' =
      (if decide (hand_pos_cold cache_a_b = hand_pos_hot cache_a_b)
       then Some (mkElement (next_elem cache_a_b) 1) else hand_pos_cold cache_a_b) ∧
    hands_indexed c'.
Proof.
  apply (meta_add_keeps_hot_and_test 20 cache_a_b 1 cache_a_b).
  - apply cache_a_b_facts.
  - apply cache_a_b_indexed.
  - destruct cache_a_b_facts as (Hm & _ & _ & _ & _ & _ & _ & Hn & _).
    rewrite Hm, Hn. intros [=]%list_elem_of_singleton.
Defined.

(** The claim C8 fails on [cache_a_b], where all three hands are on the
    only element: after [meta_add] the cold hand is on the new element. *)
Lemma meta_add_moves_cold_hand :
  ∃ c', meta_add 20 cache_a_b 1 = Ok c' ∧
    meta cache_a_b = [mkElement 0 0] ∧
    hand_pos_cold cache_a_b = Some (mkElement 0 0) ∧
    meta c' = [mkElement 1 1; mkElement 0 0] ∧
    hand_pos_cold c' = Some (mkElement 1 1) ∧
    hand_pos_cold c' ≠ hand_pos_cold cache_a_b.
Proof.
  eexists. split; [vm_compute; reflexivity|]. vm_compute. by split_and!.
Qed.

(** ** Instances of the further properties *)

(** Decides a closed decidable proposition by evaluation. *)
Ltac by_evaluation :=
  match goal with |- ?P => apply (bool_decide_unpack P) end; vm_compute; exact I.

(** The hands of a concrete cache are in place. *)
Ltac hands_in_place :=
  unfold hands_indexed, hand_at;
  split_and!;
    [ by_evaluation
    | eexists; split_and!; [vm_compute; reflexivity | by_evaluation | vm_compute; reflexivity] .. ].

Lemma cache_ab_reachable : reachable_nonnil 2 cache_ab.
Proof.
  apply (run_reachable is_Some 2 20 [OpSet "a" (Some 1); OpSet "b" (Some 2)] (New 2)).
  - apply reach_New.
  - repeat constructor; simpl; eauto.
  - vm_compute. reflexivity.
Defined.

Lemma cache_a_reachable : reachable_nonnil 3 cache_a.
Proof.
  apply (run_reachable is_Some 3 20 [OpSet "a" (Some 1)] (New 3)).
  - apply reach_New.
  - repeat constructor; simpl; eauto.
  - vm_compute. reflexivity.
Defined.

Lemma cache_ab_indexed : hands_indexed cache_ab.
Proof. hands_in_place. Defined.

Lemma cache_a_indexed : hands_indexed cache_a.
Proof. hands_in_place. Defined.

Lemma cache_ab_ring_ok : ring_ok cache_ab.
Proof. apply (reachable_ring_ok is_Some 2), cache_ab_reachable. Defined.

Lemma cache_a_ring_ok : ring_ok cache_a.
Proof. apply (reachable_ring_ok is_Some 3), cache_a_reachable. Defined.

Lemma counters_are_populations_witness :
  count_hot cache_abc = population (heap cache_abc) (meta cache_abc) ptHot ∧
  count_cold cache_abc = population (heap cache_abc) (meta cache_abc) ptCold ∧
  count_test cache_abc = population (heap cache_abc) (meta cache_abc) ptTest ∧
  ∀ e, e ∈ meta cache_abc →
    (ptype (heap cache_abc (Value e)) = ptTest ↔
     val (heap cache_abc (Value e)) = None).
Proof. apply (counters_are_populations 2 cache_abc), cache_abc_reachable. Defined.

Lemma hands_stay_on_the_list_witness :
  hand_live (meta cache_abc) (hand_pos_hot cache_abc) ∧
  hand_live (meta cache_abc) (hand_pos_cold cache_abc) ∧
  hand_live (meta cache_abc) (hand_pos_test cache_abc) ∧
  (meta cache_abc ≠ [] →
   ∃ h, hand_pos_hot cache_abc = Some h ∧ h ∈ meta cache_abc).
Proof. apply (hands_stay_on_the_list 2 cache_abc), cache_abc_reachable. Defined.

Lemma hits_are_resident_and_bounded_witness :
  ((Cache_Get cache_abc "a").2 ≠ None ↔
     ∃ e, index_lookup cache_abc "a" = Some e ∧ e ∈ meta cache_abc ∧
          ptype (heap cache_abc (Value e)) ≠ ptTest) ∧
  population (heap cache_abc) (meta cache_abc) ptHot +
    population (heap cache_abc) (meta cache_abc) ptCold ≤ 2.
Proof.
  apply (hits_are_resident_and_bounded 2 cache_abc "a"); [lia|].
  apply cache_abc_reachable.
Defined.

Lemma index_agrees_with_list_witness :
  NoDup (meta cache_abc) ∧
  (∀ k e, index_lookup cache_abc k = Some e ↔
          e ∈ meta cache_abc ∧ key (heap cache_abc (Value e)) = k) ∧
  (∀ k, metaKeys cache_abc !! k ≠ Some None) ∧
  (∀ e1 e2, e1 ∈ meta cache_abc → e2 ∈ meta cache_abc →
     key (heap cache_abc (Value e1)) = key (heap cache_abc (Value e2)) → e1 = e2).
Proof.
  apply (index_agrees_with_list 2 cache_abc).
  apply reachable_nonnil_reachable, cache_abc_reachable.
Defined.

Lemma Set_overwrites_in_place_witness :
  ∃ c', Cache_Set 0 cache_abc "a" (Some 7) = Ok c' ∧ (Cache_Get c' "a").2 = Some 7.
Proof.
  destruct (Set_overwrites_in_place 0 cache_abc "a" (mkElement 0 0) 1 (Some 7))
    as (c' & HS & R); [vm_compute; reflexivity..|].
  exists c'. split; [exact HS|]. apply R.
Defined.

Lemma Set_then_Get_witness : (Cache_Get cache_a "a").2 = Some 1.
Proof.
  apply (Set_then_Get 3 20 (New 3) "a" (Some 1) cache_a).
  - apply reach_New.
  - vm_compute. reflexivity.
Defined.

Lemma Set_revives_test_key_witness :
  ∃ elt,
    index_lookup cache_abcb "b" = Some elt ∧ elt ∈ meta cache_abcb ∧
    (mkElement 1 1 ∉ meta cache_abcb) ∧ Value elt = 1%nat ∧
    heap cache_abcb 1%nat = mkMetaEntry ptHot "b" (Some 5) false ∧
    ring_next (meta cache_abcb) elt = hand_pos_hot cache_abcb.
Proof.
  destruct (Set_revives_test_key 2 20 cache_abc "b" (mkElement 1 1) (Some 5) cache_abcb)
    as (elt & H1 & H2 & H3 & H4 & H5 & H6 & _).
  - apply cache_abc_reachable.
  - vm_compute. reflexivity.
  - vm_compute. reflexivity.
  - vm_compute. reflexivity.
  - exists elt. by split_and!.
Defined.

Lemma evict_only_makes_room_witness :
  evict 0 cache_a_b = Ok cache_a_b ∧
  evict 20 cache_ab = Ok cache_ab_evicted ∧
  count_test cache_ab_evicted = count_test cache_ab + 1 ∧
  count_hot cache_ab_evicted + count_cold cache_ab_evicted
    < mem_max cache_ab_evicted ∧
  fades cache_ab cache_ab_evicted.
Proof.
  assert (evict 20 cache_ab = Ok cache_ab_evicted) as H
    by (vm_compute; reflexivity).
  split_and!.
  - apply (proj1 (evict_only_makes_room 0 cache_a_b)). vm_compute. reflexivity.
  - exact H.
  - vm_compute. reflexivity.
  - exact (proj1 (proj2 (evict_only_makes_room 20 cache_ab) cache_ab_evicted H)).
  - exact (proj2 (proj2 (evict_only_makes_room 20 cache_ab) cache_ab_evicted H)).
Defined.

Lemma Get_answers_last_value_witness :
  (Cache_Get cache_abc "a").2 = None ∨
  (Cache_Get cache_abc "a").2 =
    last_set (λ _, None)
      [OpSet "a" (Some 1); OpSet "b" (Some 2); OpSet "c" (Some 3)] "a".
Proof.
  apply (Get_answers_last_value 2 20
           [OpSet "a" (Some 1); OpSet "b" (Some 2); OpSet "c" (Some 3)] cache_abc "a").
  vm_compute. reflexivity.
Defined.

Lemma VerifyIdxs_checks_positions_witness :
  VerifyIdxs false cache_ab = Ok tt ∧ VerifyIdxs true cache_ab = Ok tt.
Proof.
  destruct (VerifyIdxs_checks_positions cache_ab) as (H1 & _ & _ & H4).
  - by_evaluation.
  - split; [exact H1|]. apply H4, cache_ab_indexed.
Defined.

Lemma meta_del_fails_iff_key_missing_witness : meta_del cache_ab "z" = Panic.
Proof.
  apply (proj1 (meta_del_fails_iff_key_missing cache_ab "z")).
  vm_compute. reflexivity.
Defined.

Lemma meta_del_keeps_indices_witness :
  ∃ c', meta_del cache_ab "a" = Ok c' ∧
    meta c' = Remove (meta cache_ab) (mkElement 0 0) ∧
    hands_indexed c' ∧ VerifyIdxs true c' = Ok tt.
Proof.
  destruct (meta_del_keeps_indices cache_ab "a" (mkElement 0 0))
    as (c' & H1 & H2 & _ & _ & _ & _ & H7 & H8).
  - apply cache_ab_indexed.
  - vm_compute. reflexivity.
  - by_evaluation.
  - vm_compute. discriminate.
  - exists c'. by split_and!.
Defined.

Lemma Set_new_key_with_room_witness :
  ∃ c', Cache_Set 0 cache_a "b" (Some 2) = Ok c' ∧
    count_cold c' = count_cold cache_a + 1 ∧ hands_indexed c'.
Proof.
  destruct (Set_new_key_with_room 0 cache_a "b" (Some 2))
    as (c' & hot & H).
  - apply cache_a_ring_ok.
  - apply cache_a_indexed.
  - vm_compute. reflexivity.
  - vm_compute. reflexivity.
  - exists c'. destruct H as (H1 & _ & _ & _ & _ & _ & _ & _ & H9 & _ & _ & _ & H13 & _).
    by split_and!.
Defined.

Lemma warm_up_witness :
  ∃ c, run 0 (New 2) (fill [("a", Some 1); ("b", Some 2)]) = Ok c ∧
    count_cold c = 2 ∧ (Cache_Get c "b").2 = Some 2.
Proof.
  destruct (warm_up 2 0 [("a", Some 1); ("b", Some 2)])
    as (c & H1 & _ & H3 & _ & _ & _ & H7).
  - by_evaluation.
  - simpl. lia.
  - exists c. split_and!; [exact H1|exact H3|].
    apply H7. by_evaluation.
Defined.

Lemma Dump_line_witness :
  ∃ b, Dump true cache_abc = Some b ∧
    occurrences "n" b = population (heap cache_abc) (meta cache_abc) ptTest.
Proof.
  destruct (Dump_line cache_abc) as (_ & b & H1 & H2 & _).
  - by_evaluation.
  - exists b. by split.
Defined.

Lemma Set_evicts_entry_under_cold_hand_witness :
  ∃ c', Cache_Set 2 cache_ab "c" (Some 3) = Ok c' ∧
    (Cache_Get c' "b").2 = None ∧ (Cache_Get c' "c").2 = Some 3.
Proof.
  destruct (Set_evicts_entry_under_cold_hand 0 cache_ab "c" (Some 3) (mkElement 1 1))
    as (c' & H1 & _ & H3 & H4 & _).
  - apply cache_ab_ring_ok.
  - apply cache_ab_indexed.
  - vm_compute. reflexivity.
  - vm_compute. reflexivity.
  - vm_compute. reflexivity.
  - vm_compute. discriminate.
  - vm_compute. reflexivity.
  - vm_compute. reflexivity.
  - vm_compute. reflexivity.
  - exists c'. split_and!; [exact H1| |exact H4].
    replace "b" with (key (heap cache_ab (Value (mkElement 1 1))))
      by (vm_compute; reflexivity).
    exact H3.
Defined.

(** * Properties of the ring version *)

Module RingFacts.
Import Ring.

Section RingProofs.
Context {V : Type}.
Implicit Types (c : @Cache V) (s : nat → RingElem).

(** Computes the field updates and projections of an explicit record. *)
Ltac ring_flatten :=
  cbv beta iota delta
    [set_mem_cold set_meta set_metaKeys set_hand_pos_hot set_hand_pos_cold
     set_hand_pos_test set_count_hot set_count_cold set_count_test set_rings
     set_heap set_next_ring set_next_entry alloc_ring
     mem_max mem_cold meta metaKeys hand_pos_hot hand_pos_cold hand_pos_test
     count_hot count_cold count_test rings heap next_ring next_entry
     mbind result_bind deref].

(** Reads a store after updates at known addresses. *)
Ltac store_simpl :=
  repeat first
    [ rewrite fn_lookup_insert
    | rewrite fn_lookup_insert_ne by done
    | progress cbn [set_rnext set_rprev rnext rprev rValue] ].

Lemma Prev_initialised s r n :
  rnext (s r) = Some n → Prev s r = (s, rprev (s r)).
Proof. unfold Prev. by intros ->. Qed.

Lemma Next_initialised s r n : rnext (s r) = Some n → Next s r = (s, Some n).
Proof. unfold Next. by intros ->. Qed.

Lemma Prev_fresh s r : rnext (s r) = None → Prev s r = (init s r, Some r).
Proof. unfold Prev. by intros ->. Qed.

Lemma Next_fresh s r : rnext (s r) = None → Next s r = (init s r, Some r).
Proof. unfold Next. by intros ->. Qed.

(** [Link] of a new, not yet initialised element [x] to [h], whose
    predecessor is [p]: [x] goes between [p] and [h]. *)
Lemma Link_fresh s x h p v hn :
  s x = mkRingElem None None v → x ≠ h → x ≠ p →
  rnext (s h) = Some hn → rprev (s h) = Some p →
  ∃ s', Link s x (Some h) = Ok (s', Some x) ∧
    s' x = mkRingElem (Some h) (Some p) v ∧
    rprev (s' h) = Some x ∧ rnext (s' p) = Some x ∧
    rValue (s' h) = rValue (s h) ∧ rValue (s' p) = rValue (s p) ∧
    (p ≠ h → rnext (s' h) = rnext (s h) ∧ rprev (s' p) = rprev (s p)) ∧
    (∀ q, q ≠ x → q ≠ h → q ≠ p → s' q = s q).
Proof.
  intros Hx Hxh Hxp Hhn Hhp. unfold Link.
  rewrite Next_fresh by (by rewrite Hx).
  assert (init s x h = s h) as Hih by (unfold init; by rewrite fn_lookup_insert_ne).
  rewrite (Prev_initialised _ h hn) by (by rewrite Hih).
  rewrite Hih, Hhp. cbn [deref mbind result_bind].
  eexists. split; [reflexivity|].
  unfold init. rewrite Hx.
  split_and!.
  1-5: destruct (decide (p = h)) as [->|Hph]; by store_simpl.
  - intros Hph. split; by store_simpl.
  - intros q Hqx Hqh Hqp. by store_simpl.
Qed.

(** [Link] of a new element [x] to an element [h] that was never
    initialised: the two form a ring. *)
Lemma Link_fresh_single s x h v :
  s x = mkRingElem None None v → x ≠ h → rnext (s h) = None →
  ∃ s', Link s x (Some h) = Ok (s', Some x) ∧
    s' x = mkRingElem (Some h) (Some h) v ∧
    rprev (s' h) = Some x ∧ rnext (s' h) = Some x ∧
    (∀ q, q ≠ x → q ≠ h → s' q = s q).
Proof.
  intros Hx Hxh Hn. unfold Link.
  rewrite Next_fresh by (by rewrite Hx).
  assert (init s x h = s h) as Hih by (unfold init; by rewrite fn_lookup_insert_ne).
  rewrite Prev_fresh by (by rewrite Hih).
  cbn [deref mbind result_bind].
  eexists. split; [reflexivity|].
  unfold init. rewrite Hx.
  split_and!; try by store_simpl.
  intros q Q1 Q2. by store_simpl.
Qed.

(** ** [meta_add] on a ring that has elements *)

(** X19. On a cache whose ring has elements, the part of [meta_add] after
    [evict] puts the new element just before the hot hand: between [p], the
    element that [Prev] gives for the hand, and the hand.  The hot and the
    test hand stay; the cold hand moves to the new element exactly when it
    stood on the hot hand's element.  [meta] and the other elements are as
    before. *)
Theorem ring_meta_add_links_before_hot c mentry m0 h p :
  meta c = Some m0 → hand_pos_hot c = Some h →
  (Prev (rings c) h).2 = Some p →
  (h < next_ring c)%nat → (p < next_ring c)%nat →
  ∃ c', meta_add_link c mentry = Ok c' ∧
    rings c' (next_ring c) = mkRingElem (Some h) (Some p) mentry ∧
    rprev (rings c' h) = Some (next_ring c) ∧
    rnext (rings c' p) = Some (next_ring c) ∧
    metaKeys c' = <[key (heap c mentry) := Some (next_ring c)]> (metaKeys c) ∧
    hand_pos_hot c' = Some h ∧ hand_pos_test c' = hand_pos_test c ∧
    hand_pos_cold c' =
      (if decide (hand_pos_cold c = Some h) then Some (next_ring c)
       else hand_pos_cold c) ∧
    meta c' = meta c ∧ heap c' = heap c ∧
    (∀ q, q ≠ next_ring c → q ≠ h → q ≠ p → rings c' q = rings c q).
Proof.
  intros Hm Hh Hp Lh Lp.
  destruct c as [mm mc me mk hh hc ht ch cc ct rs hp nr ne].
  cbn [meta hand_pos_hot rings next_ring hand_pos_cold hand_pos_test metaKeys
       heap] in *.
  subst me hh. unfold meta_add_link. ring_flatten.
  assert (∃ s' z,
    Link (<[nr := mkRingElem None None mentry]> rs) nr (Some h) = Ok (s', Some nr) ∧
    s' nr = mkRingElem (Some h) (Some p) mentry ∧
    rprev (s' h) = Some nr ∧ rnext (s' p) = Some nr ∧ rnext (s' h) = Some z ∧
    (∀ q, q ≠ nr → q ≠ h → q ≠ p → s' q = rs q))
    as (s' & z & HL & Hx & Hph & Hpn & Hz & Hq).
  { unfold Prev in Hp. destruct (rnext (rs h)) as [hn|] eqn:Hn; cbn [snd] in Hp.
    - destruct (Link_fresh (<[nr := mkRingElem None None mentry]> rs) nr h p mentry hn)
        as (s' & HL & Hx & Hph & Hpn & _ & _ & Hne & Hq).
      { by rewrite fn_lookup_insert. }
      { lia. }
      { lia. }
      { rewrite fn_lookup_insert_ne by lia. exact Hn. }
      { rewrite fn_lookup_insert_ne by lia. exact Hp. }
      assert (∃ z, rnext (s' h) = Some z) as [z Hz].
      { destruct (decide (p = h)) as [->|Hne']; [by eexists|].
        destruct (Hne Hne') as [-> _]. rewrite fn_lookup_insert_ne by lia.
        by eexists. }
      exists s', z. split_and!; try done.
      intros q Q1 Q2 Q3. rewrite Hq by done. by rewrite fn_lookup_insert_ne.
    - injection Hp as <-.
      destruct (Link_fresh_single (<[nr := mkRingElem None None mentry]> rs) nr h mentry)
        as (s' & HL & Hx & Hph & Hpn & Hq).
      { by rewrite fn_lookup_insert. }
      { lia. }
      { rewrite fn_lookup_insert_ne by lia. exact Hn. }
      exists s', nr. split_and!; try done.
      intros q Q1 Q2 _. rewrite Hq by done. by rewrite fn_lookup_insert_ne. }
  rewrite HL. ring_flatten.
  case_decide as Hc.
  - subst hc. unfold hand_Prev. ring_flatten.
    rewrite (Prev_initialised _ _ _ Hz), Hph. ring_flatten.
    eexists. split; [reflexivity|]. ring_flatten. by split_and!.
  - eexists. split; [reflexivity|]. ring_flatten. by split_and!.
Qed.

(** ** [meta_del] *)

(** [p.Unlink(1)] takes the successor [e] of [p] out of the ring and leaves
    it as a ring of its own. *)
Lemma Unlink_one s p e n nn :
  rnext (s p) = Some e → rnext (s e) = Some n → rprev (s n) = Some e →
  rnext (s n) = Some nn → p ≠ e → n ≠ e →
  ∃ s', Unlink s p 1 = Ok (s', Some e) ∧
    s' e = mkRingElem (Some e) (Some e) (rValue (s e)) ∧
    rnext (s' p) = Some n ∧ rprev (s' n) = Some p ∧
    (∀ q, rValue (s' q) = rValue (s q)) ∧
    (∀ q, q ≠ e → q ≠ p → q ≠ n → s' q = s q).
Proof.
  intros Hpe Hen Hne Hnn Npe Nne. unfold Unlink, Move.
  rewrite decide_False by lia. rewrite Hpe.
  rewrite decide_False by lia. rewrite decide_True by lia.
  change (Z.to_nat (1 + 1)) with 2%nat.
  cbn [walk deref mbind result_bind]. rewrite Hpe.
  cbn [walk deref mbind result_bind]. rewrite Hen.
  unfold Link. rewrite (Next_initialised _ _ _ Hpe).
  rewrite (Prev_initialised _ _ _ Hnn), Hne.
  cbn [deref mbind result_bind].
  eexists. split; [reflexivity|]. split_and!.
  - by store_simpl.
  - destruct (decide (n = p)) as [->|?]; store_simpl; done.
  - by store_simpl.
  - intros q.
    destruct (decide (q = e)) as [->|?]; [by store_simpl|].
    destruct (decide (n = p)) as [->|?];
      (destruct (decide (q = p)) as [->|?]; [by store_simpl|]).
    + by store_simpl.
    + destruct (decide (q = n)) as [->|?]; by store_simpl.
  - intros q Q1 Q2 Q3. by store_simpl.
Qed.

(** X20. [meta_del] of a key whose element [e] has other elements around it
    (predecessor [p], successor [n]) takes the key out of the index and [e]
    out of the ring: [p] and [n] become neighbours, [e] is left as a ring of
    its own, and each hand that stood on [e] steps back to [p].  [meta] is
    not changed, whether it pointed to [e] or not. *)
Theorem ring_meta_del_unlinks c k e p n nn :
  metaKeys c !! k = Some (Some e) →
  rnext (rings c e) = Some n → rprev (rings c e) = Some p →
  rnext (rings c p) = Some e → rprev (rings c n) = Some e →
  rnext (rings c n) = Some nn → p ≠ e →
  ∃ c', meta_del c k = Ok c' ∧
    metaKeys c' = delete k (metaKeys c) ∧
    rnext (rings c' p) = Some n ∧ rprev (rings c' n) = Some p ∧
    rings c' e = mkRingElem (Some e) (Some e) (rValue (rings c e)) ∧
    hand_pos_hot c' =
      (if decide (hand_pos_hot c = Some e) then Some p else hand_pos_hot c) ∧
    hand_pos_cold c' =
      (if decide (hand_pos_cold c = Some e) then Some p else hand_pos_cold c) ∧
    hand_pos_test c' =
      (if decide (hand_pos_test c = Some e) then Some p else hand_pos_test c) ∧
    meta c' = meta c ∧ heap c' = heap c ∧
    (∀ q, rValue (rings c' q) = rValue (rings c q)) ∧
    (∀ q, q ≠ e → q ≠ p → q ≠ n → rings c' q = rings c q).
Proof.
  intros Hk Hen Hep Hpe Hne Hnn Npe.
  assert (n ≠ e) as Nne by (intros ->; congruence).
  destruct (Unlink_one (rings c) p e n nn Hpe Hen Hne Hnn Npe Nne)
    as (s' & HU & He & Hp & Hn & Hv & Hq).
  destruct c as [mm mc me mk hh hc ht ch cc ct rs hp nr ne].
  cbn [meta hand_pos_hot rings next_ring hand_pos_cold hand_pos_test metaKeys
       heap] in *.
  unfold meta_del. ring_flatten. rewrite Hk. ring_flatten.
  repeat first
    [ progress ring_flatten
    | progress unfold hand_Prev
    | rewrite (Prev_initialised _ _ _ Hen), Hep
    | rewrite HU
    | case_decide; simplify_eq ];
  (eexists; split; [reflexivity|]); ring_flatten; split_and!; done.
Qed.

(** [e.Unlink(1)] on an element that is a ring of its own removes nothing. *)
Lemma Unlink_alone s e :
  rnext (s e) = Some e → rprev (s e) = Some e →
  ∃ s', Unlink s e 1 = Ok (s', Some e) ∧
    s' e = mkRingElem (Some e) (Some e) (rValue (s e)) ∧
    (∀ q, q ≠ e → s' q = s q).
Proof.
  intros Hn Hp. unfold Unlink, Move.
  rewrite decide_False by lia. rewrite Hn.
  rewrite decide_False by lia. rewrite decide_True by lia.
  change (Z.to_nat (1 + 1)) with 2%nat.
  cbn [walk deref mbind result_bind]. rewrite Hn.
  cbn [walk deref mbind result_bind]. rewrite Hn.
  unfold Link. rewrite (Next_initialised _ _ _ Hn).
  rewrite (Prev_initialised _ _ _ Hn), Hp.
  cbn [deref mbind result_bind].
  eexists. split; [reflexivity|]. split.
  - by store_simpl.
  - intros q Q. by store_simpl.
Qed.

(** X21. [meta_del] of the key of an element that is alone in its ring (not
    yet initialised, or linked to itself) takes the key out of the index and
    nothing out of the ring: the element stays, linked to itself, and the
    hands and [meta] still point where they did. *)
Theorem ring_meta_del_keeps_last_element c k e :
  metaKeys c !! k = Some (Some e) →
  rnext (rings c e) = None ∨
    (rnext (rings c e) = Some e ∧ rprev (rings c e) = Some e) →
  ∃ c', meta_del c k = Ok c' ∧
    metaKeys c' = delete k (metaKeys c) ∧
    rings c' e = mkRingElem (Some e) (Some e) (rValue (rings c e)) ∧
    (∀ q, q ≠ e → rings c' q = rings c q) ∧
    hand_pos_hot c' = hand_pos_hot c ∧ hand_pos_cold c' = hand_pos_cold c ∧
    hand_pos_test c' = hand_pos_test c ∧
    meta c' = meta c ∧ heap c' = heap c.
Proof.
  intros Hk Hal.
  destruct c as [mm mc me mk hh hc ht ch cc ct rs hp nr ne].
  cbn [meta hand_pos_hot rings next_ring hand_pos_cold hand_pos_test metaKeys
       heap] in *.
  unfold meta_del. ring_flatten. rewrite Hk. ring_flatten.
  destruct Hal as [Hn|[Hn Hp]].
  - assert (rnext (init rs e e) = Some e) as Hin by (unfold init; by store_simpl).
    assert (rprev (init rs e e) = Some e) as Hip by (unfold init; by store_simpl).
    destruct (Unlink_alone (init rs e) e Hin Hip) as (s' & HU & He & Hq).
    repeat first
      [ progress ring_flatten
      | progress unfold hand_Prev
      | rewrite (Prev_fresh _ _ Hn)
      | rewrite (Prev_initialised _ _ _ Hin), Hip
      | rewrite HU
      | case_decide; simplify_eq ];
    (eexists; split; [reflexivity|]); ring_flatten; split_and!; try done;
    first [ rewrite He; unfold init; by store_simpl
          | intros q Q; rewrite Hq by done; unfold init; by store_simpl ].
  - destruct (Unlink_alone rs e Hn Hp) as (s' & HU & He & Hq).
    repeat first
      [ progress ring_flatten
      | progress unfold hand_Prev
      | rewrite (Prev_initialised _ _ _ Hn), Hp
      | rewrite HU
      | case_decide; simplify_eq ];
    (eexists; split; [reflexivity|]); ring_flatten; split_and!; done.
Qed.

(** ** Capacity one *)

(** With the hands locked, each hand only calls the next one. *)
Lemma hands_locked_cycle n : ∀ c h,
  hands_locked c h →
  hand_cold n c = OutOfFuel ∧ hand_cold_hot_loop n c = OutOfFuel ∧
  hand_hot n c = OutOfFuel ∧ hand_test n c = OutOfFuel.
Proof.
  induction n as [|n IH]; intros c h (Hh & Hc & Ht & Hn & Hp & Hs).
  - split_and!; try reflexivity. simpl. by rewrite decide_True.
  - destruct (IH c h) as (I1 & I2 & I3 & I4); [by repeat split|].
    split_and!.
    + cbn [hand_cold]. rewrite Hc. cbn [deref mbind result_bind].
      rewrite Hp. rewrite decide_False by done. cbn [mbind result_bind].
      unfold hand_Next. rewrite Hc. cbn [deref mbind result_bind].
      rewrite (Next_initialised _ _ _ Hn). cbn [mbind result_bind].
      apply (IH _ h). destruct c. by repeat split.
    + cbn [hand_cold_hot_loop]. rewrite decide_True by done. by rewrite I3.
    + cbn [hand_hot]. rewrite decide_True by congruence. by rewrite I4.
    + cbn [hand_test]. rewrite decide_True by congruence. by rewrite I1.
Qed.

Lemma evict_with_room fuel c :
  count_hot c + count_cold c < mem_max c → evict fuel c = Ok c.
Proof. intros H. destruct fuel; simpl; by rewrite decide_False by lia. Qed.

(** X22. The ring version does not get past capacity one either.  After
    [New(1)], a [Set] of a first key and a [Get] of it, the [Set] of any
    other key never returns: its [evict] makes the one entry hot and the
    hands then call each other without end. *)
Theorem ring_Set_diverges_at_size_one (k1 k2 : string) (v1 : V) (v2 : option V)
    (fuel1 : nat) :
  k1 ≠ k2 →
  ∃ c1, Cache_Set fuel1 (New 1) k1 (Some v1) = Ok c1 ∧
    (Cache_Get c1 k1).2 = Some v1 ∧
    ∀ fuel, Cache_Set fuel (Cache_Get c1 k1).1 k2 v2 = OutOfFuel.
Proof.
  intros Hk.
  unfold Cache_Set at 1. unfold index_lookup, New at 1.
  cbn [metaKeys]. rewrite lookup_empty. cbn [default from_option id].
  unfold meta_add. rewrite evict_with_room by (cbn; lia).
  cbn [mbind result_bind].
  unfold meta_add_link, alloc_entry, New. ring_flatten.
  eexists. split; [reflexivity|].
  rewrite !fn_lookup_insert. cbn [key].
  unfold Cache_Get, index_lookup. ring_flatten.
  first [rewrite lookup_insert_eq | rewrite lookup_insert].
  cbn [default from_option id]. rewrite ?fn_lookup_insert. cbn [rValue].
  rewrite ?fn_lookup_insert. cbn [val snd fst].
  split; [reflexivity|]. intros fuel.
  unfold Cache_Set, index_lookup, update_entry. ring_flatten.
  rewrite lookup_insert_ne by done. rewrite lookup_empty.
  cbn [default from_option id].
  unfold meta_add, alloc_entry. ring_flatten.
  destruct fuel as [|[|n]].
  - reflexivity.
  - reflexivity.
  - cbn [evict]. ring_flatten. rewrite decide_True by lia.
    cbn [hand_cold]. ring_flatten.
    repeat first
      [ rewrite fn_lookup_insert
      | rewrite fn_lookup_insert_ne by done
      | progress cbn [rValue rnext rprev ptype ref val key set_ref set_ptype] ].
    rewrite decide_True by done. unfold cold_promote, update_entry, hand_Next.
    ring_flatten. unfold Next.
    repeat first
      [ rewrite fn_lookup_insert
      | rewrite fn_lookup_insert_ne by done
      | progress cbn [rValue rnext rprev ptype ref val key set_ref set_ptype] ].
    ring_flatten.
    match goal with
    | |- context [hand_cold_hot_loop n ?c] =>
        destruct (hands_locked_cycle n c 0%nat) as (_ & -> & _)
    end.
    2: reflexivity.
    unfold hands_locked, init. ring_flatten.
    repeat first
      [ rewrite fn_lookup_insert
      | rewrite fn_lookup_insert_ne by done
      | progress cbn [rValue rnext rprev ptype ref val key set_ref set_ptype
                      set_rnext set_rprev] ].
    split_and!; done.
Qed.

(** ** The ring stays well linked *)

Lemma linked_iff s q :
  linked s q ↔
    (rnext (s q) = None ↔ rprev (s q) = None) ∧
    (∀ n, rnext (s q) = Some n → rprev (s n) = Some q) ∧
    (∀ m, rprev (s q) = Some m → rnext (s m) = Some q).
Proof.
  unfold linked.
  destruct (rnext (s q)) as [n|], (rprev (s q)) as [m|]; split.
  - intros [A B]. split_and!; [split; discriminate| |]; by intros ? [= <-].
  - intros (_ & A & B). split; [by apply A | by apply B].
  - intros [].
  - intros ([_ C] & _ & _). by specialize (C eq_refl).
  - intros [].
  - intros ([C _] & _ & _). by specialize (C eq_refl).
  - done.
  - done.
Qed.

Lemma linked_next s q n :
  well_linked s → rnext (s q) = Some n → rprev (s n) = Some q.
Proof. intros W. by apply (linked_iff s q). Qed.

Lemma linked_prev s q m :
  well_linked s → rprev (s q) = Some m → rnext (s m) = Some q.
Proof. intros W. by apply (linked_iff s q). Qed.

Lemma linked_None s q : well_linked s → rnext (s q) = None → rprev (s q) = None.
Proof. intros W. by apply (linked_iff s q). Qed.

Lemma linked_prev_None s q :
  well_linked s → rprev (s q) = None → rnext (s q) = None.
Proof. intros W. by apply (linked_iff s q). Qed.

Lemma linked_is_Some s q n :
  well_linked s → rnext (s q) = Some n → ∃ m, rprev (s q) = Some m.
Proof.
  intros W H. destruct (rprev (s q)) as [m|] eqn:E; [by eexists|].
  apply (linked_prev_None s q W) in E. congruence.
Qed.

Lemma linked_prev_is_Some s q m :
  well_linked s → rprev (s q) = Some m → ∃ n, rnext (s q) = Some n.
Proof.
  intros W H. destruct (rnext (s q)) as [n|] eqn:E; [by eexists|].
  apply (linked_None s q W) in E. congruence.
Qed.

(** Reads a store at [q], by cases on whether [q] is one of the updated
    addresses. *)
Ltac store_cases q :=
  repeat first
  [ progress store_simpl
  | match goal with
    | |- context [<[?a := _]> _ q] =>
        destruct (decide (a = q)) as [->|?];
          [rewrite fn_lookup_insert | rewrite fn_lookup_insert_ne by done]
    end ].

Ltac store_cases_in H q :=
  repeat first
  [ rewrite fn_lookup_insert in H
  | rewrite fn_lookup_insert_ne in H by done
  | progress cbn [set_rnext set_rprev rnext rprev rValue] in H
  | match type of H with
    | context [<[?a := _]> _ q] =>
        destruct (decide (a = q)) as [->|?];
          [rewrite fn_lookup_insert in H | rewrite fn_lookup_insert_ne in H by done]
    end ].

(** Proves that an updated store is well linked, from the same for the
    store [s] it was made from and the facts at hand. *)
Ltac well_linked_by W s :=
  let q := fresh "q" in
  let n := fresh "n" in
  let Hn := fresh "Hn" in
  intros q; apply linked_iff; split_and!;
  [ pose proof (proj1 (proj1 (linked_iff s q) (W q)));
    store_cases q; first [done | intuition congruence]
  | intros n Hn; store_cases_in Hn q;
    try (pose proof (linked_next s _ _ W Hn));
    store_cases n; congruence
  | intros n Hn; store_cases_in Hn q;
    try (pose proof (linked_prev s _ _ W Hn));
    store_cases n; congruence ].

Lemma init_well_linked s r :
  well_linked s → rnext (s r) = None → well_linked (init s r).
Proof.
  intros W Hr. pose proof (linked_None s r W Hr) as Hp.
  unfold init. well_linked_by W s.
Qed.

(** [Link] of a new element keeps the ring well linked. *)
Lemma Link_fresh_well_linked s x h v :
  well_linked s → s x = mkRingElem None None v → x ≠ h →
  ∃ s' p, Link s x (Some h) = Ok (s', Some x) ∧
    (Prev s h).2 = Some p ∧ well_linked s' ∧
    (∀ q, q ≠ x → q ≠ h → rnext (s q) = None → rnext (s' q) = None) ∧
    rValue (s' x) = v.
Proof.
  intros W Hx Hxh.
  assert (rnext (s x) = None) as Nx by (by rewrite Hx).
  assert (rprev (s x) = None) as Px by (by rewrite Hx).
  unfold Link. rewrite Next_fresh by done.
  assert (init s x h = s h) as Hih by (unfold init; by rewrite fn_lookup_insert_ne).
  destruct (rnext (s h)) as [hn|] eqn:Hn.
  - destruct (linked_is_Some s h hn W Hn) as [p Hp].
    pose proof (linked_prev s h p W Hp) as Hpn.
    pose proof (linked_next s h hn W Hn) as Hnh.
    rewrite (Prev_initialised _ h hn) by (by rewrite Hih). rewrite Hih, Hp.
    cbn [deref mbind result_bind snd].
    eexists _, p. split; [reflexivity|]. split; [unfold Prev; by rewrite Hn|].
    unfold init. rewrite Hx. clear Hx Hih.
    destruct (decide (p = h)) as [->|Hph]; store_simpl;
      (split; [well_linked_by W s|]);
      (split; [intros q Q1 Q2 Hq; store_cases q; congruence|]);
      store_cases x; congruence.
  - pose proof (linked_None s h W Hn) as Hp.
    rewrite Prev_fresh by (by rewrite Hih).
    cbn [deref mbind result_bind snd].
    eexists _, h. split; [reflexivity|]. split; [unfold Prev; by rewrite Hn|].
    unfold init. rewrite Hx. clear Hx Hih. store_simpl.
    split; [well_linked_by W s|].
    split; [intros q Q1 Q2 Hq; store_cases q; congruence|].
    store_cases x; congruence.
Qed.

(** No element at or beyond [bound] is initialised. *)
Lemma Prev_well_linked s r bound :
  well_linked s → (∀ q, (bound ≤ q)%nat → rnext (s q) = None) → (r < bound)%nat →
  ∃ s' p, Prev s r = (s', Some p) ∧ well_linked s' ∧
    (∀ q, (bound ≤ q)%nat → rnext (s' q) = None) ∧ (p < bound)%nat ∧
    rnext (s' p) = Some r ∧ (∀ q, rValue (s' q) = rValue (s q)).
Proof.
  intros W B Hr. unfold Prev. destruct (rnext (s r)) as [n|] eqn:Hn.
  - destruct (linked_is_Some s r n W Hn) as [p Hp].
    pose proof (linked_prev s r p W Hp) as Hpr.
    exists s, p. split_and!; try done.
    + by rewrite Hp.
    + destruct (decide (p < bound)%nat) as [|Hge]; [done|].
      rewrite B in Hpr by lia. discriminate.
  - exists (init s r), r. split_and!; try done.
    + by apply init_well_linked.
    + intros q Hq. unfold init. rewrite fn_lookup_insert_ne by lia. by apply B.
    + unfold init. by store_simpl.
    + intros q. unfold init. by store_cases q.
Qed.

Lemma Next_well_linked s r bound :
  well_linked s → (∀ q, (bound ≤ q)%nat → rnext (s q) = None) → (r < bound)%nat →
  ∃ s' n, Next s r = (s', Some n) ∧ well_linked s' ∧
    (∀ q, (bound ≤ q)%nat → rnext (s' q) = None) ∧ (n < bound)%nat.
Proof.
  intros W B Hr. unfold Next. destruct (rnext (s r)) as [n|] eqn:Hn.
  - pose proof (linked_next s r n W Hn) as Hnr.
    destruct (linked_prev_is_Some s n r W Hnr) as [nn Hnn].
    exists s, n. split_and!; try done.
    destruct (decide (n < bound)%nat) as [|Hge]; [done|].
    rewrite B in Hnn by lia. discriminate.
  - exists (init s r), r. split_and!; try done.
    + by apply init_well_linked.
    + intros q Hq. unfold init. rewrite fn_lookup_insert_ne by lia. by apply B.
Qed.

(** [p.Unlink(1)] keeps the ring well linked and initialises nothing. *)
Lemma Unlink_well_linked s p e :
  well_linked s → rnext (s p) = Some e →
  ∃ s' r, Unlink s p 1 = Ok (s', r) ∧ well_linked s' ∧
    (∀ q, rnext (s q) = None → rnext (s' q) = None).
Proof.
  intros W Hpe.
  pose proof (linked_next s p e W Hpe) as Hep.
  destruct (linked_prev_is_Some s e p W Hep) as [n Hen].
  pose proof (linked_next s e n W Hen) as Hne.
  destruct (linked_prev_is_Some s n e W Hne) as [nn Hnn].
  destruct (linked_is_Some s p e W Hpe) as [pp Hpp].
  pose proof (linked_prev s p pp W Hpp) as Hppn.
  pose proof (linked_next s n nn W Hnn) as Hnnp.
  unfold Unlink, Move.
  rewrite decide_False by lia. rewrite Hpe.
  rewrite decide_False by lia. rewrite decide_True by lia.
  change (Z.to_nat (1 + 1)) with 2%nat.
  cbn [walk deref mbind result_bind]. rewrite Hpe.
  cbn [walk deref mbind result_bind]. rewrite Hen.
  unfold Link. rewrite (Next_initialised _ _ _ Hpe).
  rewrite (Prev_initialised _ _ _ Hnn), Hne.
  cbn [deref mbind result_bind].
  eexists _, _. split; [reflexivity|].
  destruct (decide (p = e)) as [->|Npe];
    [|destruct (decide (n = p)) as [->|Nnp]];
    store_simpl; (split; [well_linked_by W s|]);
    intros q Hq; store_cases q; congruence.
Qed.

(** ** The ring of a cache stays in order *)

Tactic Notation "ring_bind" hyp(H) "as" simple_intropattern(a) ident(H1) :=
  apply bind_Ok in H as (a & H1 & H).

(** [ring_ok] looks at the ring, the index and the hands only. *)
Lemma ring_ok_frame c c' :
  rings c' = rings c → next_ring c' = next_ring c → metaKeys c' = metaKeys c →
  hand_pos_hot c' = hand_pos_hot c → hand_pos_cold c' = hand_pos_cold c →
  hand_pos_test c' = hand_pos_test c → meta c' = meta c →
  ring_ok c → ring_ok c'.
Proof. unfold ring_ok. intros -> -> -> -> -> -> ->. done. Qed.

Lemma ring_ok_set_rings c s' :
  ring_ok c → well_linked s' →
  (∀ q, (next_ring c ≤ q)%nat → rnext (s' q) = None) →
  ring_ok (set_rings s' c).
Proof. intros (W & B & K & Hh & Hc & Ht & Hm) W' B'. by repeat split. Qed.

Lemma ring_ok_set_hot c p :
  ring_ok c → (p < next_ring c)%nat → ring_ok (set_hand_pos_hot (Some p) c).
Proof.
  intros (W & B & K & Hh & Hc & Ht & Hm) Hp. repeat split; try done.
  by intros h [= <-].
Qed.

Lemma ring_ok_set_cold c p :
  ring_ok c → (p < next_ring c)%nat → ring_ok (set_hand_pos_cold (Some p) c).
Proof.
  intros (W & B & K & Hh & Hc & Ht & Hm) Hp. repeat split; try done.
  by intros h [= <-].
Qed.

Lemma ring_ok_set_test c p :
  ring_ok c → (p < next_ring c)%nat → ring_ok (set_hand_pos_test (Some p) c).
Proof.
  intros (W & B & K & Hh & Hc & Ht & Hm) Hp. repeat split; try done.
  by intros h [= <-].
Qed.

Lemma hand_Prev_ring_ok c r :
  ring_ok c → (r < next_ring c)%nat →
  ∃ s' p, hand_Prev c (Some r) = Ok (set_rings s' c, Some p) ∧
    ring_ok (set_rings s' c) ∧ (p < next_ring c)%nat ∧ rnext (s' p) = Some r.
Proof.
  intros Hok Hr. pose proof Hok as (W & B & _).
  destruct (Prev_well_linked (rings c) r (next_ring c) W B Hr)
    as (s' & p & HP & W' & B' & Hp & Hpr & _).
  exists s', p. unfold hand_Prev. cbn [deref mbind result_bind]. rewrite HP.
  split_and!; try done. by apply ring_ok_set_rings.
Qed.

Lemma hand_Next_ring_ok c r :
  ring_ok c → (r < next_ring c)%nat →
  ∃ s' n, hand_Next c (Some r) = Ok (set_rings s' c, Some n) ∧
    ring_ok (set_rings s' c) ∧ (n < next_ring c)%nat.
Proof.
  intros Hok Hr. pose proof Hok as (W & B & _).
  destruct (Next_well_linked (rings c) r (next_ring c) W B Hr)
    as (s' & n & HP & W' & B' & Hn).
  exists s', n. unfold hand_Next. cbn [deref mbind result_bind]. rewrite HP.
  split_and!; try done. by apply ring_ok_set_rings.
Qed.

(** The three hand adjustments of [meta_del]. *)
Lemma meta_del_hot_ring_ok c e :
  ring_ok c → (e < next_ring c)%nat →
  ∃ c', (if decide (Some e = hand_pos_hot c) then
           '(c1, p) ← hand_Prev c (hand_pos_hot c); Ok (set_hand_pos_hot p c1)
         else Ok c) = Ok c' ∧
    ring_ok c' ∧ next_ring c' = next_ring c ∧ metaKeys c' = metaKeys c.
Proof.
  intros Hok He. case_decide as Hd; [|by eauto]. rewrite <- Hd.
  destruct (hand_Prev_ring_ok c e Hok He) as (s' & p & -> & Hok' & Hp & _).
  cbn [mbind result_bind]. eexists. split; [reflexivity|].
  split; [by apply ring_ok_set_hot|done].
Qed.

Lemma meta_del_cold_ring_ok c e :
  ring_ok c → (e < next_ring c)%nat →
  ∃ c', (if decide (Some e = hand_pos_cold c) then
           '(c1, p) ← hand_Prev c (hand_pos_cold c); Ok (set_hand_pos_cold p c1)
         else Ok c) = Ok c' ∧
    ring_ok c' ∧ next_ring c' = next_ring c ∧ metaKeys c' = metaKeys c.
Proof.
  intros Hok He. case_decide as Hd; [|by eauto]. rewrite <- Hd.
  destruct (hand_Prev_ring_ok c e Hok He) as (s' & p & -> & Hok' & Hp & _).
  cbn [mbind result_bind]. eexists. split; [reflexivity|].
  split; [by apply ring_ok_set_cold|done].
Qed.

Lemma meta_del_test_ring_ok c e :
  ring_ok c → (e < next_ring c)%nat →
  ∃ c', (if decide (Some e = hand_pos_test c) then
           '(c1, p) ← hand_Prev c (hand_pos_test c); Ok (set_hand_pos_test p c1)
         else Ok c) = Ok c' ∧
    ring_ok c' ∧ next_ring c' = next_ring c ∧ metaKeys c' = metaKeys c.
Proof.
  intros Hok He. case_decide as Hd; [|by eauto]. rewrite <- Hd.
  destruct (hand_Prev_ring_ok c e Hok He) as (s' & p & -> & Hok' & Hp & _).
  cbn [mbind result_bind]. eexists. split; [reflexivity|].
  split; [by apply ring_ok_set_test|done].
Qed.

Lemma ring_ok_delete c k :
  ring_ok c → ring_ok (set_metaKeys (delete k (metaKeys c)) c).
Proof.
  intros (W & B & K & Hh & Hc & Ht & Hm). repeat split; try done.
  intros k' v Hk'. apply (K k' v). cbn [metaKeys set_metaKeys] in Hk'.
  by apply lookup_delete_Some in Hk' as [_ ?].
Qed.

Lemma meta_del_ring_ok c k v :
  ring_ok c → metaKeys c !! k = Some v →
  ∃ c', meta_del c k = Ok c' ∧ ring_ok c' ∧
    next_ring c' = next_ring c ∧ metaKeys c' = delete k (metaKeys c).
Proof.
  intros Hok Hk.
  destruct (proj1 (proj2 (proj2 Hok)) k v Hk) as (e & -> & He).
  unfold meta_del. rewrite Hk. cbv zeta.
  pose proof (ring_ok_delete c k Hok) as Hok0.
  set (c0 := set_metaKeys (delete k (metaKeys c)) c) in *.
  assert (next_ring c0 = next_ring c) as N0 by reflexivity.
  assert (metaKeys c0 = delete k (metaKeys c)) as K0 by reflexivity.
  clearbody c0.
  destruct (meta_del_hot_ring_ok c0 e Hok0) as (c1 & -> & Hok1 & N1 & K1);
    [lia|].
  cbn [mbind result_bind].
  destruct (meta_del_cold_ring_ok c1 e Hok1) as (c2 & -> & Hok2 & N2 & K2);
    [lia|].
  cbn [mbind result_bind].
  destruct (meta_del_test_ring_ok c2 e Hok2) as (c3 & -> & Hok3 & N3 & K3);
    [lia|].
  cbn [mbind result_bind].
  destruct (hand_Prev_ring_ok c3 e Hok3) as (s' & p & -> & Hok4 & Hp & Hpe);
    [lia|].
  cbn [mbind result_bind deref].
  pose proof Hok4 as (W4 & B4 & _).
  destruct (Unlink_well_linked s' p e W4 Hpe) as (s'' & r & HU & W'' & U'').
  cbn [rings set_rings] in *. rewrite HU. cbn [mbind result_bind].
  eexists. split; [reflexivity|]. split_and!.
  - apply ring_ok_set_rings; [done..|]. intros q Hq. apply U'', B4. done.
  - cbn [next_ring set_rings]. lia.
  - cbn [metaKeys set_rings]. by rewrite K3, K2, K1, K0.
Qed.

(** A new element that is not initialised disturbs no link. *)
Lemma alloc_well_linked s x v :
  well_linked s → rnext (s x) = None →
  well_linked (<[x := mkRingElem None None v]> s).
Proof.
  intros W Nx. pose proof (linked_None s x W Nx) as Px. well_linked_by W s.
Qed.

Lemma meta_add_link_ring_ok c mentry :
  ring_ok c →
  ∃ c', meta_add_link c mentry = Ok c' ∧ ring_ok c' ∧
    next_ring c' = S (next_ring c) ∧
    metaKeys c' = <[key (heap c mentry) := Some (next_ring c)]> (metaKeys c) ∧
    rValue (rings c' (next_ring c)) = mentry.
Proof.
  intros (W & B & K & Hh & Hc & Ht & Hm).
  destruct c as [mm mc me mk hh hc ht ch cc ct rs hp nr ne].
  unfold hand_fine, allocated in *.
  cbn [meta hand_pos_hot rings next_ring hand_pos_cold hand_pos_test metaKeys
       heap] in *.
  pose proof (alloc_well_linked rs nr mentry W (B nr ltac:(lia))) as W1.
  assert (∀ k v, <[key (hp mentry) := Some nr]> mk !! k = Some v →
    ∃ e, v = Some e ∧ (e < S nr)%nat) as K1.
  { intros k v Hk. apply lookup_insert_Some in Hk as [[_ <-]|[_ Hk]].
    - exists nr. split; [done|lia].
    - destruct (K k v Hk) as (e & -> & He). exists e. split; [done|lia]. }
  unfold meta_add_link. ring_flatten. destruct me as [m0|].
  - destruct hh as [h|]; [|by destruct Hm].
    pose proof (Hh h eq_refl) as Lh.
    destruct (Link_fresh_well_linked (<[nr := mkRingElem None None mentry]> rs)
                nr h mentry W1) as (s' & p & -> & _ & W' & U' & V').
    { by rewrite fn_lookup_insert. }
    { lia. }
    ring_flatten.
    assert (∀ q, (S nr ≤ q)%nat → rnext (s' q) = None) as B'.
    { intros q Hq. apply U'; [lia..|]. rewrite fn_lookup_insert_ne by lia.
      apply B. lia. }
    case_decide as Hd.
    + subst hc.
      destruct (Prev_well_linked s' h (S nr) W' B')
        as (s'' & p' & HP & W'' & B'' & Hp' & _ & V'');
        [lia|].
      unfold hand_Prev. ring_flatten. rewrite HP. ring_flatten.
      eexists. split; [reflexivity|]. unfold ring_ok, hand_fine, allocated.
      ring_flatten. split_and!; try done.
      * intros ? [= <-]. lia.
      * intros ? [= <-]. lia.
      * intros h' E. specialize (Ht h' E). lia.
      * by rewrite V''.
    + eexists. split; [reflexivity|]. unfold ring_ok, hand_fine, allocated.
      ring_flatten. split_and!; try done.
      * intros ? [= <-]. lia.
      * intros h' E. specialize (Hc h' E). lia.
      * intros h' E. specialize (Ht h' E). lia.
  - eexists. split; [reflexivity|]. unfold ring_ok, hand_fine, allocated.
    ring_flatten. split_and!; try done.
    + intros q Hq. rewrite fn_lookup_insert_ne by lia. apply B. lia.
    + intros ? [= <-]. lia.
    + intros ? [= <-]. lia.
    + intros ? [= <-]. lia.
    + by rewrite fn_lookup_insert.
Qed.

Lemma meta_del_Ok_ring_ok c k c' :
  meta_del c k = Ok c' → ring_ok c → ring_ok c' ∧ next_ring c' = next_ring c.
Proof.
  intros H Hok. destruct (metaKeys c !! k) as [v|] eqn:Hk.
  - destruct (meta_del_ring_ok c k v Hok Hk) as (c'' & E & Hok' & N & _).
    rewrite E in H. injection H as <-. done.
  - unfold meta_del in H. rewrite Hk in H. discriminate.
Qed.

Lemma test_remove_ring_ok m c c' :
  test_remove m c = Ok c' → ring_ok c → ring_ok c'.
Proof.
  unfold test_remove. intros H Hok. ring_bind H as [c1 prev] H1.
  destruct (hand_pos_test c) as [h|] eqn:Hh; [|discriminate].
  destruct (hand_Prev_ring_ok c h Hok) as (s' & p & E & Hok1 & Hp & _).
  { by apply (proj2 (proj2 (proj2 Hok))). }
  rewrite E in H1. injection H1 as <- <-.
  ring_bind H as c2 H2.
  apply meta_del_Ok_ring_ok in H2 as [Hok2 N2]; [|done].
  cbv zeta in H. injection H as <-.
  assert (ring_ok (set_hand_pos_test (Some p) c2)) as Hok3.
  { apply ring_ok_set_test; [done|]. rewrite N2. done. }
  case_decide; by apply (ring_ok_frame (set_hand_pos_test (Some p) c2)).
Qed.

Lemma ring_hand_cold_test_loop_eq n c :
  hand_cold_test_loop n c =
    if decide (mem_max c < count_test c) then
      match n with
      | O => OutOfFuel
      | S n => c ← hand_test n c; hand_cold_test_loop n c
      end
    else Ok c.
Proof. by destruct n. Qed.

Lemma ring_hand_cold_hot_loop_eq n c :
  hand_cold_hot_loop n c =
    if decide (mem_max c - mem_cold c < count_hot c) then
      match n with
      | O => OutOfFuel
      | S n => c ← hand_hot n c; hand_cold_hot_loop n c
      end
    else Ok c.
Proof. by destruct n. Qed.

Lemma ring_evict_eq n c :
  evict n c =
    if decide (mem_max c ≤ count_hot c + count_cold c) then
      match n with
      | O => OutOfFuel
      | S n => c ← hand_cold n c; evict n c
      end
    else Ok c.
Proof. by destruct n. Qed.

(** A hand that stands on an element steps to an allocated one. *)
Lemma hand_Next_Ok_ring_ok c hand c' nx :
  hand_Next c hand = Ok (c', nx) → ring_ok c → hand_fine (next_ring c) hand →
  ring_ok c' ∧ next_ring c' = next_ring c ∧
  hand_pos_hot c' = hand_pos_hot c ∧ hand_pos_cold c' = hand_pos_cold c ∧
  hand_pos_test c' = hand_pos_test c ∧
  ∃ n, nx = Some n ∧ (n < next_ring c)%nat.
Proof.
  intros H Hok Hf. destruct hand as [h|]; [|discriminate].
  destruct (hand_Next_ring_ok c h Hok (Hf h eq_refl)) as (s' & n & E & Hok' & Hn).
  rewrite E in H. injection H as <- <-. split_and!; try done. by exists n.
Qed.

Lemma ring_ok_hot_hand c h :
  ring_ok c → hand_pos_hot c = Some h → (h < next_ring c)%nat.
Proof. intros (_ & _ & _ & Hh & _) E. by apply Hh. Qed.

Lemma ring_ok_cold_hand c h :
  ring_ok c → hand_pos_cold c = Some h → (h < next_ring c)%nat.
Proof. intros (_ & _ & _ & _ & Hc & _) E. by apply Hc. Qed.

Lemma ring_ok_test_hand c h :
  ring_ok c → hand_pos_test c = Some h → (h < next_ring c)%nat.
Proof. intros (_ & _ & _ & _ & _ & Ht & _) E. by apply Ht. Qed.

(** *** What the ring operations leave alone *)

Lemma same_entries_refl c : same_entries c c.
Proof. by repeat split. Qed.

Lemma same_entries_trans c1 c2 c3 :
  same_entries c1 c2 → same_entries c2 c3 → same_entries c1 c3.
Proof.
  intros (A1 & A2 & A3 & A4) (B1 & B2 & B3 & B4). unfold same_entries.
  split_and!; try congruence; intros x; by rewrite B4.
Qed.

Lemma init_values s r x : rValue (init s r x) = rValue (s x).
Proof. unfold init. by store_cases x. Qed.

Lemma Next_values s r s' n :
  Next s r = (s', n) → ∀ x, rValue (s' x) = rValue (s x).
Proof.
  unfold Next. destruct (rnext (s r)); intros [= <- <-] x;
    [done | apply init_values].
Qed.

Lemma Prev_values s r s' p :
  Prev s r = (s', p) → ∀ x, rValue (s' x) = rValue (s x).
Proof.
  unfold Prev. destruct (rnext (s r)); intros [= <- <-] x;
    [done | apply init_values].
Qed.

Lemma Move_values s r n s' m :
  Move s r n = Ok (s', m) → ∀ x, rValue (s' x) = rValue (s x).
Proof.
  unfold Move. intros H x. destruct (rnext (s r)).
  - repeat case_decide; try ring_bind H as p Hp; injection H as <- <-; done.
  - injection H as <- <-. apply init_values.
Qed.

Lemma Link_values s r q s' n :
  Link s r q = Ok (s', n) → ∀ x, rValue (s' x) = rValue (s x).
Proof.
  unfold Link. intros H x.
  destruct (Next s r) as [s1 n1] eqn:E1.
  pose proof (Next_values _ _ _ _ E1) as V1.
  destruct q as [q|]; [|injection H as <- <-; apply V1].
  destruct (Prev s1 q) as [s2 p] eqn:E2.
  pose proof (Prev_values _ _ _ _ E2) as V2.
  ring_bind H as n' Hn. ring_bind H as p' Hp. injection H as <- <-.
  store_cases x; by rewrite ?V2, ?V1.
Qed.

Lemma Unlink_values s r n s' m :
  Unlink s r n = Ok (s', m) → ∀ x, rValue (s' x) = rValue (s x).
Proof.
  unfold Unlink. intros H x. case_decide; [by injection H as <- <-|].
  ring_bind H as [s1 q] H1.
  rewrite (Link_values _ _ _ _ _ H), (Move_values _ _ _ _ _ H1). done.
Qed.

Lemma hand_Prev_same c hand c' p :
  hand_Prev c hand = Ok (c', p) → same_entries c c'.
Proof.
  unfold hand_Prev. intros H. ring_bind H as h Hh.
  destruct (Prev (rings c) h) as [s' p'] eqn:E. injection H as <- <-.
  repeat split. intros x. apply (Prev_values _ _ _ _ E).
Qed.

Lemma hand_Next_same c hand c' n :
  hand_Next c hand = Ok (c', n) → same_entries c c'.
Proof.
  unfold hand_Next. intros H. ring_bind H as h Hh.
  destruct (Next (rings c) h) as [s' n'] eqn:E. injection H as <- <-.
  repeat split. intros x. apply (Next_values _ _ _ _ E).
Qed.

(** Cases on the test that hypothesis [H] decides. *)
Ltac decide_in H :=
  match type of H with
  | context [decide ?P] => destruct (decide P)
  end.

Lemma meta_del_same c k c' : meta_del c k = Ok c' → same_entries c c'.
Proof.
  unfold meta_del. intros H. destruct (metaKeys c !! k) as [elt|]; [|done].
  cbv zeta in H.
  ring_bind H as c1 H1. ring_bind H as c2 H2. ring_bind H as c3 H3.
  ring_bind H as [c4 p] H4. ring_bind H as p' Hp. ring_bind H as [s' r] H5.
  injection H as <-.
  assert (same_entries c c1) as S1.
  { decide_in H1; [|injection H1 as <-; by repeat split].
    ring_bind H1 as [c0 p0] H0. injection H1 as <-.
    apply hand_Prev_same in H0 as (? & ? & ? & ?). by repeat split. }
  assert (same_entries c1 c2) as S2.
  { decide_in H2; [|injection H2 as <-; apply same_entries_refl].
    ring_bind H2 as [c0 p0] H0. injection H2 as <-.
    apply hand_Prev_same in H0 as (? & ? & ? & ?). by repeat split. }
  assert (same_entries c2 c3) as S3.
  { decide_in H3; [|injection H3 as <-; apply same_entries_refl].
    ring_bind H3 as [c0 p0] H0. injection H3 as <-.
    apply hand_Prev_same in H0 as (? & ? & ? & ?). by repeat split. }
  apply hand_Prev_same in H4.
  pose proof (Unlink_values _ _ _ _ _ H5) as V5.
  apply (same_entries_trans c c4).
  - eauto using same_entries_trans.
  - destruct H4 as (? & ? & ? & ?). by repeat split.
Qed.

Lemma test_remove_same m c c' : test_remove m c = Ok c' → same_entries c c'.
Proof.
  unfold test_remove. intros H. ring_bind H as [c1 prev] H1.
  ring_bind H as c2 H2. cbv zeta in H. injection H as <-.
  apply hand_Prev_same in H1. apply meta_del_same in H2.
  destruct (same_entries_trans _ _ _ H1 H2) as (? & ? & ? & ?).
  case_decide; by repeat split.
Qed.

(** *** A proof rule for the hands

    A property [P] that the ring operations leave alone, and that survives
    an update of the entry under an allocated element, holds after the
    hands if it held before, together with [ring_ok]. *)

Section ring_hands_rule.
Variable P : @Cache V → Prop.
Hypothesis P_same : ∀ c c',
  same_entries c c' → P c → P c'.
Hypothesis P_update : ∀ c h f,
  (h < next_ring c)%nat → P c → P (update_entry (rValue (rings c h)) f c).

Lemma ring_rule_frame c c' :
  rings c' = rings c → next_ring c' = next_ring c →
  next_entry c' = next_entry c → heap c' = heap c → P c → P c'.
Proof.
  intros E1 E2 E3 E4. apply P_same. repeat split; try done.
  intros x. by rewrite E1.
Qed.

Lemma hands_keep n :
  (∀ c c', hand_cold n c = Ok c' → ring_ok c → P c → ring_ok c' ∧ P c') ∧
  (∀ c c', hand_cold_test_loop n c = Ok c' → ring_ok c → P c → ring_ok c' ∧ P c') ∧
  (∀ c c', hand_cold_hot_loop n c = Ok c' → ring_ok c → P c → ring_ok c' ∧ P c') ∧
  (∀ c c', hand_hot n c = Ok c' → ring_ok c → P c → ring_ok c' ∧ P c') ∧
  (∀ c c', hand_test n c = Ok c' → ring_ok c → P c → ring_ok c' ∧ P c').
Proof.
  induction n as [|n (IHc & IHtl & IHhl & IHh & IHt)].
  - split_and!; intros c c' H Hok HP; try discriminate H.
    + rewrite ring_hand_cold_test_loop_eq in H.
      case_decide; [discriminate|]. by injection H as <-.
    + rewrite ring_hand_cold_hot_loop_eq in H.
      case_decide; [discriminate|]. by injection H as <-.
  - split_and!; intros c c' H Hok HP.
    + cbn [hand_cold] in H. ring_bind H as h Hh. apply deref_Ok in Hh.
      cbv zeta in H. ring_bind H as c1 H1. ring_bind H as [c2 nx] H2.
      assert ((h < next_ring c)%nat) as Lh by (by apply ring_ok_cold_hand).
      assert (ring_ok c1 ∧ P c1) as [Hok1 HP1].
      { case_decide; [|by injection H1 as <-].
        destruct (ref (heap c (rValue (rings c h)))).
        - injection H1 as <-. split; [by apply (ring_ok_frame c)|].
          unfold cold_promote. eapply ring_rule_frame; [..|by apply (P_update c h)]; done.
        - apply (IHtl _ _ H1); [by apply (ring_ok_frame c)|].
          unfold cold_demote. eapply ring_rule_frame; [..|by apply (P_update c h)]; done. }
      pose proof (hand_Next_same _ _ _ _ H2) as S2.
      apply hand_Next_Ok_ring_ok in H2 as (Hok2 & N2 & _ & _ & _ & n' & -> & Hn');
        [|done|by apply Hok1].
      apply (IHhl _ _ H).
      * apply ring_ok_set_cold; [done|]. by rewrite N2.
      * eapply ring_rule_frame; [..|exact (P_same _ _ S2 HP1)]; done.
    + rewrite ring_hand_cold_test_loop_eq in H. case_decide; [|by injection H as <-].
      ring_bind H as c1 H1. destruct (IHt c c1 H1 Hok HP). by apply (IHtl c1 c' H).
    + rewrite ring_hand_cold_hot_loop_eq in H. case_decide; [|by injection H as <-].
      ring_bind H as c1 H1. destruct (IHh c c1 H1 Hok HP). by apply (IHhl c1 c' H).
    + cbn [hand_hot] in H. ring_bind H as c1 H1.
      assert (ring_ok c1 ∧ P c1) as [Hok1 HP1].
      { case_decide; [exact (IHt c c1 H1 Hok HP) | by injection H1 as <-]. }
      ring_bind H as h Hh. apply deref_Ok in Hh. cbv zeta in H.
      ring_bind H as [c2 nx] H2. injection H as <-.
      assert ((h < next_ring c1)%nat) as Lh by (by apply ring_ok_hot_hand).
      pose proof (hand_Next_same _ _ _ _ H2) as S2.
      apply hand_Next_Ok_ring_ok in H2 as (Hok2 & N2 & _ & _ & _ & n' & -> & Hn').
      * split; [apply ring_ok_set_hot; [done|]; by rewrite N2|].
        eapply ring_rule_frame; [..|apply (P_same _ _ S2)]; try done.
        case_decide; [|done].
        destruct (ref (heap c1 (rValue (rings c1 h)))).
        -- by apply (P_update c1 h).
        -- unfold hot_demote. eapply ring_rule_frame; [..|by apply (P_update c1 h)]; done.
      * case_decide; [|done].
        destruct (ref (heap c1 (rValue (rings c1 h))));
          by apply (ring_ok_frame c1).
      * case_decide; [|by apply Hok1].
        destruct (ref (heap c1 (rValue (rings c1 h)))); by apply Hok1.
    + cbn [hand_test] in H. ring_bind H as c1 H1.
      assert (ring_ok c1 ∧ P c1) as [Hok1 HP1].
      { case_decide; [exact (IHc c c1 H1 Hok HP) | by injection H1 as <-]. }
      ring_bind H as h Hh. cbv zeta in H. ring_bind H as c2 H2.
      assert (ring_ok c2 ∧ P c2) as [Hok2 HP2].
      { case_decide; [|by injection H2 as <-].
        split; [by apply (test_remove_ring_ok _ _ _ H2)|].
        apply (P_same c1); [|done]. by apply (test_remove_same _ _ _ H2). }
      ring_bind H as [c3 nx] H3. injection H as <-.
      pose proof (hand_Next_same _ _ _ _ H3) as S3.
      apply hand_Next_Ok_ring_ok in H3 as (Hok3 & N3 & _ & _ & _ & n' & -> & Hn');
        [|done|by apply Hok2].
      split; [apply ring_ok_set_test; [done|]; by rewrite N3|].
      eapply ring_rule_frame; [..|exact (P_same _ _ S3 HP2)]; done.
Qed.

Lemma evict_keep n c c' :
  evict n c = Ok c' → ring_ok c → P c → ring_ok c' ∧ P c'.
Proof.
  revert c. induction n as [|n IH]; intros c H Hok HP; rewrite ring_evict_eq in H;
    (case_decide; [|by injection H as <-]).
  - discriminate.
  - ring_bind H as c1 H1.
    destruct (proj1 (hands_keep n) c c1 H1 Hok HP). by apply (IH c1 H).
Qed.
End ring_hands_rule.

Lemma evict_ring_ok n c c' : evict n c = Ok c' → ring_ok c → ring_ok c'.
Proof.
  intros H Hok.
  by destruct (evict_keep (λ _, True) ltac:(done) ltac:(done) n c c' H Hok I).
Qed.

Lemma meta_add_ring_ok fuel c mentry c' :
  meta_add fuel c mentry = Ok c' → ring_ok c → ring_ok c'.
Proof.
  unfold meta_add. intros H Hok. ring_bind H as c1 H1.
  apply evict_ring_ok in H1; [|done].
  destruct (meta_add_link_ring_ok c1 mentry H1) as (c2 & E & Hok2 & _).
  rewrite E in H. by injection H as <-.
Qed.

Lemma ring_Set_in_order fuel c k v c' :
  Cache_Set fuel c k v = Ok c' → ring_ok c → ring_ok c'.
Proof.
  unfold Cache_Set. intros H Hok.
  destruct (index_lookup c k) as [e|].
  - destruct (val (heap c (rValue (rings c e)))).
    + injection H as <-. by apply (ring_ok_frame c).
    + cbv zeta in H. ring_bind H as c1 H1. ring_bind H as c2 H2.
      injection H as <-.
      apply meta_del_Ok_ring_ok in H1 as [Hok1 _].
      * apply meta_add_ring_ok in H2; [|done]. by apply (ring_ok_frame c2).
      * unfold promote_entry. case_decide; by apply (ring_ok_frame c).
  - cbv zeta in H. ring_bind H as c1 H1. injection H as <-.
    apply meta_add_ring_ok in H1.
    + by apply (ring_ok_frame c1).
    + by apply (ring_ok_frame c).
Qed.

Lemma ring_Get_in_order c k : ring_ok c → ring_ok (Cache_Get c k).1.
Proof.
  intros Hok. unfold Cache_Get. destruct (index_lookup c k) as [e|]; [|done].
  destruct (val (heap c (rValue (rings c e)))); [|done].
  by apply (ring_ok_frame c).
Qed.

Lemma New_ring_ok size : ring_ok (@New V size).
Proof.
  unfold ring_ok, New. ring_flatten. by split_and!.
Qed.

(** X23. On a cache whose ring is in order, [meta_del] fails exactly for a
    key that is not in the index; for a key that is, it returns, leaves the
    ring in order and only takes that key out of the index. *)
Theorem ring_meta_del_total c k :
  ring_ok c →
  match metaKeys c !! k with
  | None => meta_del c k = Panic
  | Some _ =>
      ∃ c', meta_del c k = Ok c' ∧ ring_ok c' ∧
        metaKeys c' = delete k (metaKeys c) ∧ next_ring c' = next_ring c
  end.
Proof.
  intros Hok. destruct (metaKeys c !! k) as [v|] eqn:Hk.
  - destruct (meta_del_ring_ok c k v Hok Hk) as (c' & E & Hok' & N & K).
    by exists c'.
  - unfold meta_del. by rewrite Hk.
Qed.

(** X24. On a cache whose ring is in order, the part of [meta_add] after
    [evict] always returns; it allocates one ring element, under which the
    index then has the entry's key, and leaves the ring in order. *)
Theorem ring_meta_add_keeps_ring_in_order c mentry :
  ring_ok c →
  ∃ c', meta_add_link c mentry = Ok c' ∧ ring_ok c' ∧
    metaKeys c' !! key (heap c mentry) = Some (Some (next_ring c)) ∧
    (∀ k, k ≠ key (heap c mentry) → metaKeys c' !! k = metaKeys c !! k) ∧
    rValue (rings c' (next_ring c)) = mentry ∧
    next_ring c' = S (next_ring c).
Proof.
  intros Hok.
  destruct (meta_add_link_ring_ok c mentry Hok) as (c' & E & Hok' & N & K & Hv).
  exists c'. split_and!; try done.
  - rewrite K. apply lookup_insert_eq.
  - intros k Hk. rewrite K. by apply lookup_insert_ne.
Qed.

(** X25. After any sequence of [Get] and [Set] on a new cache that returns,
    the ring is in order: every initialised element's [next] and [prev]
    lead to elements that lead back to it, no element beyond the allocated
    ones is initialised, and the index and the hands refer to allocated
    elements. *)
Theorem ring_stays_in_order size fuel (ops : list (@op V)) c :
  run fuel (New size) ops = Ok c → ring_ok c.
Proof.
  assert (∀ c0, ring_ok c0 → run fuel c0 ops = Ok c → ring_ok c) as Hrun.
  { induction ops as [|[k|k v] ops IH]; intros c0 Hok H; cbn [run] in H.
    - by injection H as <-.
    - apply (IH (Cache_Get c0 k).1); [by apply ring_Get_in_order|done].
    - ring_bind H as c1 H1. apply (IH c1); [|done].
      by apply (ring_Set_in_order fuel c0 k v). }
  apply Hrun, New_ring_ok.
Qed.


(** ** Reading back what was stored *)

Lemma entry_kept_same b ne m c c' :
  same_entries c c' → entry_kept b ne m c → entry_kept b ne m c'.
Proof.
  intros (N & E & H & Vv) (A & B & C). unfold entry_kept. rewrite N, E, H.
  split_and!; try done. intros e He. rewrite Vv. by apply A.
Qed.

Lemma entry_kept_update b ne m c h f :
  (h < next_ring c)%nat → entry_kept b ne m c →
  entry_kept b ne m (update_entry (rValue (rings c h)) f c).
Proof.
  intros Lh (A & B & C). unfold entry_kept, update_entry.
  cbn [next_ring rings next_entry heap set_heap]. split_and!; try done.
  rewrite fn_lookup_insert_ne; [done|]. specialize (A h Lh). lia.
Qed.

Lemma evict_entry_kept b ne m n c c' :
  evict n c = Ok c' → ring_ok c → entry_kept b ne m c →
  ring_ok c' ∧ entry_kept b ne m c'.
Proof.
  apply (evict_keep (entry_kept b ne m)).
  - apply entry_kept_same.
  - apply entry_kept_update.
Qed.

(** The part of [meta_add] after [evict] changes no entry and no [Value]. *)
Lemma meta_add_link_entries c mentry c' :
  meta_add_link c mentry = Ok c' →
  heap c' = heap c ∧ next_entry c' = next_entry c ∧
  ∀ q, q ≠ next_ring c → rValue (rings c' q) = rValue (rings c q).
Proof.
  unfold meta_add_link. intros H. destruct (meta c) as [m0|].
  - cbv zeta in H. ring_bind H as [s n] HL.
    pose proof (Link_values _ _ _ _ _ HL) as VL.
    cbn [rings set_metaKeys alloc_ring set_next_ring set_rings] in VL.
    assert (∀ q, q ≠ next_ring c → rValue (s q) = rValue (rings c q)) as Vq.
    { intros q Hq. rewrite VL. by rewrite fn_lookup_insert_ne. }
    decide_in H.
    + ring_bind H as [c1 p] HP. injection H as <-.
      apply hand_Prev_same in HP as (_ & E & Hh & Vv).
      cbn [heap next_entry rings set_hand_pos_cold].
      split_and!; [by rewrite Hh|by rewrite E|].
      intros q Hq. rewrite Vv. by apply Vq.
    + injection H as <-. by split_and!.
  - injection H as <-. split_and!; try done.
    intros q Hq. cbn. by rewrite fn_lookup_insert_ne.
Qed.

Lemma meta_add_link_allocated c mentry c' :
  meta_add_link c mentry = Ok c' → ring_ok c →
  (∀ e, (e < next_ring c)%nat → (rValue (rings c e) < next_entry c)%nat) →
  (mentry < next_entry c)%nat →
  entries_allocated c'.
Proof.
  intros H Hok A Hm.
  destruct (meta_add_link_entries c mentry c' H) as (_ & E & Vq).
  destruct (meta_add_link_ring_ok c mentry Hok) as (c'' & H' & _ & N & _ & Vn).
  rewrite H in H'. injection H' as <-.
  intros e He. rewrite E. destruct (decide (e = next_ring c)) as [->|Hne].
  - by rewrite Vn.
  - rewrite Vq by done. apply A. lia.
Qed.

(** [Set] of a key that the index does not have: the value can be read. *)
Lemma ring_Set_absent fuel c k v c' :
  ring_ok c → entries_allocated c → index_lookup c k = None →
  Cache_Set fuel c k (Some v) = Ok c' →
  (Cache_Get c' k).2 = Some v.
Proof.
  intros Hok Ha Hk H. unfold Cache_Set in H. rewrite Hk in H. cbv zeta in H.
  ring_bind H as c1 H1. injection H as <-.
  unfold meta_add in H1. ring_bind H1 as c2 H2.
  set (m := mkMetaEntry ptCold k (Some v) false) in *.
  apply (evict_entry_kept (next_entry c) (S (next_entry c)) m) in H2
    as (Hok2 & A2 & N2 & Hm2).
  - destruct (meta_add_link_ring_ok c2 (next_entry c) Hok2)
      as (c1' & E & _ & _ & K & Vn).
    rewrite E in H1. injection H1 as <-.
    destruct (meta_add_link_entries _ _ _ E) as (Hh & _ & _).
    unfold Cache_Get, index_lookup. cbn [metaKeys set_count_cold rings heap].
    rewrite K, Hm2. cbn [key m]. rewrite lookup_insert_eq. cbn [default from_option id].
    rewrite Vn, Hh, Hm2. done.
  - by apply (ring_ok_frame c).
  - unfold entry_kept, alloc_entry.
    cbn [next_ring rings next_entry heap set_heap set_next_entry].
    split_and!; [exact Ha|done|by rewrite fn_lookup_insert].
Qed.

(** [Set] of a key whose entry holds a value overwrites it. *)
Lemma ring_Set_resident fuel c k v c' e x :
  index_lookup c k = Some e → val (heap c (rValue (rings c e))) = Some x →
  Cache_Set fuel c k (Some v) = Ok c' →
  (Cache_Get c' k).2 = Some v.
Proof.
  intros Hk Hv H. unfold Cache_Set in H. rewrite Hk, Hv in H. injection H as <-.
  unfold Cache_Get, index_lookup in *. unfold update_entry.
  cbn [metaKeys rings heap set_heap]. rewrite Hk. by rewrite fn_lookup_insert.
Qed.

Lemma ring_Set_allocated fuel c k v c' :
  Cache_Set fuel c k v = Ok c' → ring_ok c → entries_allocated c →
  entries_allocated c'.
Proof.
  unfold Cache_Set. intros H Hok Ha.
  destruct (index_lookup c k) as [e|] eqn:Hk.
  - destruct (val (heap c (rValue (rings c e)))).
    + injection H as <-. exact Ha.
    + cbv zeta in H. ring_bind H as c1 H1. ring_bind H as c2 H2.
      injection H as <-.
      assert ((e < next_ring c)%nat) as Le.
      { unfold index_lookup in Hk.
        destruct (metaKeys c !! k) as [w|] eqn:Hw; [|done].
        destruct (proj1 (proj2 (proj2 Hok)) k w Hw) as (e' & -> & He').
        cbn in Hk. by injection Hk as <-. }
      pose proof (Ha e Le) as Lp.
      set (p := rValue (rings c e)) in *.
      set (c0 := promote_entry p v c) in *.
      assert (ring_ok c0) as Hok0.
      { unfold c0, promote_entry. case_decide; by apply (ring_ok_frame c). }
      assert (entry_kept (next_entry c) (next_entry c) (heap c (next_entry c)) c0)
        as Hk0.
      { unfold c0, promote_entry, entry_kept, update_entry.
        case_decide;
          cbn [next_ring rings next_entry heap set_heap set_count_test set_mem_cold];
          (split_and!; [exact Ha|done|]);
          rewrite fn_lookup_insert_ne; (done || lia). }
      pose proof (meta_del_same _ _ _ H1) as S1.
      apply meta_del_Ok_ring_ok in H1 as [Hok1 _]; [|done].
      apply (entry_kept_same _ _ _ _ _ S1) in Hk0.
      unfold meta_add in H2. ring_bind H2 as c3 H3.
      apply (evict_entry_kept _ _ _ _ _ _ H3 Hok1) in Hk0 as (Hok3 & A3 & N3 & _).
      apply (meta_add_link_allocated c3 p c2 H2 Hok3).
      * intros q Hq. rewrite N3. by apply A3.
      * by rewrite N3.
  - cbv zeta in H. ring_bind H as c1 H1. injection H as <-.
    unfold meta_add in H1. ring_bind H1 as c2 H2.
    apply (evict_entry_kept (next_entry c) (S (next_entry c))
             (mkMetaEntry ptCold k v false)) in H2 as (Hok2 & A2 & N2 & _).
    + apply (meta_add_link_allocated c2 (next_entry c) c1 H1 Hok2).
      * intros q Hq. rewrite N2. specialize (A2 q Hq). lia.
      * rewrite N2. lia.
    + by apply (ring_ok_frame c).
    + unfold entry_kept, alloc_entry.
      cbn [next_ring rings next_entry heap set_heap set_next_entry].
      split_and!; [exact Ha|done|by rewrite fn_lookup_insert].
Qed.

Lemma run_in_order fuel (ops : list (@op V)) : ∀ c0 c,
  run fuel c0 ops = Ok c → ring_ok c0 → entries_allocated c0 →
  ring_ok c ∧ entries_allocated c.
Proof.
  induction ops as [|[k|k v] ops IH]; intros c0 c H Hok Ha; cbn [run] in H.
  - by injection H as <-.
  - apply (IH (Cache_Get c0 k).1); [done|by apply ring_Get_in_order|].
    unfold Cache_Get. destruct (index_lookup c0 k) as [e|]; [|done].
    destruct (val (heap c0 (rValue (rings c0 e)))); done.
  - ring_bind H as c1 H1. apply (IH c1); [done|..].
    + by apply (ring_Set_in_order fuel c0 k v).
    + by apply (ring_Set_allocated fuel c0 k v).
Qed.

(** X26. After any sequence of [Get] and [Set] on a new cache, a [Set] of
    a key that is not in the test state (the index does not have it, or its
    entry holds a value) with a value other than nil, if it returns, is
    followed by a [Get] that returns this value. *)
Theorem ring_Set_then_Get size fuel0 (ops : list (@op V)) c fuel k v c' :
  run fuel0 (New size) ops = Ok c →
  (∀ e, index_lookup c k = Some e →
     is_Some (val (heap c (rValue (rings c e))))) →
  Cache_Set fuel c k (Some v) = Ok c' →
  (Cache_Get c' k).2 = Some v.
Proof.
  intros Hrun Hres H.
  destruct (run_in_order fuel0 ops (New size) c Hrun) as [Hok Ha].
  { apply New_ring_ok. }
  { intros e He. cbn in He. lia. }
  destruct (index_lookup c k) as [e|] eqn:Hk.
  - destruct (Hres e eq_refl) as [x Hx].
    by apply (ring_Set_resident fuel c k v c' e x).
  - by apply (ring_Set_absent fuel c k v c').
Qed.

End RingProofs.

(** ** Instances *)

Lemma ring_meta_add_links_before_hot_witness :
  ∃ c', meta_add_link cache_ab_c 2 = Ok c' ∧
    rings c' 2%nat = mkRingElem (Some 0%nat) (Some 1%nat) 2 ∧
    hand_pos_hot c' = Some 0%nat ∧ hand_pos_cold c' = Some 1%nat.
Proof.
  destruct (ring_meta_add_links_before_hot cache_ab_c 2 0 0 1)
    as (c' & H1 & H2 & _ & _ & _ & H6 & _ & H8 & _).
  - vm_compute. reflexivity.
  - vm_compute. reflexivity.
  - vm_compute. reflexivity.
  - by_evaluation.
  - by_evaluation.
  - exists c'. split_and!; [exact H1|exact H2|exact H6|].
    rewrite H8. vm_compute. reflexivity.
Defined.

Lemma ring_meta_del_unlinks_witness :
  ∃ c', meta_del cache_ab "b" = Ok c' ∧
    metaKeys c' !! "b" = None ∧
    rnext (rings c' 0%nat) = Some 0%nat ∧ hand_pos_cold c' = Some 0%nat.
Proof.
  destruct (ring_meta_del_unlinks cache_ab "b" 1 0 0 1)
    as (c' & H1 & H2 & H3 & _ & _ & _ & H7 & _).
  - vm_compute. reflexivity.
  - vm_compute. reflexivity.
  - vm_compute. reflexivity.
  - vm_compute. reflexivity.
  - vm_compute. reflexivity.
  - vm_compute. reflexivity.
  - discriminate.
  - exists c'. split_and!; [exact H1| |exact H3|].
    + rewrite H2. apply lookup_delete_eq.
    + rewrite H7. vm_compute. reflexivity.
Defined.

Lemma ring_meta_del_keeps_last_element_witness :
  ∃ c', meta_del cache_a "a" = Ok c' ∧
    metaKeys c' !! "a" = None ∧
    rings c' 0%nat = mkRingElem (Some 0%nat) (Some 0%nat) 0 ∧
    hand_pos_hot c' = Some 0%nat ∧ meta c' = Some 0%nat.
Proof.
  destruct (ring_meta_del_keeps_last_element cache_a "a" 0)
    as (c' & H1 & H2 & H3 & _ & H5 & _ & _ & H8 & _).
  - vm_compute. reflexivity.
  - left. vm_compute. reflexivity.
  - exists c'. split_and!; [exact H1| |exact H3| |].
    + rewrite H2. apply lookup_delete_eq.
    + rewrite H5. vm_compute. reflexivity.
    + rewrite H8. vm_compute. reflexivity.
Defined.

Lemma ring_Set_diverges_at_size_one_witness :
  ∃ c1 : @Cache Z, Cache_Set 0 (New 1) "a" (Some 1) = Ok c1 ∧
    (Cache_Get c1 "a").2 = Some 1 ∧
    ∀ fuel, Cache_Set fuel (Cache_Get c1 "a").1 "b" (Some 2) = OutOfFuel.
Proof.
  apply (ring_Set_diverges_at_size_one "a" "b" 1 (Some 2) 0). discriminate.
Defined.

(** The ring of [cache_ab] is in order. *)
Lemma ring_cache_ab_ok : ring_ok cache_ab.
Proof.
  apply (ring_Set_in_order 20 cache_a "b" (Some 2)); [vm_compute; reflexivity|].
  apply (ring_Set_in_order 20 (New 3) "a" (Some 1)); [vm_compute; reflexivity|].
  apply New_ring_ok.
Defined.

Lemma ring_meta_del_total_witness :
  ∃ c', meta_del cache_ab "b" = Ok c' ∧ ring_ok c' ∧ metaKeys c' !! "b" = None.
Proof.
  pose proof (ring_meta_del_total cache_ab "b" ring_cache_ab_ok) as H.
  assert (metaKeys cache_ab !! "b" = Some (Some 1%nat)) as E
    by (vm_compute; reflexivity).
  rewrite E in H. destruct H as (c' & H1 & H2 & H3 & _).
  exists c'. split_and!; [exact H1|exact H2|].
  rewrite H3. apply lookup_delete_eq.
Defined.

Lemma ring_meta_add_keeps_ring_in_order_witness :
  ∃ c', meta_add_link cache_ab_c 2 = Ok c' ∧ ring_ok c' ∧
    metaKeys c' !! "c" = Some (Some 2%nat).
Proof.
  destruct (ring_meta_add_keeps_ring_in_order cache_ab_c 2)
    as (c' & H1 & H2 & H3 & _).
  - apply (ring_ok_frame cache_ab); try reflexivity. exact ring_cache_ab_ok.
  - exists c'. split_and!; [exact H1|exact H2|].
    replace "c" with (key (heap cache_ab_c 2)) by (vm_compute; reflexivity).
    rewrite H3. vm_compute. reflexivity.
Defined.

Lemma ring_stays_in_order_witness : ring_ok cache_ab.
Proof.
  apply (ring_stays_in_order 3 20 [OpSet "a" (Some 1); OpSet "b" (Some 2)]).
  vm_compute. reflexivity.
Defined.

Lemma ring_Set_then_Get_witness :
  ∃ c', Cache_Set 20 cache_full "c" (Some 3) = Ok c' ∧
    (Cache_Get c' "c").2 = Some 3.
Proof.
  eexists. split; [vm_compute; reflexivity|].
  apply (ring_Set_then_Get 2 20 [OpSet "a" (Some 1); OpSet "b" (Some 2)]
           cache_full 20 "c" 3).
  - vm_compute. reflexivity.
  - intros e He. vm_compute in He. discriminate.
  - vm_compute. reflexivity.
Defined.

End RingFacts.
